(** * trello-full-backup: a shallow embedding of [backup.py]

    The development follows the source file top-down: text and the name
    sanitizer, the selection of attachments, the grouping of cards, then the
    effectful exporters over an explicit model of the process (working
    directory, file tree, output streams, HTTP replies). *)

From Stdlib Require Import QArith Ascii String DecimalString DecimalNat.
From stdpp Require Import base option list numbers countable strings sorting gmap.

Set Default Proof Using "Type".
Open Scope nat_scope.

(** ** Text

    A Python [str] is a sequence of Unicode code points; [len] and slicing
    count code points.  A character is its code point. *)

Module Str.

Abbreviation char := N (only parsing).
Abbreviation str := (list N) (only parsing).

Definition chr (a : Ascii.ascii) : char := Ascii.N_of_ascii a.
Arguments chr a%_char.

(** Literals are written as Rocq strings of ASCII characters. *)
Definition lit (s : String.string) : str :=
  chr <$> String.list_ascii_of_string s.
Arguments lit s%_string.

(** [str(n)] for a non-negative [int]. *)
Definition of_nat (n : nat) : str :=
  lit (NilEmpty.string_of_uint (Nat.to_uint n)).

(** [str(z)] for an [int]. *)
Definition of_Z (z : Z) : str :=
  lit (NilZero.string_of_int (Z.to_int z)).

(** [str(b)] for a [bool]. *)
Definition of_bool (b : bool) : str :=
  if b then lit "True" else lit "False".

(** [s[-n:]] for a positive constant [n]: the last [n] characters, the
    whole of [s] when it is shorter. *)
Definition last_n (n : nat) (s : str) : str := drop (length s - n) s.

(** [re.sub('[...]', repl, s)] for a pattern that is one character class:
    every character of the class is a match, each match is replaced by
    [repl], everything else is copied. *)
Definition re_sub_class (cls : str) (repl : str) (s : str) : str :=
  s ≫= (λ c, if bool_decide (c ∈ cls) then repl else [c]).

(** [s.replace(a, b)] for single characters [a] and [b]. *)
Definition replace_char (a b : char) (s : str) : str :=
  (λ c, if bool_decide (c = a) then b else c) <$> s.

(** [s.split(sep)] for a single character [sep]; never empty. *)
Fixpoint split (sep : char) (s : str) : list str :=
  match s with
  | [] => [[]]
  | c :: s' =>
      if bool_decide (c = sep) then [] :: split sep s'
      else match split sep s' with
           | [] => [[c]]
           | w :: ws => (c :: w) :: ws
           end
  end.

(** [sep.join(ws)] as used by [print] with several arguments. *)
Fixpoint join (sep : str) (ws : list str) : str :=
  match ws with
  | [] => []
  | [w] => w
  | w :: ws' => w ++ sep ++ join sep ws'
  end.

End Str.
Export Str.


(** ** Constants of the module *)

Definition ATTACHMENT_BYTE_LIMIT : Z := 100000000.
Definition ATTACHMENT_REQUEST_TIMEOUT : nat := 30.
Definition ATTACHMENT_DOWNLOAD_RETRIES : nat := 3.
Definition FILE_NAME_MAX_LENGTH : nat := 255.
Definition FILTERS (i : bool) : str := if i then lit "all" else lit "open".
Definition TRELLO_API : str := lit "https://api.trello.com/1/".

(** ** Name sanitizer *)

(** The character class of the pattern [[<>:\/\|\?\*]]: inside a class the
    escapes [\/], [\|], [\?] and [\*] stand for the escaped character, so the
    class has seven members and the backslash is not one of them. *)
Definition PROBLEMATIC : str := lit "<>:/|?*".

Definition sanitize_file_name (name : str) : str :=
  last_n FILE_NAME_MAX_LENGTH (re_sub_class PROBLEMATIC (lit "_") name).

(** The eight characters the specification lists: the seven of the class and
    the backslash. *)
Definition LISTED : str := lit "<>:/\|?*".

(** What [re.sub] does to one character of the name. *)
Definition replaced_char (c : char) : char :=
  if bool_decide (c ∈ PROBLEMATIC) then chr "_" else c.

(** ** Data model

    The payloads are the JSON objects of the remote API after decoding; a
    record has one field for each key the program reads.  The program trusts
    the wire format, so a key it reads is always there. *)

(** One element of [c['attachments']]; ['bytes'] may be [null]. *)
Record Attachment := {
  a_name : str;
  a_url : str;
  a_bytes : option Z;
}.

(** One element of [board_details['cards']].  ['pos'] is a JSON number. *)
Record Card := {
  c_name : str;
  c_idList : str;
  c_pos : Q;
  c_desc : str;
  c_attachments : list Attachment;
}.

(** One element of [board_details['lists']]. *)
Record TrelloList := {
  l_id : str;
  l_name : str;
}.

(** The full board graph returned by the per-board request. *)
Record BoardDetails := {
  bd_name : str;
  bd_lists : list TrelloList;
  bd_cards : list Card;
}.

(** One element of a board index. *)
Record Board := {
  b_id : str;
  b_closed : bool;
}.

(** One element of the organization index. *)
Record Organization := {
  o_id : str;
  o_name : str;
}.

(** The namespace [argparse] returns.  [-d] and [-a] are declared with
    [nargs='?'] and no [const], so each is [None] when the flag is given
    without a value; the three [store_const] flags are 0 or 1. *)
Record Args := {
  d : option str;
  closed_boards : bool;
  archived_lists : bool;
  archived_cards : bool;
  orgs : bool;
  attachment_size : option Z;
}.

(** ** Pure helpers of the source *)

Definition filter_boards (boards : list Board) (closed : bool) : list Board :=
  filter (λ b, negb (b_closed b) || closed) boards.

(** The condition of the comprehension in [download_attachments], for an
    integer [max_size]. *)
Definition below_limit (max_size : Z) (a : Attachment) : bool :=
  match a_bytes a with
  | None => false
  | Some n => (n <? max_size)%Z || (max_size =? -1)%Z
  end.

(** [enumerate(xs)] *)
Definition enumerate {A} (xs : list A) : list (nat * A) := imap pair xs.

(** [itertools.groupby(xs, key)]: the maximal runs of consecutive elements
    with equal keys, each with its key, in order. *)
Fixpoint groupby {A K} `{EqDecision K} (key : A → K) (xs : list A)
  : list (K * list A) :=
  match xs with
  | [] => []
  | x :: xs' =>
      match groupby key xs' with
      | (k, g) :: gs =>
          if decide (key x = k) then (k, x :: g) :: gs
          else (key x, [x]) :: (k, g) :: gs
      | [] => [(key x, [x])]
      end
  end.

(** [sorted(xs, key=...)] on numeric keys: a stable sort that compares keys
    with [<] only.  An element goes in front of the first one whose key is
    not smaller than its own, so equal keys keep their input order. *)
Fixpoint sorted_insert {A} (key : A → Q) (x : A) (ys : list A) : list A :=
  match ys with
  | [] => [x]
  | y :: ys' =>
      if Qlt_le_dec (key y) (key x) then y :: sorted_insert key x ys'
      else x :: y :: ys'
  end.

Definition sorted {A} (key : A → Q) (xs : list A) : list A :=
  foldr (sorted_insert key) [] xs.

(** The order [sorted] establishes. *)
Definition key_le {A} (key : A → Q) (a b : A) : Prop := (key a <= key b)%Q.

(** Line 130: [lists[list_id] = sorted(list(cards), key=...)]; an assignment
    to a key that is already there replaces its value. *)
Definition assign_group (lists : gmap str (list Card))
    (group : str * list Card) : gmap str (list Card) :=
  let '(list_id, cards) := group in <[list_id := sorted c_pos cards]> lists.

(** Lines 127-130 of [backup_board]: the dictionary [lists], filled group by
    group. *)
Definition cards_by_list (cards : list Card) : gmap str (list Card) :=
  foldl assign_group ∅ (groupby c_idList cards).

(** Line 138: [lists[ls['id']] if ls['id'] in lists else []]. *)
Definition cards_of (lists : gmap str (list Card)) (ls : TrelloList)
  : list Card :=
  default [] (lists !! l_id ls).

(** ** The process and its surroundings

    The program works through the process's working directory, the file
    tree, the two output streams and HTTP requests.  All of it is one
    explicit state. *)

Abbreviation bytes := (list Byte.byte) (only parsing).

(** The values handed to [write_file]. *)
Inductive Obj :=
  | OCard (c : Card)
  | OBoard (b : BoardDetails)
  | OStr (s : str).

(** What a file holds: the [json.dumps] of a value (indented, keys sorted),
    text written as it is, or the bytes of a download. *)
Inductive Content :=
  | Json (o : Obj)
  | Text (s : str)
  | Binary (data : bytes).

Inductive Node :=
  | Dir
  | File (c : Content).

(** An entry of the file tree with the answer of [os.access(_, os.R_OK)]. *)
Record Entry := {
  node : Node;
  r_ok : bool;
}.

(** An absolute path: the names from the root down. *)
Abbreviation path := (list (list N)) (only parsing).

(** The reply to a streamed [requests.get]: the call itself raises
    (connection error, timeout), or it returns a response with a status
    code whose body arrives as chunks through [iter_content]; the stream
    either ends after them or breaks, and then [iter_content] raises. *)
Inductive Reply :=
  | CallFails
  | Response (status_code : nat) (chunks : list bytes) (complete : bool).

(** The remote side.  Replies may depend on the number of requests made so
    far and on the URL.  The three JSON endpoints are given by what
    [requests.get(url).json()] evaluates to, [None] when it raises. *)
Record Remote := {
  board_index : nat → str → option (list Board);
  organization_index : nat → str → option (list Organization);
  board_detail : nat → str → option BoardDetails;
  download : nat → str → Reply;
}.

Record World := {
  cwd : path;
  tree : gmap path Entry;
  stdout : list str;
  stderr : list str;
  requests_made : nat;
  remote : Remote;
  TRELLO_API_KEY : str;
  TRELLO_TOKEN : str;
  (** what [datetime.datetime.now().isoformat('_')] returns *)
  now_isoformat : str;
}.

Definition set_cwd (p : path) (w : World) : World :=
  {| cwd := p; tree := tree w; stdout := stdout w; stderr := stderr w;
     requests_made := requests_made w; remote := remote w;
     TRELLO_API_KEY := TRELLO_API_KEY w; TRELLO_TOKEN := TRELLO_TOKEN w;
     now_isoformat := now_isoformat w |}.

Definition set_tree (t : gmap path Entry) (w : World) : World :=
  {| cwd := cwd w; tree := t; stdout := stdout w; stderr := stderr w;
     requests_made := requests_made w; remote := remote w;
     TRELLO_API_KEY := TRELLO_API_KEY w; TRELLO_TOKEN := TRELLO_TOKEN w;
     now_isoformat := now_isoformat w |}.

Definition set_stdout (o : list str) (w : World) : World :=
  {| cwd := cwd w; tree := tree w; stdout := o; stderr := stderr w;
     requests_made := requests_made w; remote := remote w;
     TRELLO_API_KEY := TRELLO_API_KEY w; TRELLO_TOKEN := TRELLO_TOKEN w;
     now_isoformat := now_isoformat w |}.

Definition set_stderr (e : list str) (w : World) : World :=
  {| cwd := cwd w; tree := tree w; stdout := stdout w; stderr := e;
     requests_made := requests_made w; remote := remote w;
     TRELLO_API_KEY := TRELLO_API_KEY w; TRELLO_TOKEN := TRELLO_TOKEN w;
     now_isoformat := now_isoformat w |}.

Definition tick (w : World) : World :=
  {| cwd := cwd w; tree := tree w; stdout := stdout w; stderr := stderr w;
     requests_made := S (requests_made w); remote := remote w;
     TRELLO_API_KEY := TRELLO_API_KEY w; TRELLO_TOKEN := TRELLO_TOKEN w;
     now_isoformat := now_isoformat w |}.

(** ** Exceptions and the monad of the program *)

Inductive Exn :=
  | FileExistsError
  | FileNotFoundError
  | NotADirectoryError
  | IsADirectoryError
  | ValueError
  | TypeError
  | UnicodeEncodeError
  | RequestException.

(** How a piece of the program ends: it returns, an exception propagates,
    or [sys.exit] was called. *)
Inductive Outcome (A : Type) :=
  | Done (a : A)
  | Raised (e : Exn)
  | Exited (code : Z).
Arguments Done {A} a.
Arguments Raised {A} e.
Arguments Exited {A} code.

Definition M (A : Type) : Type := World → Outcome A * World.

Definition ret {A} (a : A) : M A := λ w, (Done a, w).

Definition bind {A B} (m : M A) (k : A → M B) : M B := λ w,
  match m w with
  | (Done a, w') => k a w'
  | (Raised e, w') => (Raised e, w')
  | (Exited c, w') => (Exited c, w')
  end.

Definition raise {A} (e : Exn) : M A := λ w, (Raised e, w).

(** [sys.exit(code)] *)
Definition sys_exit {A} (code : Z) : M A := λ w, (Exited code, w).

Definition get_world : M World := λ w, (Done w, w).

Definition modify (f : World → World) : M unit := λ w, (Done tt, f w).

(** [try: m except Exception: h]; [SystemExit] is not an [Exception]. *)
Definition try_except {A} (m : M A) (h : M A) : M A := λ w,
  match m w with
  | (Raised _, w') => h w'
  | r => r
  end.

Notation "x ← m ; k" := (bind m (λ x, k))
  (at level 20, m at level 100, k at level 200, only parsing).
Notation "m ;; k" := (bind m (λ _, k))
  (at level 100, k at level 200, right associativity, only parsing).

(** [for x in xs: body] *)
Fixpoint for_each {A} (xs : list A) (body : A → M unit) : M unit :=
  match xs with
  | [] => ret tt
  | x :: xs' => body x;; for_each xs' body
  end.

(** ** File system

    Paths are resolved the POSIX way, one component after the other from
    the root or from the working directory, without symbolic links.  Limits
    of the file system on the length of a name are not part of the model. *)

Definition NUL : char := 0%N.
Definition SLASH : char := chr "/".

Definition exists_at (t : gmap path Entry) (p : path) : bool :=
  match p with
  | [] => true
  | _ => bool_decide (is_Some (t !! p))
  end.

Definition is_dir (t : gmap path Entry) (p : path) : bool :=
  match p with
  | [] => true
  | _ => match t !! p with
         | Some {| node := Dir |} => true
         | _ => false
         end
  end.

Definition parent (p : path) : path := take (length p - 1) p.

(** The error of using [p] as a directory when it is none. *)
Definition no_dir_error (t : gmap path Entry) (p : path) : Exn :=
  if exists_at t p then NotADirectoryError else FileNotFoundError.

(** One component of a path, followed from the directory reached so far. *)
Definition step (t : gmap path Entry) (acc : Exn + path) (c : str)
  : Exn + path :=
  match acc with
  | inl e => inl e
  | inr dir =>
      if negb (is_dir t dir) then inl (no_dir_error t dir)
      else if bool_decide (c = [] ∨ c = lit ".") then inr dir
      else if bool_decide (c = lit "..") then inr (parent dir)
      else inr (dir ++ [c])
  end.

(** Where the path string [p] leads; the last component need not exist. *)
Definition locate (w : World) (p : str) : Exn + path :=
  if bool_decide (p = []) then inl FileNotFoundError
  else if bool_decide (NUL ∈ p) then inl ValueError
  else foldl (step (tree w))
             (inr (if bool_decide (head p = Some SLASH) then [] else cwd w))
             (split SLASH p).

(** A path without its trailing slashes ([mkdir] accepts them). *)
Fixpoint strip_slashes (p : str) : str :=
  match p with
  | [] => []
  | c :: p' =>
      match strip_slashes p' with
      | [] => if bool_decide (c = SLASH) then [] else [c]
      | r => c :: r
      end
  end.

Definition new_entry (n : Node) : Entry := {| node := n; r_ok := true |}.

(** [os.mkdir(p)] *)
Definition mkdir (p : str) : M unit := λ w,
  let p' := match strip_slashes p with [] => p | r => r end in
  match locate w p' with
  | inl e => (Raised e, w)
  | inr q =>
      if exists_at (tree w) q then (Raised FileExistsError, w)
      else if is_dir (tree w) (parent q)
      then (Done tt, set_tree (<[q := new_entry Dir]> (tree w)) w)
      else (Raised (no_dir_error (tree w) (parent q)), w)
  end.

(** [os.chdir(p)] *)
Definition chdir (p : str) : M unit := λ w,
  match locate w p with
  | inl e => (Raised e, w)
  | inr q =>
      if is_dir (tree w) q then (Done tt, set_cwd q w)
      else (Raised (no_dir_error (tree w) q), w)
  end.

(** [os.access(p, os.R_OK)]: whether [p] exists and is readable. *)
Definition access_R_OK (p : str) : M bool := λ w,
  match locate w p with
  | inl ValueError => (Raised ValueError, w)
  | inl _ => (Done false, w)
  | inr [] => (Done true, w)
  | inr q => (Done (from_option r_ok false (tree w !! q)), w)
  end.

(** [open(p, 'w')] and [open(p, 'wb')]: the file is created, or emptied when
    it is there; [empty] is the empty content of the mode.  The result
    stands for the file object. *)
Definition open_for_writing (p : str) (empty : Content) : M path := λ w,
  match locate w p with
  | inl e => (Raised e, w)
  | inr q =>
      if is_dir (tree w) q then (Raised IsADirectoryError, w)
      else if is_dir (tree w) (parent q)
      then (Done q,
            set_tree (<[q := {| node := File empty;
                                r_ok := from_option r_ok true (tree w !! q) |}]>
                        (tree w)) w)
      else (Raised (no_dir_error (tree w) (parent q)), w)
  end.

(** [f.write(...)] on an open file: the content is replaced by [update] of
    what the file holds. *)
Definition file_write (f : path) (update : Content → Content) : M unit :=
  modify (λ w,
    set_tree (alter (λ e, match node e with
                          | File c => {| node := File (update c); r_ok := r_ok e |}
                          | Dir => e
                          end) f (tree w)) w).

(** Text that UTF-8 can encode: no surrogate code point. *)
Definition utf8_encodable (s : str) : bool :=
  forallb (λ c, negb ((55296 <=? c)%N && (c <=? 57343)%N)) s.

(** [print] of the words [ws]: one line on the standard output. *)
Definition print (ws : list str) : M unit :=
  modify (λ w, set_stdout (stdout w ++ [join (lit " ") ws]) w).

(** [sys.stderr.write(s)] *)
Definition stderr_write (s : str) : M unit :=
  modify (λ w, set_stderr (stderr w ++ [s]) w).

(** ** HTTP *)

(** [requests.get(url).json()] on one of the JSON endpoints. *)
Definition requests_get_json {A} (endpoint : Remote → nat → str → option A)
    (url : str) : M A := λ w,
  match endpoint (remote w) (requests_made w) url with
  | Some a => (Done a, tick w)
  | None => (Raised RequestException, tick w)
  end.

(** [requests.get(url, stream=True, timeout=...)]: the response, with the
    body still to be read. *)
Definition requests_get_stream (url : str) (timeout : nat)
  : M (nat * list bytes * bool) := λ w,
  match download (remote w) (requests_made w) url with
  | Response status body complete => (Done (status, body, complete), tick w)
  | CallFails => (Raised RequestException, tick w)
  end.

(** ** The program *)

(** [auth], built once from the two environment variables. *)
Definition auth (w : World) : str :=
  lit "?key=" ++ TRELLO_API_KEY w ++ lit "&token=" ++ TRELLO_TOKEN w.

Definition write_file (file_name : str) (obj : Obj) (dumps : bool) : M unit :=
  f ← open_for_writing file_name (Text []);
  if dumps then file_write f (λ _, Json obj)
  else match obj with
       | OStr s =>
           if utf8_encodable s then file_write f (λ _, Text s)
           else raise UnicodeEncodeError
       | _ => raise TypeError
       end.

(** Lines 46-48: the attachments to download.  With [max_size] being [None]
    the comparison with a known size raises. *)
Definition select_attachments (c : Card) (max_size : option Z)
  : M (list Attachment) :=
  match max_size with
  | Some m => ret (filter (below_limit m) (c_attachments c))
  | None =>
      if existsb (λ a, bool_decide (is_Some (a_bytes a))) (c_attachments c)
      then raise TypeError
      else ret []
  end.

(** Lines 57-72: the body of the loop over the attachments. *)
Definition download_attachment (id_attachment : nat) (attachment : Attachment)
  : M unit :=
  let attachment_name :=
    sanitize_file_name (of_nat id_attachment ++ lit "_" ++ a_name attachment) in
  print [lit "Saving attachment"; attachment_name];;
  content ← try_except
    (r ← requests_get_stream (a_url attachment) ATTACHMENT_REQUEST_TIMEOUT;
     ret (Some r))
    (stderr_write (lit "Could not download " ++ attachment_name);; ret None);
  match content with
  | None => ret tt
  | Some (_, body, complete) =>
      f ← open_for_writing attachment_name (Binary []);
      for_each body (λ chunk,
        if bool_decide (chunk ≠ [])
        then file_write f (λ c, match c with
                                | Binary data => Binary (data ++ chunk)
                                | _ => c
                                end)
        else ret tt);;
      if complete then ret tt else raise RequestException
  end.

Definition download_attachments (c : Card) (max_size : option Z) : M unit :=
  attachments ← select_attachments c max_size;
  if bool_decide (0 < length attachments) then
    mkdir (lit "attachments");;
    chdir (lit "attachments");;
    for_each (enumerate attachments)
             (λ '(id_attachment, attachment),
                download_attachment id_attachment attachment);;
    chdir (lit "..")
  else ret tt.

Definition backup_card (id_card : nat) (c : Card) (attachment_size : option Z)
  : M unit :=
  let card_name := sanitize_file_name (of_nat id_card ++ lit "_" ++ c_name c) in
  mkdir card_name;;
  chdir card_name;;
  let meta_file_name := lit "card.json" in
  let description_file_name := lit "description.md" in
  print [lit "Saving"; card_name];;
  print [lit "Saving"; meta_file_name; lit "and"; description_file_name];;
  write_file meta_file_name (OCard c) true;;
  write_file description_file_name (OStr (c_desc c)) false;;
  download_attachments c attachment_size;;
  chdir (lit "..").

(** Lines 133-144: the body of the loop over the lists of the board. *)
Definition backup_list (lists : gmap str (list Card))
    (attachment_size : option Z) (id_list : nat) (ls : TrelloList) : M unit :=
  let list_name := sanitize_file_name (of_nat id_list ++ lit "_" ++ l_name ls) in
  mkdir list_name;;
  chdir list_name;;
  let cards := cards_of lists ls in
  for_each (enumerate cards)
           (λ '(id_card, c), backup_card id_card c attachment_size);;
  chdir (lit "..").

(** Lines 127-144: grouping, then one directory for each list. *)
Definition backup_lists (board_details : BoardDetails) (args : Args) : M unit :=
  let lists := cards_by_list (bd_cards board_details) in
  for_each (enumerate (bd_lists board_details))
           (λ '(id_list, ls),
              backup_list lists (attachment_size args) id_list ls).

Definition board_url (w : World) (board : Board) (args : Args) : str :=
  TRELLO_API ++ lit "boards/" ++ b_id board ++ auth w ++ lit "&" ++
  lit "actions=all&actions_limit=1000&" ++
  lit "cards=" ++ FILTERS (archived_cards args) ++ lit "&" ++
  lit "card_attachments=true&" ++
  lit "labels=all&" ++
  lit "lists=" ++ FILTERS (archived_lists args) ++ lit "&" ++
  lit "members=all&" ++
  lit "member_fields=all&" ++
  lit "checklists=all&" ++
  lit "fields=all".

Definition backup_board (board : Board) (args : Args) : M unit :=
  w ← get_world;
  board_details ← requests_get_json board_detail (board_url w board args);
  let board_dir := sanitize_file_name (bd_name board_details) in
  mkdir board_dir;;
  chdir board_dir;;
  let file_name := board_dir ++ lit "_full.json" in
  print [lit "Saving full json for board"; bd_name board_details;
         lit "with id"; b_id board; lit "to"; file_name];;
  write_file file_name (OBoard board_details) true;;
  backup_lists board_details args;;
  chdir (lit "..").

(** [dct[k] = v] on a dictionary kept in insertion order: a key that is
    there keeps its place and takes the new value. *)
Fixpoint dict_set {V} (k : str) (v : V) (dct : list (str * V))
  : list (str * V) :=
  match dct with
  | [] => [(k, v)]
  | (k', v') :: dct' =>
      if bool_decide (k = k') then (k, v) :: dct'
      else (k', v') :: dict_set k v dct'
  end.

(** A loop that assigns to one variable: [for x in xs: s = body(s, x)]. *)
Fixpoint fold_each {A S} (xs : list A) (s : S) (body : S → A → M S) : M S :=
  match xs with
  | [] => ret s
  | x :: xs' => s' ← body s x; fold_each xs' s' body
  end.

(** The default destination, from the time of the run. *)
Definition default_dest_dir (w : World) : str :=
  default [] (head (split (chr ".")
                          (replace_char (chr ":") (chr "-") (now_isoformat w))))
  ++ lit "_backup".

(** Lines 206-210: the destination; [if args.d] fails for [None] and for
    the empty string. *)
Definition resolved_dest_dir (args : Args) (w : World) : str :=
  let dest_dir := default_dest_dir w in
  match d args with
  | Some x => if bool_decide (x ≠ []) then x else dest_dir
  | None => dest_dir
  end.

(** [cli], after [parser.parse_args()] has returned [args]. *)
Definition cli (args : Args) : M unit :=
  w ← get_world;
  let dest_dir := resolved_dest_dir args w in
  readable ← access_R_OK dest_dir;
  if (readable : bool) then
    print [lit "Folder"; dest_dir; lit "already exists"];;
    sys_exit 1
  else
    mkdir dest_dir;;
    chdir dest_dir;;
    print [lit "==== Backup initiated"];;
    print [lit "Backing up to:"; dest_dir];;
    print [lit "Backup closed board:"; of_bool (closed_boards args)];;
    print [lit "Backup archived lists:"; of_bool (archived_lists args)];;
    print [lit "Backup archived cards:"; of_bool (archived_cards args)];;
    print [lit "Attachment size limit (bytes):";
           from_option of_Z (lit "None") (attachment_size args)];;
    print [lit "==== "];;
    print [];;
    let my_boards_url := TRELLO_API ++ lit "members/me/boards" ++ auth w in
    me ← requests_get_json board_index my_boards_url;
    let org_boards_data := [(lit "me", me)] in
    organizations ←
      (if orgs args
       then requests_get_json organization_index
              (TRELLO_API ++ lit "members/me/organizations" ++ auth w)
       else ret []);
    org_boards_data ← fold_each organizations org_boards_data
      (λ org_boards_data org,
         let boards_url :=
           TRELLO_API ++ lit "organizations/" ++ o_id org ++ lit "/boards"
           ++ auth w in
         boards ← requests_get_json board_index boards_url;
         ret (dict_set (o_name org) boards org_boards_data));
    for_each org_boards_data
      (λ '(org, boards),
         mkdir org;;
         chdir org;;
         let boards := filter_boards boards (closed_boards args) in
         for_each boards (λ board, backup_board board args);;
         chdir (lit ".."));;
    print [lit "Trello Full Backup Completed!"].

(** Cards that differ, if at all, only where their list id is [k0]. *)
Definition same_but (k0 : str) (c c' : Card) : Prop :=
  c_idList c = c_idList c' ∧ (c_idList c ≠ k0 → c = c').

(** ** Example data *)

Module Examples.

(** A process in [/home], with nothing else on disk, before any request. *)
Definition home (r : Remote) : World :=
  {| cwd := [lit "home"];
     tree := {[ [lit "home"] := new_entry Dir ]};
     stdout := []; stderr := [];
     requests_made := 0;
     remote := r;
     TRELLO_API_KEY := lit "key";
     TRELLO_TOKEN := lit "token";
     now_isoformat := lit "2024-05-06_07:08:09.123456" |}.

(** A remote side with one open board, whose detail is [bd], and whose
    every download is answered by [r]. *)
Definition serving (bd : BoardDetails) (r : Reply) : Remote :=
  {| board_index := λ _ _, Some [ {| b_id := lit "b1"; b_closed := false |} ];
     organization_index := λ _ _, Some [];
     board_detail := λ _ _, Some bd;
     download := λ _ _, r |}.

Definition default_args : Args :=
  {| d := None; closed_boards := false; archived_lists := false;
     archived_cards := false; orgs := false;
     attachment_size := Some ATTACHMENT_BYTE_LIMIT |}.

Definition attachment (name : string) (size : option Z) : Attachment :=
  {| a_name := lit name;
     a_url := lit "https://files.example/" ++ lit name;
     a_bytes := size |}.

Definition card (name id_list : string) (pos : Q) (atts : list Attachment)
  : Card :=
  {| c_name := lit name; c_idList := lit id_list; c_pos := pos;
     c_desc := lit ""; c_attachments := atts |}.

(** The board of the specification's example. *)
Definition sprint : BoardDetails :=
  {| bd_name := lit "Sprint";
     bd_lists := [ {| l_id := lit "L1"; l_name := lit "Todo" |} ];
     bd_cards := [ {| c_name := lit "Fix bug"; c_idList := lit "L1"; c_pos := 2;
                      c_desc := lit "..."; c_attachments := [] |};
                   card "Add test" "L1" 1 [] ] |}.

(** Two lists and three cards, each card in one of the lists; the two cards
    of the first list are not next to each other. *)
Definition interleaved : BoardDetails :=
  {| bd_name := lit "Board";
     bd_lists := [ {| l_id := lit "L1"; l_name := lit "Todo" |};
                   {| l_id := lit "L2"; l_name := lit "Doing" |} ];
     bd_cards := [ card "a" "L1" 1 []; card "b" "L2" 2 []; card "c" "L1" 3 [] ] |}.

(** The directories [depth] levels below [root] in a file tree. *)
Definition dirs_below (t : gmap path Entry) (root : path) (depth : nat)
  : list path :=
  filter (λ p, root `prefix_of` p ∧ length p = length root + depth
               ∧ is_dir t p = true)
         (map_to_list t).*1.

End Examples.

(** ** Vocabulary of the properties *)

(** A decimal digit. *)
Definition is_digit (c : char) : Prop := (48 ≤ c ≤ 57)%N.

(** A name that is one component of a path: no slash in it, and none of the
    three names the file system gives a meaning of their own. *)
Definition component (s : str) : Prop :=
  (SLASH ∉ s) ∧ s ≠ [] ∧ s ≠ lit "." ∧ s ≠ lit "..".

(** The name [backup_card], [backup_list] and [download_attachment] make from
    an ordinal and a display name. *)
Definition prefixed_name (ordinal : nat) (name : str) : str :=
  sanitize_file_name (of_nat ordinal ++ lit "_" ++ name).

(** [w'] comes from [w] by changes below [root] only: every entry that is
    not at or below [root] is as before, and what was a directory is one. *)
Record extends (root : path) (w w' : World) : Prop := {
  extends_frame : ∀ p, ¬ root `prefix_of` p → tree w' !! p = tree w !! p;
  extends_dirs : ∀ p, is_dir (tree w) p = true → is_dir (tree w') p = true;
}.

(** The result and the final state of running [m] from [w] satisfy [Q]. *)
Definition post {A} (m : M A) (w : World) (Q : Outcome A → World → Prop)
  : Prop :=
  Q (m w).1 (m w).2.

(** The file at [p] holds [c]. *)
Definition holds (w : World) (p : path) (c : Content) : Prop :=
  ∃ e, tree w !! p = Some e ∧ node e = File c.

(** A file tree as a file system keeps it: what has an entry lies in a
    directory. *)
Definition closed (t : gmap path Entry) : Prop :=
  ∀ p s, is_Some (t !! (p ++ [s])) → is_dir t p = true.

(** When a card can be exported for sure: the working directory is a
    directory with no entry of the card's name, the name has no NUL, the
    description can be encoded and no attachment is selected. *)
Definition card_exportable (i : nat) (c : Card) (attachment_size : option Z)
    (w : World) : Prop :=
  closed (tree w)
  ∧ is_dir (tree w) (cwd w) = true
  ∧ tree w !! (cwd w ++ [prefixed_name i (c_name c)]) = None
  ∧ (NUL ∉ prefixed_name i (c_name c))
  ∧ utf8_encodable (c_desc c) = true
  ∧ ∃ m, attachment_size = Some m
         ∧ filter (below_limit m) (c_attachments c) = [].

(** The card [c] has been exported into the directory [dir]. *)
Definition exported (w : World) (dir : path) (c : Card) : Prop :=
  is_dir (tree w) dir = true
  ∧ holds w (dir ++ [lit "card.json"]) (Json (OCard c))
  ∧ holds w (dir ++ [lit "description.md"]) (Text (c_desc c)).

(** Equality of positions as numbers can be decided. *)
#[global] Instance Qeq_decision (x y : Q) : Decision (x == y)%Q := Qeq_dec x y.

(** The line the loop over the attachments writes to the error stream for
    the attachment [ix.2], fetched as number [ix.1] of a run that starts in
    [w]: one line when the request raises, none otherwise. *)
Definition diagnostic (w : World) (ix : nat * Attachment) : option (list N) :=
  match download (remote w) (requests_made w + ix.1) (a_url ix.2) with
  | CallFails =>
      Some (lit "Could not download " ++ prefixed_name ix.1 (a_name ix.2))
  | Response _ _ _ => None
  end.

(** When the attachments [sel] can be fetched for sure, one request each
    from [w] on: the working directory is a directory of a well-formed tree
    with no entry called [attachments], no name has a NUL, and no body
    breaks off. *)
Definition downloadable (sel : list Attachment) (w : World) : Prop :=
  closed (tree w)
  ∧ is_dir (tree w) (cwd w) = true
  ∧ tree w !! (cwd w ++ [lit "attachments"]) = None
  ∧ ∀ i x, sel !! i = Some x →
      (NUL ∉ a_name x)
      ∧ ∀ status body,
          download (remote w) (requests_made w + i) (a_url x)
          ≠ Response status body false.

(** What fetching the attachments [sel] one after the other turns [w] into:
    one request for each in order, a diagnostic for each request that
    raised, the body of every reply in [attachments] under the attachment's
    ordinal and name (unless a later attachment got the same file name), and
    no other change on disk. *)
Record fetched (sel : list Attachment) (w w' : World) : Prop := {
  fetched_cwd : cwd w' = cwd w;
  fetched_requests : requests_made w' = requests_made w + length sel;
  fetched_stderr : stderr w' = stderr w ++ omap (diagnostic w) (enumerate sel);
  fetched_dir :
    sel ≠ [] → is_dir (tree w') (cwd w ++ [lit "attachments"]) = true;
  fetched_files : ∀ i x status body,
    sel !! i = Some x →
    download (remote w) (requests_made w + i) (a_url x)
    = Response status body true →
    (∀ j y, sel !! j = Some y → i < j →
            prefixed_name j (a_name y) ≠ prefixed_name i (a_name x)) →
    holds w' (cwd w ++ [lit "attachments"; prefixed_name i (a_name x)])
          (Binary (mjoin body));
  fetched_frame : ∀ p,
    p ≠ cwd w ++ [lit "attachments"] →
    (∀ i x, sel !! i = Some x →
            p ≠ cwd w ++ [lit "attachments"; prefixed_name i (a_name x)]) →
    tree w' !! p = tree w !! p;
}.

(** What [card_exportable] asks of the tree, for the place of the card's
    directory alone: the working directory is a directory, and nothing lies
    where the card's directory and its files will be. *)
Definition card_fits (i : nat) (c : Card) (attachment_size : option Z)
    (w : World) : Prop :=
  let dir := cwd w ++ [prefixed_name i (c_name c)] in
  is_dir (tree w) (cwd w) = true
  ∧ tree w !! dir = None
  ∧ (∀ s, tree w !! (dir ++ [s]) = None)
  ∧ (NUL ∉ prefixed_name i (c_name c))
  ∧ utf8_encodable (c_desc c) = true
  ∧ ∃ m, attachment_size = Some m
         ∧ filter (below_limit m) (c_attachments c) = [].

(** When lines 127-144 end normally for sure: a well-formed tree, list and
    card names that give distinct, unused directory names without NUL,
    descriptions that can be encoded, and no attachment to fetch. *)
Definition lists_exportable (board_details : BoardDetails) (args : Args)
    (w : World) : Prop :=
  let list_names := imap prefixed_name (l_name <$> bd_lists board_details) in
  let cards_in ls := cards_of (cards_by_list (bd_cards board_details)) ls in
  closed (tree w)
  ∧ is_dir (tree w) (cwd w) = true
  ∧ NoDup list_names
  ∧ Forall (λ s, tree w !! (cwd w ++ [s]) = None) list_names
  ∧ Forall (λ ls, (NUL ∉ l_name ls)
                  ∧ NoDup (imap prefixed_name (c_name <$> cards_in ls)))
           (bd_lists board_details)
  ∧ ∃ m, attachment_size args = Some m
         ∧ Forall (λ c, (NUL ∉ c_name c)
                        ∧ utf8_encodable (c_desc c) = true
                        ∧ filter (below_limit m) (c_attachments c) = [])
                  (bd_cards board_details).
(** * Properties *)

(** ** Name sanitizer *)

Section sanitizer.

Lemma re_sub_class_one cls r s :
  re_sub_class cls [r] s = (λ c, if bool_decide (c ∈ cls) then r else c) <$> s.
Proof.
  unfold re_sub_class. induction s as [|c s IH]; [done|].
  cbn. rewrite <- IH. by case_bool_decide.
Qed.

Lemma replaced_eq s :
  re_sub_class PROBLEMATIC (lit "_") s = replaced_char <$> s.
Proof. apply re_sub_class_one. Qed.

Lemma replaced_length s :
  length (re_sub_class PROBLEMATIC (lit "_") s) = length s.
Proof. by rewrite replaced_eq, length_fmap. Qed.

Lemma underscore_not_problematic : chr "_" ∉ PROBLEMATIC.
Proof. apply (bool_decide_unpack _). by vm_compute. Qed.

Lemma replaced_char_clean c : replaced_char c ∉ PROBLEMATIC.
Proof.
  unfold replaced_char. case_bool_decide; [apply underscore_not_problematic|done].
Qed.

Lemma replaced_char_idemp c : replaced_char (replaced_char c) = replaced_char c.
Proof.
  unfold replaced_char at 1. rewrite bool_decide_eq_false_2; [done|].
  apply replaced_char_clean.
Qed.

Lemma sanitize_unfold s :
  sanitize_file_name s
  = drop (length s - FILE_NAME_MAX_LENGTH) (replaced_char <$> s).
Proof.
  unfold sanitize_file_name, last_n. by rewrite replaced_length, replaced_eq.
Qed.

Lemma sanitize_length s :
  length (sanitize_file_name s) = length s `min` FILE_NAME_MAX_LENGTH.
Proof. rewrite sanitize_unfold, length_drop, length_fmap. lia. Qed.

Lemma sanitize_lookup s i :
  sanitize_file_name s !! i
  = replaced_char <$> s !! (length s - FILE_NAME_MAX_LENGTH + i).
Proof. rewrite sanitize_unfold. rewrite lookup_drop. by rewrite list_lookup_fmap. Qed.

End sanitizer.

(** C2, as stated, fails: the backslash is among the listed characters and
    the sanitizer keeps it. *)
Lemma sanitize_file_name_keeps_backslash :
  ¬ (∀ c, c ∈ LISTED → c ∉ sanitize_file_name (lit "a\b")).
Proof.
  intros H. apply (H (chr "\")); apply (bool_decide_unpack _); by vm_compute.
Qed.

(** C2 (amended): for every name, the output of [sanitize_file_name] holds
    none of the seven characters [< > : / | ? *]; the output is the last 255
    characters of the name with each occurrence of one of the seven replaced
    by an underscore and every other character, the backslash included, kept
    as it is. *)
Theorem sanitize_file_name_replaces_problematic (name : str) (c : char) :
  c ∈ PROBLEMATIC →
  (c ∉ sanitize_file_name name)
  ∧ (∀ i x, name !! (length name - FILE_NAME_MAX_LENGTH + i) = Some x →
       sanitize_file_name name !! i
       = Some (if bool_decide (x ∈ PROBLEMATIC) then chr "_" else x))
  ∧ (∀ i, name !! (length name - FILE_NAME_MAX_LENGTH + i) = Some (chr "\") →
       sanitize_file_name name !! i = Some (chr "\")).
Proof.
  intros Hc. split_and!.
  - rewrite sanitize_unfold. intros Hin.
    apply list_elem_of_lookup in Hin as [i Hi].
    rewrite lookup_drop, list_lookup_fmap in Hi.
    destruct (name !! _) as [x|]; [|done]. injection Hi as <-.
    by apply (replaced_char_clean x).
  - intros i x Hx. by rewrite sanitize_lookup, Hx.
  - intros i Hx. by rewrite sanitize_lookup, Hx.
Qed.

Lemma sanitize_file_name_replaces_problematic_witness :
  chr "?" ∈ PROBLEMATIC
  ∧ (chr "?" ∉ sanitize_file_name (lit "what?.txt"))
  ∧ sanitize_file_name (lit "what?.txt") !! 4 = Some (chr "_").
Proof.
  assert (Hc : chr "?" ∈ PROBLEMATIC)
    by (apply (bool_decide_unpack _); vm_compute; exact I).
  destruct (sanitize_file_name_replaces_problematic (lit "what?.txt") (chr "?") Hc)
    as (Hnot & Hat & _).
  split; [exact Hc|]. split; [exact Hnot|].
  apply (Hat 4 (chr "?")). reflexivity.
Defined.

(** C7: when the name is longer than 255 characters after the replacement,
    the output of [sanitize_file_name] has exactly 255 characters and is the
    end of the replaced name; a name of at most 255 characters gives the
    replaced name whole. *)
Theorem sanitize_file_name_truncates_left (name : str) :
  let replaced := re_sub_class PROBLEMATIC (lit "_") name in
  (255 < length replaced →
     length (sanitize_file_name name) = 255
     ∧ ∃ dropped, replaced = dropped ++ sanitize_file_name name)
  ∧ (length name ≤ 255 → sanitize_file_name name = replaced).
Proof.
  intros replaced. unfold sanitize_file_name, last_n. fold replaced.
  assert (Hlen : length replaced = length name) by apply replaced_length.
  unfold FILE_NAME_MAX_LENGTH. split.
  - intros Hlong. split.
    + rewrite length_drop. lia.
    + exists (take (length replaced - 255) replaced).
      by rewrite take_drop.
  - intros Hshort. by replace (length replaced - 255) with 0 by lia.
Qed.

Lemma sanitize_file_name_truncates_left_witness :
  length (sanitize_file_name (replicate 300 (chr "*"))) = 255
  ∧ sanitize_file_name (lit "a:b") = lit "a_b".
Proof.
  split.
  - apply (sanitize_file_name_truncates_left (replicate 300 (chr "*"))).
    vm_compute. lia.
  - apply (sanitize_file_name_truncates_left (lit "a:b")).
    vm_compute. lia.
Defined.

(** C10: [sanitize_file_name] is idempotent. *)
Theorem sanitize_file_name_idempotent (s : str) :
  sanitize_file_name (sanitize_file_name s) = sanitize_file_name s.
Proof.
  rewrite (sanitize_unfold (sanitize_file_name s)), sanitize_length.
  replace (_ `min` _ - _) with 0 by lia. rewrite drop_0.
  rewrite sanitize_unfold, fmap_drop, <- list_fmap_compose.
  f_equal. apply list_fmap_ext. intros _ c _. apply replaced_char_idemp.
Qed.

(** ** Selection of the attachments *)

Section attachments.

Implicit Types (c : Card) (a : Attachment) (w : World).

Lemma below_limit_spec max_size a n :
  a_bytes a = Some n →
  below_limit max_size a = true ↔ (n < max_size ∨ max_size = -1)%Z.
Proof.
  intros Hn. unfold below_limit. rewrite Hn, orb_true_iff.
  by rewrite Z.ltb_lt, Z.eqb_eq.
Qed.

Lemma select_attachments_some c m w :
  select_attachments c (Some m) w
  = (Done (filter (below_limit m) (c_attachments c)), w).
Proof. reflexivity. Qed.

End attachments.

(** C3, as stated, fails: with the limit 10, an attachment of exactly 10
    bytes is at or below the limit and is not selected. *)
Lemma attachment_of_limit_size_not_selected :
  let a := Examples.attachment "ten.bin" (Some 10%Z) in
  let c := Examples.card "card" "L1" 1 [a] in
  let w := Examples.home (Examples.serving Examples.sprint CallFails) in
  (0 ≤ 10)%Z ∧ a ∈ c_attachments c ∧ a_bytes a = Some 10%Z ∧ (10 ≤ 10)%Z
  ∧ ¬ (∃ sel, select_attachments c (Some 10%Z) w = (Done sel, w) ∧ a ∈ sel)
  ∧ download_attachments c (Some 10%Z) w = (Done tt, w).
Proof.
  cbv zeta. split; [done|]. split; [apply list_elem_of_here|].
  split; [done|]. split; [done|]. split; [|by vm_compute].
  intros (sel & Hsel & Hin). rewrite select_attachments_some in Hsel.
  injection Hsel as <-. vm_compute in Hin. by apply elem_of_nil in Hin.
Qed.

(** An example for the selection: with the limit 10, of four attachments
    only the one of 9 bytes is fetched; it is saved in [attachments] with the
    ordinal 0, its ordinal among the selected ones. *)
Example attachments_layout :
  let c := Examples.card "card" "L1" 1
             [ Examples.attachment "big.bin" (Some 20%Z);
               Examples.attachment "unknown.bin" None;
               Examples.attachment "exact.bin" (Some 10%Z);
               Examples.attachment "small.bin" (Some 9%Z) ] in
  let w := Examples.home (Examples.serving Examples.sprint
                            (Response 200 [[Byte.x68]; []; [Byte.x69]] true)) in
  let r := backup_card 0 c (Some 10%Z) w in
  let attachments := [lit "home"; lit "0_card"; lit "attachments"] in
  r.1 = Done tt
  ∧ requests_made r.2 = 1
  ∧ filter (λ p, attachments `prefix_of` p) (map_to_list (tree r.2)).*1
    ≡ₚ [attachments; attachments ++ [lit "0_small.bin"]]
  ∧ tree r.2 !! (attachments ++ [lit "0_small.bin"])
    = Some (new_entry (File (Binary [Byte.x68; Byte.x69]))).
Proof.
  cbv zeta. split; [by vm_compute|]. split; [by vm_compute|].
  split; [|by vm_compute].
  apply (bool_decide_unpack _). by vm_compute.
Qed.

(** ** Grouping and sorting *)

Section grouping.

Context {A K : Type} `{EqDecision K} (key : A → K).

Lemma groupby_cons x xs :
  groupby key (x :: xs)
  = match groupby key xs with
    | (k, g) :: gs =>
        if decide (key x = k) then (k, x :: g) :: gs
        else (key x, [x]) :: (k, g) :: gs
    | [] => [(key x, [x])]
    end.
Proof. reflexivity. Qed.

(** Every group holds elements of its own key only. *)
Lemma groupby_keys xs :
  Forall (λ kg, Forall (λ x, key x = kg.1) kg.2) (groupby key xs).
Proof.
  induction xs as [|x xs IH]; [constructor|].
  rewrite groupby_cons. destruct (groupby key xs) as [|[k g] gs].
  - repeat constructor.
  - inversion_clear IH as [|?? Hg Hgs]. case_decide.
    + constructor; [|done]. by constructor.
    + constructor; [by repeat constructor|]. by constructor.
Qed.

(** The groups, one after the other, are the input. *)
Lemma groupby_concat xs : mjoin (groupby key xs).*2 = xs.
Proof.
  induction xs as [|x xs IH]; [done|].
  rewrite groupby_cons. destruct (groupby key xs) as [|[k g] gs].
  - cbn in *. by rewrite <- IH.
  - case_decide; cbn in *; by rewrite <- IH.
Qed.

(** Two inputs with the same keys, place by place, are grouped alike. *)
Lemma groupby_Forall2 (R : A → A → Prop) xs ys :
  (∀ x y, R x y → key x = key y) →
  Forall2 R xs ys →
  Forall2 (λ p q, p.1 = q.1 ∧ Forall2 R p.2 q.2)
          (groupby key xs) (groupby key ys).
Proof.
  intros HR. induction 1 as [|x y xs ys Hxy _ IH]; [constructor|].
  rewrite !groupby_cons, <- (HR _ _ Hxy).
  destruct IH as [|[k g] [k' g'] gs gs' [Hk Hg] Hgs]; cbn in *.
  - repeat constructor; done.
  - subst k'. case_decide.
    + constructor; [|done]. split; [done|]. by constructor.
    + constructor; [by repeat constructor|]. by constructor.
Qed.

End grouping.

Section sorting.

Context {A : Type} (key : A → Q).

Lemma sorted_insert_perm x ys : sorted_insert key x ys ≡ₚ x :: ys.
Proof.
  induction ys as [|y ys IH]; [done|]. cbn.
  destruct (Qlt_le_dec _ _); [|done].
  by rewrite IH, Permutation_swap.
Qed.

Lemma sorted_perm xs : sorted key xs ≡ₚ xs.
Proof.
  induction xs as [|x xs IH]; [done|]. cbn.
  by rewrite sorted_insert_perm, IH.
Qed.

Lemma sorted_insert_sorted x ys :
  StronglySorted (key_le key) ys → StronglySorted (key_le key) (sorted_insert key x ys).
Proof.
  induction 1 as [|y ys Hys IH Hy]; cbn.
  - repeat constructor.
  - destruct (Qlt_le_dec (key y) (key x)) as [Hlt|Hle].
    + constructor; [done|].
      rewrite sorted_insert_perm. constructor; [|done].
      by apply Qlt_le_weak.
    + constructor; [by constructor|]. constructor; [done|].
      eapply Forall_impl; [exact Hy|]. intros z Hz. unfold key_le in *.
      by eapply Qle_trans.
Qed.

Lemma sorted_sorted xs : StronglySorted (key_le key) (sorted key xs).
Proof.
  induction xs as [|x xs IH]; [constructor|].
  by apply sorted_insert_sorted.
Qed.

Lemma StronglySorted_lookup (l : list A) i j a b :
  StronglySorted (key_le key) l → l !! i = Some a → l !! j = Some b → i < j →
  key_le key a b.
Proof.
  intros Hl. revert i j. induction Hl as [|x l _ IH Hx]; intros i j; [done|].
  destruct i as [|i], j as [|j]; cbn; intros Ha Hb Hij; try lia.
  - injection Ha as ->. rewrite Forall_forall in Hx.
    apply Hx. by eapply list_elem_of_lookup_2.
  - apply (IH i j); [done..|lia].
Qed.

End sorting.

(** ** The dictionary of cards and the loop over the lists *)

Section board.

Implicit Types (c : Card) (ls : TrelloList) (lists : gmap (list N) (list Card)).

Lemma cards_by_list_foldl cards :
  cards_by_list cards = foldl assign_group ∅ (groupby c_idList cards).
Proof. reflexivity. Qed.

(** A value of the dictionary is a sorted group of its key. *)
Lemma foldl_assign_lookup gs lists k v :
  foldl assign_group lists gs !! k = Some v →
  lists !! k = Some v ∨ ∃ g, (k, g) ∈ gs ∧ v = sorted c_pos g.
Proof.
  revert lists. induction gs as [|[k1 g1] gs IH]; intros lists; cbn; [by left|].
  intros Hv. destruct (IH _ Hv) as [Hin|(g & Hg & ->)].
  - destruct (decide (k1 = k)) as [->|Hne].
    + rewrite lookup_insert_eq in Hin. injection Hin as <-.
      right. exists g1. split; [left|done].
    + rewrite lookup_insert_ne in Hin by done. by left.
  - right. exists g. split; [by right|done].
Qed.

Lemma cards_by_list_lookup cards k v :
  cards_by_list cards !! k = Some v →
  ∃ g, (k, g) ∈ groupby c_idList cards ∧ v = sorted c_pos g.
Proof.
  rewrite cards_by_list_foldl. intros Hv.
  destruct (foldl_assign_lookup _ _ _ _ Hv) as [Hempty|?]; [|done].
  by rewrite lookup_empty in Hempty.
Qed.

(** The cards of a list directory are a sorted group of the list's id, or
    none. *)
Lemma cards_of_cases cards ls :
  cards_of (cards_by_list cards) ls = []
  ∨ ∃ g, (l_id ls, g) ∈ groupby c_idList cards
         ∧ cards_of (cards_by_list cards) ls = sorted c_pos g.
Proof.
  unfold cards_of.
  destruct (cards_by_list cards !! l_id ls) as [v|] eqn:Hv; [|by left].
  right. destruct (cards_by_list_lookup _ _ _ Hv) as (g & ? & ->). by exists g.
Qed.

Lemma cards_of_sorted cards ls :
  StronglySorted (key_le c_pos) (cards_of (cards_by_list cards) ls).
Proof.
  destruct (cards_of_cases cards ls) as [->|(g & _ & ->)]; [constructor|].
  apply sorted_sorted.
Qed.

(** A card exported under a list is a card of the board with that list's
    id. *)
Lemma cards_of_elem cards ls c :
  c ∈ cards_of (cards_by_list cards) ls → c ∈ cards ∧ c_idList c = l_id ls.
Proof.
  destruct (cards_of_cases cards ls) as [->|(g & Hg & ->)].
  - by intros ?%elem_of_nil.
  - rewrite sorted_perm. intros Hc. split.
    + rewrite <- (groupby_concat c_idList cards).
      apply list_elem_of_join. exists g. split; [done|].
      apply list_elem_of_fmap. by exists (l_id ls, g).
    + pose proof (groupby_keys c_idList cards) as Hkeys.
      rewrite Forall_forall in Hkeys. specialize (Hkeys _ Hg).
      rewrite Forall_forall in Hkeys. by apply Hkeys.
Qed.

Lemma enumerate_lookup {A} (xs : list A) k :
  enumerate xs !! k = pair k <$> xs !! k.
Proof. unfold enumerate. by rewrite list_lookup_imap. Qed.

(** For cards that differ only where their list id is [k0], the dictionary
    has the same entries for every other key. *)
Lemma same_but_group (k0 k : list N) (g g' : list Card) :
  k ≠ k0 → Forall (λ c, c_idList c = k) g → Forall2 (same_but k0) g g' → g = g'.
Proof.
  intros Hk Hg H. induction H as [|c c' g g' [_ Hc] _ IH]; [done|].
  inversion_clear Hg as [|?? Hck Hg']. f_equal; [|by apply IH].
  apply Hc. by rewrite Hck.
Qed.

Lemma foldl_assign_same_but k0 gs gs' lists lists' k :
  k ≠ k0 →
  Forall (λ kg, Forall (λ c, c_idList c = kg.1) kg.2) gs →
  Forall2 (λ p q, p.1 = q.1 ∧ Forall2 (same_but k0) p.2 q.2) gs gs' →
  lists !! k = lists' !! k →
  foldl assign_group lists gs !! k = foldl assign_group lists' gs' !! k.
Proof.
  intros Hk Hkeys H. revert lists lists'.
  induction H as [|[k1 g1] [k1' g1'] gs gs' [Hk1 Hg1] _ IH];
    intros lists lists' Hlists; cbn in *; [done|].
  subst k1'. inversion_clear Hkeys as [|?? Hkeys1 Hkeys']. cbn in *.
  apply IH; [done|].
  destruct (decide (k1 = k)) as [->|Hne].
  - rewrite !lookup_insert_eq. do 2 f_equal. by eapply same_but_group.
  - by rewrite !lookup_insert_ne.
Qed.

Lemma cards_by_list_same_but k0 cards cards' k :
  k ≠ k0 → Forall2 (same_but k0) cards cards' →
  cards_by_list cards !! k = cards_by_list cards' !! k.
Proof.
  intros Hk H. rewrite !cards_by_list_foldl.
  apply (foldl_assign_same_but k0); [done|apply groupby_keys| |done].
  apply groupby_Forall2; [|done]. by intros ?? [? _].
Qed.

Lemma same_but_refl k0 cards : Forall2 (same_but k0) cards cards.
Proof. apply Forall_Forall2_diag, Forall_forall. by intros c _. Qed.

Lemma for_each_ext {A} (xs : list A) (f g : A → M unit) w :
  (∀ x w', x ∈ xs → f x w' = g x w') → for_each xs f w = for_each xs g w.
Proof.
  revert w. induction xs as [|x xs IH]; intros w Hfg; [done|].
  cbn. unfold bind. rewrite (Hfg x w) by left.
  destruct (g x w) as [[[]| |] w']; [|done..].
  apply IH. intros y w'' Hy. apply Hfg. by right.
Qed.

End board.

(** ** When every list id forms one run

    The input the grouping is right for: the cards of a list are next to
    each other, so that no key comes up twice among the groups. *)

Section one_run_per_list.

Implicit Types (c : Card) (ls : TrelloList) (lists : gmap (list N) (list Card)).

Lemma filter_all {A} (P : A → Prop) `{∀ x, Decision (P x)} (l : list A) :
  Forall P l → filter P l = l.
Proof.
  induction 1 as [|x l Hx _ IH]; [done|].
  by rewrite filter_cons_True, IH.
Qed.

Lemma filter_none {A} (P : A → Prop) `{∀ x, Decision (P x)} (l : list A) :
  Forall (λ x, ¬ P x) l → filter P l = [].
Proof.
  induction 1 as [|x l Hx _ IH]; [done|].
  by rewrite filter_cons_False.
Qed.

Lemma foldl_assign_fresh gs lists k :
  k ∉ gs.*1 → foldl assign_group lists gs !! k = lists !! k.
Proof.
  revert lists. induction gs as [|[k1 g1] gs IH]; intros lists Hk; [done|].
  cbn in *. apply not_elem_of_cons in Hk as [Hne Hk].
  rewrite IH by done. by rewrite lookup_insert_ne.
Qed.

Lemma foldl_assign_unique gs lists k g :
  NoDup gs.*1 → (k, g) ∈ gs →
  foldl assign_group lists gs !! k = Some (sorted c_pos g).
Proof.
  revert lists. induction gs as [|[k1 g1] gs IH]; intros lists Hnd Hin.
  { by apply elem_of_nil in Hin. }
  cbn in *. apply NoDup_cons in Hnd as [Hk1 Hnd].
  apply elem_of_cons in Hin as [[= <- <-]|Hin].
  - rewrite foldl_assign_fresh by done. apply lookup_insert_eq.
  - by apply IH.
Qed.

(** The cards of one key among groups with distinct keys. *)
Lemma filter_groups (gs : list (list N * list Card)) k :
  Forall (λ kg, Forall (λ c, c_idList c = kg.1) kg.2) gs →
  NoDup gs.*1 →
  filter (λ c, c_idList c = k) (mjoin gs.*2)
  = default [] (list_to_map (M := gmap (list N) (list Card)) gs !! k).
Proof.
  induction 1 as [|[k1 g1] gs Hg1 _ IH]; intros Hnd; [done|].
  rewrite !fmap_cons in *. cbn [fst snd] in *.
  apply NoDup_cons in Hnd as [Hk1 Hnd].
  change (mjoin (g1 :: gs.*2)) with (g1 ++ mjoin gs.*2).
  rewrite filter_app, IH by done.
  change (list_to_map ((k1, g1) :: gs))
    with (<[k1 := g1]> (list_to_map gs : gmap (list N) (list Card))).
  destruct (decide (k1 = k)) as [->|Hne].
  - rewrite lookup_insert_eq. cbn.
    rewrite (not_elem_of_list_to_map_1 _ k) by done. cbn.
    rewrite app_nil_r. by apply filter_all.
  - rewrite lookup_insert_ne by done.
    rewrite (filter_none _ g1); [done|].
    eapply Forall_impl; [exact Hg1|]. cbn. by intros c ->.
Qed.

(** With one run for each list id, a list's directory gets all the cards of
    the list. *)
Lemma cards_of_one_run cards ls :
  NoDup (groupby c_idList cards).*1 →
  cards_of (cards_by_list cards) ls
  ≡ₚ filter (λ c, c_idList c = l_id ls) cards.
Proof.
  intros Hnd. rewrite <- (groupby_concat c_idList cards) at 2.
  rewrite filter_groups by (done || apply groupby_keys).
  unfold cards_of. rewrite cards_by_list_foldl.
  destruct (list_to_map _ !! l_id ls) as [g|] eqn:Hg; cbn.
  - apply elem_of_list_to_map in Hg; [|done].
    rewrite (foldl_assign_unique _ _ _ g) by done. apply sorted_perm.
  - apply not_elem_of_list_to_map in Hg.
    by rewrite foldl_assign_fresh, lookup_empty.
Qed.

Lemma filter_by_id_length (ids : list (list N)) (k : list N) :
  NoDup ids → k ∈ ids → length (filter (λ i, k = i) ids) = 1.
Proof.
  induction 1 as [|i ids Hi _ IH]; intros Hk; [by apply elem_of_nil in Hk|].
  rewrite filter_cons. apply elem_of_cons in Hk as [->|Hk].
  - rewrite decide_True by done. cbn. f_equal.
    apply length_zero_iff_nil, filter_none, Forall_forall.
    by intros ? ? <-.
  - rewrite decide_False; [by apply IH|]. by intros <-.
Qed.

(** Then the directories of the lists hold, between them, as many cards as
    the board has. *)
Lemma one_run_per_list_exports_every_card
    (lists : list TrelloList) (cards : list Card) :
  NoDup (l_id <$> lists) →
  Forall (λ c, c_idList c ∈ l_id <$> lists) cards →
  NoDup (groupby c_idList cards).*1 →
  sum_list (length ∘ cards_of (cards_by_list cards) <$> lists) = length cards.
Proof.
  intros Hids Hmatched Hruns.
  transitivity
    (sum_list ((λ ls, length (filter (λ c, c_idList c = l_id ls) cards)) <$> lists)).
  { f_equal. apply list_fmap_ext. intros _ ls _. cbn.
    by rewrite cards_of_one_run. }
  clear Hruns. induction Hmatched as [|c cards Hc _ IH]; cbn.
  { rewrite sum_list_fmap_const. lia. }
  rewrite <- IH. clear IH.
  assert (Hone : sum_list ((λ ls, if decide (c_idList c = l_id ls) then 1 else 0)
                             <$> lists) = 1).
  { transitivity (length (filter (λ i, c_idList c = i) (l_id <$> lists)));
      [|by apply filter_by_id_length].
    clear. induction lists as [|ls lists IH]; [done|].
    rewrite !fmap_cons, filter_cons. cbn [sum_list sum_list_with].
    case_decide; cbn [length]; by rewrite IH. }
  rewrite <- Nat.add_1_l, <- Hone. clear.
  induction lists as [|ls lists IH]; [done|].
  rewrite !fmap_cons. cbn [sum_list sum_list_with]. rewrite IH.
  clear IH. unfold id.
  repeat match goal with
         | |- context [sum_list_with ?f ?l] =>
             generalize (sum_list_with f l); intro
         end.
  case_decide; cbn [length]; unfold filter; lia.
Qed.

End one_run_per_list.

(** ** Claims on the export of a board *)

(** The example of the specification: the card at position 1 is exported as
    [0_Add test], the card at position 2 as [1_Fix bug]. *)
Example sprint_layout :
  let r := backup_board {| b_id := lit "b1"; b_closed := false |}
             Examples.default_args
             (Examples.home (Examples.serving Examples.sprint CallFails)) in
  r.1 = Done tt
  ∧ Examples.dirs_below (tree r.2) [lit "home"; lit "Sprint"] 1
    ≡ₚ [[lit "home"; lit "Sprint"; lit "0_Todo"]]
  ∧ Examples.dirs_below (tree r.2) [lit "home"; lit "Sprint"] 2
    ≡ₚ [[lit "home"; lit "Sprint"; lit "0_Todo"; lit "0_Add test"];
        [lit "home"; lit "Sprint"; lit "0_Todo"; lit "1_Fix bug"]].
Proof.
  vm_compute. split; [done|]. split; reflexivity.
Qed.

(** C9: a card whose [idList] is the id of none of the board's lists is
    handed to [backup_card] under no list, and lines 127-144 run the same
    whatever that card holds: no directory, file or download is made for it
    and no failure comes from it. *)
Theorem unmatched_card_is_never_exported
    (name : str) (lists : list TrelloList) (before after : list Card) (c : Card) :
  c_idList c ∉ l_id <$> lists →
  let board_with (x : Card) :=
    {| bd_name := name; bd_lists := lists; bd_cards := before ++ x :: after |} in
  (∀ ls, ls ∈ lists →
     c ∉ cards_of (cards_by_list (bd_cards (board_with c))) ls)
  ∧ (∀ (c' : Card) (args : Args) (w : World),
       c_idList c' = c_idList c →
       backup_lists (board_with c) args w = backup_lists (board_with c') args w).
Proof.
  intros Hunmatched board_with.
  assert (Hne : ∀ ls, ls ∈ lists → l_id ls ≠ c_idList c).
  { intros ls Hls Heq. apply Hunmatched. rewrite <- Heq.
    apply list_elem_of_fmap. by exists ls. }
  split.
  - intros ls Hls Hc. apply cards_of_elem in Hc as [_ Hc].
    by apply (Hne ls).
  - intros c' args w Hc'. unfold backup_lists. subst board_with.
    cbn [bd_lists bd_cards]. apply for_each_ext.
    intros [id_list ls] w' Hin.
    assert (Hls : ls ∈ lists).
    { apply list_elem_of_lookup in Hin as [k Hk].
      rewrite enumerate_lookup in Hk.
      destruct (lists !! k) as [x|] eqn:Hx; [|done]. injection Hk as _ <-.
      by eapply list_elem_of_lookup_2. }
    unfold backup_list, cards_of.
    rewrite (cards_by_list_same_but (c_idList c) _ (before ++ c' :: after));
      [done|by apply Hne|].
    apply Forall2_app; [apply same_but_refl|].
    constructor; [|apply same_but_refl]. by split.
Qed.

Lemma unmatched_card_is_never_exported_witness :
  let todo := {| l_id := lit "L1"; l_name := lit "Todo" |} in
  let stray := Examples.card "stray" "L9" 1 [] in
  let a := Examples.card "a" "L1" 1 [] in
  let b := Examples.card "b" "L1" 2 [] in
  (c_idList stray ∉ l_id <$> [todo])
  ∧ (stray ∉ cards_of (cards_by_list [a; stray; b]) todo).
Proof.
  intros todo stray a b.
  assert (H : c_idList stray ∉ l_id <$> [todo])
    by (apply (bool_decide_unpack _); vm_compute; exact I).
  split; [exact H|].
  apply (unmatched_card_is_never_exported (lit "Board") [todo] [a] [b] stray H).
  apply list_elem_of_here.
Defined.

(** C1, on the board [Examples.interleaved]: three cards, each in one of the
    two lists, the two cards of the first list apart.  [backup_board] ends
    normally with two list directories and two card directories: the first
    card is exported nowhere. *)
Theorem interleaved_board_loses_a_card :
  let w := Examples.home (Examples.serving Examples.interleaved CallFails) in
  let r := backup_board {| b_id := lit "b1"; b_closed := false |}
             Examples.default_args w in
  let board_dir := [lit "home"; lit "Board"] in
  length (bd_lists Examples.interleaved) = 2
  ∧ length (bd_cards Examples.interleaved) = 3
  ∧ Forall (λ c, c_idList c ∈ l_id <$> bd_lists Examples.interleaved)
           (bd_cards Examples.interleaved)
  ∧ r.1 = Done tt
  ∧ Examples.dirs_below (tree r.2) board_dir 1
    ≡ₚ [board_dir ++ [lit "0_Todo"]; board_dir ++ [lit "1_Doing"]]
  ∧ Examples.dirs_below (tree r.2) board_dir 2
    ≡ₚ [board_dir ++ [lit "0_Todo"; lit "0_c"];
        board_dir ++ [lit "1_Doing"; lit "0_b"]].
Proof.
  cbv zeta. split; [done|]. split; [done|]. split.
  { apply (bool_decide_unpack _). by vm_compute. }
  split; [by vm_compute|].
  split; apply (bool_decide_unpack _); by vm_compute.
Qed.

(** ** The destination directory *)

(** C5: when the destination exists and is readable, [cli] prints that the
    folder already exists and exits with the code 1; the file tree and the
    working directory are as before and no request has been made. *)
Theorem cli_refuses_existing_destination
    (args : Args) (w : World) (q : path) (e : Entry) :
  locate w (resolved_dest_dir args w) = inr q →
  tree w !! q = Some e → r_ok e = true →
  let w' :=
    set_stdout (stdout w ++ [lit "Folder " ++ resolved_dest_dir args w
                                           ++ lit " already exists"]) w in
  cli args w = (Exited 1, w')
  ∧ tree w' = tree w ∧ cwd w' = cwd w ∧ requests_made w' = requests_made w.
Proof.
  intros Hq He Hr w'. split; [|done].
  unfold cli, bind, get_world, access_R_OK. rewrite Hq.
  destruct q; rewrite ?He; cbn; rewrite ?Hr; done.
Qed.

Lemma cli_refuses_existing_destination_witness :
  let args :=
    {| d := Some (lit "backup"); closed_boards := false;
       archived_lists := false; archived_cards := false; orgs := false;
       attachment_size := Some ATTACHMENT_BYTE_LIMIT |} in
  let w0 := Examples.home (Examples.serving Examples.sprint CallFails) in
  let w := set_tree (<[ [lit "home"; lit "backup"] := new_entry Dir ]> (tree w0)) w0 in
  (cli args w).1 = Exited 1 ∧ tree (cli args w).2 = tree w.
Proof.
  intros args w0 w.
  destruct (cli_refuses_existing_destination args w
              [lit "home"; lit "backup"] (new_entry Dir))
    as (Hcli & Htree & _).
  - vm_compute. reflexivity.
  - vm_compute. reflexivity.
  - reflexivity.
  - rewrite Hcli. split; [reflexivity|exact Htree].
Defined.

(** * Further properties *)

(** ** Names with an ordinal *)

Section names.

Implicit Types (s name : list N) (i j : nat).

#[local] Instance chr_inj : Inj (=) (=) chr.
Proof.
  intros a b H. unfold chr in H.
  by rewrite <- (ascii_N_embedding a), <- (ascii_N_embedding b), H.
Qed.

#[local] Instance lit_inj : Inj (=) (=) lit.
Proof.
  intros a b H. unfold lit in H.
  apply (inj (fmap chr)) in H.
  by rewrite <- (string_of_list_ascii_of_string a),
             <- (string_of_list_ascii_of_string b), H.
Qed.

Lemma uint_digits (u : Decimal.uint) :
  Forall is_digit (lit (NilEmpty.string_of_uint u)).
Proof.
  induction u; cbn; [constructor|..];
    (constructor; [unfold is_digit; cbn; lia|done]).
Qed.

Lemma of_nat_digits i : Forall is_digit (of_nat i).
Proof. apply uint_digits. Qed.

#[local] Instance of_nat_inj : Inj (=) (=) of_nat.
Proof.
  intros i j H. unfold of_nat in H. apply lit_inj in H.
  apply DecimalNat.Unsigned.to_uint_inj.
  assert (Some (Nat.to_uint i) = Some (Nat.to_uint j)) as [= ?]; [|done].
  by rewrite <- !NilEmpty.usu, H.
Qed.

Lemma digit_kept c : is_digit c → replaced_char c = c.
Proof.
  intros Hc. unfold replaced_char. rewrite bool_decide_eq_false_2; [done|].
  unfold is_digit in Hc. unfold PROBLEMATIC, lit. cbn.
  rewrite !elem_of_cons, elem_of_nil. lia.
Qed.

Lemma underscore_kept : replaced_char (chr "_") = chr "_".
Proof. reflexivity. Qed.

Lemma replaced_prefixed i name :
  replaced_char <$> (of_nat i ++ lit "_" ++ name)
  = of_nat i ++ lit "_" ++ (replaced_char <$> name).
Proof.
  rewrite !fmap_app. f_equal.
  induction (of_nat_digits i) as [|c s Hc _ IH]; [done|].
  cbn. by rewrite digit_kept, IH.
Qed.

(** The text before the first underscore is determined. *)
Lemma first_underscore (a b x y : list N) :
  chr "_" ∉ a → chr "_" ∉ b → a ++ chr "_" :: x = b ++ chr "_" :: y → a = b.
Proof.
  revert b. induction a as [|c a IH]; intros [|c' b] Ha Hb H; cbn in *.
  - done.
  - injection H as <- _. exfalso. apply Hb. left.
  - injection H as -> _. exfalso. apply Ha. left.
  - injection H as <- H. f_equal. apply IH; [| |done].
    + intros ?. apply Ha. by right.
    + intros ?. apply Hb. by right.
Qed.

Lemma of_nat_no_underscore i : chr "_" ∉ of_nat i.
Proof.
  intros Hin. pose proof (of_nat_digits i) as Hd.
  rewrite Forall_forall in Hd. specialize (Hd _ Hin).
  unfold is_digit in Hd. cbn in Hd. lia.
Qed.

End names.

Section prefixed_names.

Implicit Types (s name : list N) (i j : nat).

Lemma prefixed_unfold i name :
  prefixed_name i name
  = drop (length (of_nat i ++ lit "_" ++ name) - 255)
         (of_nat i ++ lit "_" ++ (replaced_char <$> name)).
Proof.
  unfold prefixed_name. by rewrite sanitize_unfold, replaced_prefixed.
Qed.

Lemma prefixed_long i name :
  255 ≤ length name → prefixed_name i name = sanitize_file_name name.
Proof.
  intros Hlong. rewrite prefixed_unfold, sanitize_unfold.
  unfold FILE_NAME_MAX_LENGTH. rewrite !(assoc_L (++) (of_nat i)).
  rewrite drop_app_ge by (rewrite !length_app; lia).
  f_equal. rewrite !length_app. lia.
Qed.

(** X2: A display name of 255 characters or more pushes the ordinal out of
    the name: the directory name is that of the display name alone, the same
    for every ordinal. *)
Theorem long_name_loses_its_ordinal i name :
  255 ≤ length name → prefixed_name i name = sanitize_file_name name.
Proof. apply prefixed_long. Qed.

Lemma long_name_loses_its_ordinal_witness :
  prefixed_name 0 (replicate 255 (chr "x")) = prefixed_name 7 (replicate 255 (chr "x")).
Proof.
  rewrite (long_name_loses_its_ordinal 0), (long_name_loses_its_ordinal 7);
    [reflexivity|vm_compute; lia|vm_compute; lia].
Defined.

(** X3: While ordinal, underscore and display name fit in 255 characters, the
    directory name starts with the ordinal, and two such names with
    different ordinals are different. *)
Theorem short_names_keep_their_ordinal i j name name' :
  length (of_nat i ++ lit "_" ++ name) ≤ 255 →
  prefixed_name i name = of_nat i ++ lit "_" ++ sanitize_file_name name
  ∧ (length (of_nat j ++ lit "_" ++ name') ≤ 255 →
     prefixed_name i name = prefixed_name j name' → i = j).
Proof.
  intros Hi.
  assert (Hshort : ∀ k n, length (of_nat k ++ lit "_" ++ n) ≤ 255 →
            prefixed_name k n = of_nat k ++ lit "_" ++ (replaced_char <$> n)).
  { intros k n Hk. rewrite prefixed_unfold.
    by replace (_ - 255) with 0 by lia. }
  split.
  - rewrite (Hshort _ _ Hi), sanitize_unfold. unfold FILE_NAME_MAX_LENGTH.
    rewrite !length_app in Hi. by replace (_ - 255) with 0 by lia.
  - intros Hj Heq. rewrite (Hshort _ _ Hi), (Hshort _ _ Hj) in Heq.
    apply of_nat_inj.
    eapply first_underscore; [apply of_nat_no_underscore..|exact Heq].
Qed.

Lemma short_names_keep_their_ordinal_witness :
  prefixed_name 3 (lit "To do?") = lit "3_To do_"
  ∧ (prefixed_name 3 (lit "To do?") = prefixed_name 3 (lit "To do*") → 3 = 3).
Proof.
  destruct (short_names_keep_their_ordinal 3 3 (lit "To do?") (lit "To do*"))
    as [Hname Hinj]; [vm_compute; lia|].
  split.
  - rewrite Hname. reflexivity.
  - apply Hinj. vm_compute. lia.
Defined.

Lemma sanitize_elem c s :
  c ∈ sanitize_file_name s → ∃ x, x ∈ s ∧ c = replaced_char x.
Proof.
  rewrite sanitize_unfold. intros Hc%list_elem_of_lookup. destruct Hc as [k Hk].
  rewrite lookup_drop, list_lookup_fmap in Hk.
  destruct (s !! _) as [x|] eqn:Hx; [|done]. injection Hk as <-.
  exists x. split; [by eapply list_elem_of_lookup_2|done].
Qed.

Lemma sanitize_no_slash s : SLASH ∉ sanitize_file_name s.
Proof.
  intros (x & _ & Hx)%sanitize_elem.
  apply (replaced_char_clean x). rewrite <- Hx.
  apply (bool_decide_unpack _). by vm_compute.
Qed.

Lemma sanitize_nul s : NUL ∈ sanitize_file_name s → NUL ∈ s.
Proof.
  intros (x & Hin & Hx)%sanitize_elem. unfold replaced_char in Hx.
  case_bool_decide; [done|]. by subst x.
Qed.

Lemma prefixed_nul i name : NUL ∈ prefixed_name i name → NUL ∈ name.
Proof.
  intros H%sanitize_nul. rewrite !elem_of_app in H.
  destruct H as [H|[H|H]]; [| |done].
  - pose proof (of_nat_digits i) as Hd. rewrite Forall_forall in Hd.
    specialize (Hd _ H). unfold is_digit, NUL in Hd. lia.
  - apply list_elem_of_singleton in H. done.
Qed.

(** The name made from an ordinal and any display name is one component of
    a path. *)
Lemma prefixed_component i name : component (prefixed_name i name).
Proof.
  split; [apply sanitize_no_slash|].
  assert (Hlen : length (prefixed_name i name)
                 = length (of_nat i ++ lit "_" ++ name) `min` 255)
    by apply sanitize_length.
  assert (Hin : length (of_nat i ++ lit "_" ++ name) ≤ 255 →
                chr "_" ∈ prefixed_name i name).
  { intros Hshort. rewrite prefixed_unfold.
    replace (_ - 255) with 0 by lia. rewrite drop_0, !elem_of_app.
    right. left. apply list_elem_of_here. }
  assert (Hpos : 2 ≤ length (of_nat i ++ lit "_" ++ name) ∨
                 of_nat i = []).
  { destruct (of_nat i); [by right|left]. rewrite !length_app. cbn. lia. }
  assert (Hlen1 : 1 ≤ length (of_nat i ++ lit "_" ++ name))
    by (rewrite !length_app; cbn; lia).
  split_and!; intros Heq; rewrite Heq in Hlen, Hin;
    change (length (lit ".")) with 1 in Hlen;
    change (length (lit "..")) with 2 in Hlen;
    change (length (@nil N)) with 0 in Hlen.
  - lia.
  - assert (Hu : chr "_" ∈ lit ".") by (apply Hin; lia).
    by apply (bool_decide_pack _) in Hu.
  - assert (Hu : chr "_" ∈ lit "..") by (apply Hin; lia).
    by apply (bool_decide_pack _) in Hu.
Qed.

End prefixed_names.

(** ** Paths of one component *)

Section paths.

Implicit Types (s : list N) (p q root : list (list N)) (w : World)
  (t : gmap (list (list N)) Entry).

Lemma split_no_sep sep s : sep ∉ s → split sep s = [s].
Proof.
  induction s as [|c s IH]; intros Hs; [done|]. cbn.
  apply not_elem_of_cons in Hs as [Hc Hs].
  rewrite bool_decide_eq_false_2 by done. by rewrite IH.
Qed.

Lemma strip_slashes_no_slash s : SLASH ∉ s → strip_slashes s = s.
Proof.
  induction s as [|c s IH]; intros Hs; [done|]. cbn.
  apply not_elem_of_cons in Hs as [Hc Hs]. rewrite IH by done.
  destruct s; [|done]. by rewrite bool_decide_eq_false_2.
Qed.

Lemma parent_snoc p s : parent (p ++ [s]) = p.
Proof.
  unfold parent. rewrite length_app. cbn.
  replace (length p + 1 - 1) with (length p) by lia.
  by rewrite take_app_length.
Qed.

Lemma exists_at_snoc t p s :
  exists_at t (p ++ [s]) = bool_decide (is_Some (t !! (p ++ [s]))).
Proof. by destruct p. Qed.

Lemma is_dir_snoc t p s :
  is_dir t (p ++ [s]) = true
  ↔ ∃ r, t !! (p ++ [s]) = Some {| node := Dir; r_ok := r |}.
Proof.
  assert (H : is_dir t (p ++ [s])
              = match t !! (p ++ [s]) with
                | Some {| node := Dir |} => true
                | _ => false
                end) by by destruct p.
  rewrite H. destruct (t !! (p ++ [s])) as [[[|c] r]|]; split;
    try done; try (intros [? [=]]); eauto.
Qed.

Lemma is_dir_exists t p : is_dir t p = true → exists_at t p = true.
Proof.
  destruct p as [|s p]; [done|]. cbn.
  destruct (t !! (s :: p)) eqn:H; [|done]. intros _.
  by apply bool_decide_eq_true_2.
Qed.

Lemma locate_one w s :
  SLASH ∉ s → s ≠ [] → NUL ∉ s →
  locate w s = step (tree w) (inr (cwd w)) s.
Proof.
  intros Hslash Hne Hnul. unfold locate.
  rewrite (bool_decide_eq_false_2 (s = [])) by done.
  rewrite (bool_decide_eq_false_2 (NUL ∈ s)) by done.
  rewrite bool_decide_eq_false_2; [by rewrite split_no_sep|].
  destruct s as [|c s]; [done|]. cbn. intros [= ->]. apply Hslash. left.
Qed.

(** Where a name of one component leads. *)
Lemma locate_component w s :
  component s →
  locate w s
  = if bool_decide (NUL ∈ s) then inl ValueError
    else if is_dir (tree w) (cwd w) then inr (cwd w ++ [s])
    else inl (no_dir_error (tree w) (cwd w)).
Proof.
  intros (Hslash & Hne & Hdot & Hdots).
  case_bool_decide as Hnul.
  { unfold locate. rewrite bool_decide_eq_false_2 by done.
    by rewrite bool_decide_eq_true_2. }
  rewrite locate_one by done. unfold step.
  destruct (is_dir (tree w) (cwd w)); cbn [negb]; [|done].
  rewrite bool_decide_eq_false_2 by (by intros [?|?]).
  by rewrite bool_decide_eq_false_2.
Qed.

Lemma locate_up w :
  locate w (lit "..")
  = if is_dir (tree w) (cwd w) then inr (parent (cwd w))
    else inl (no_dir_error (tree w) (cwd w)).
Proof.
  rewrite locate_one; [|apply (bool_decide_unpack _); by vm_compute|done
                        |apply (bool_decide_unpack _); by vm_compute].
  unfold step. by destruct (is_dir (tree w) (cwd w)).
Qed.

Lemma component_attachments : component (lit "attachments").
Proof. split_and!; [apply (bool_decide_unpack _)|..]; by vm_compute. Qed.

Lemma component_card_json : component (lit "card.json").
Proof. split_and!; [apply (bool_decide_unpack _)|..]; by vm_compute. Qed.

Lemma component_description_md : component (lit "description.md").
Proof. split_and!; [apply (bool_decide_unpack _)|..]; by vm_compute. Qed.

End paths.

(** ** Changes below a directory *)

Section extends.

Implicit Types (p q root : list (list N)) (w : World).

Lemma extends_refl root w : extends root w w.
Proof. by split. Qed.

Lemma extends_same_tree root w w' : tree w' = tree w → extends root w w'.
Proof. intros H. split; by rewrite H. Qed.

Lemma extends_trans root w1 w2 w3 :
  extends root w1 w2 → extends root w2 w3 → extends root w1 w3.
Proof.
  intros [F1 D1] [F2 D2]. split.
  - intros p Hp. by rewrite F2, F1.
  - intros p Hp. by apply D2, D1.
Qed.

Lemma extends_weaken root root' w w' :
  root `prefix_of` root' → extends root' w w' → extends root w w'.
Proof.
  intros Hpre [F D]. split; [|done].
  intros p Hp. apply F. intros Hp'. apply Hp. by etrans.
Qed.

Lemma is_dir_insert_ne (t : gmap (list (list N)) Entry) q e p :
  is_dir t q = false → is_dir t p = true → is_dir (<[q := e]> t) p = true.
Proof.
  intros Hq Hp. destruct (decide (p = q)) as [->|Hne]; [congruence|].
  destruct p as [|s p]; [done|]. cbn in *. by rewrite lookup_insert_ne.
Qed.

(** A new entry, or a file written over a file, below [root]. *)
Lemma extends_insert root w q e :
  root `prefix_of` q → is_dir (tree w) q = false →
  extends root w (set_tree (<[q := e]> (tree w)) w).
Proof.
  intros Hpre Hq. split; cbn.
  - intros p Hp. apply lookup_insert_ne. by intros ->.
  - intros p Hp. by apply is_dir_insert_ne.
Qed.

Lemma extends_alter root w q (f : Entry → Entry) :
  root `prefix_of` q →
  (∀ e, node e = Dir → node (f e) = Dir) →
  extends root w (set_tree (alter f q (tree w)) w).
Proof.
  intros Hpre Hf. split; cbn.
  - intros p Hp. apply lookup_alter_ne. by intros ->.
  - intros [|s p]; [done|]. cbn. rewrite lookup_alter.
    case_decide as Heq; [|done]. rewrite Heq.
    destruct (tree w !! (s :: p)) as [[[|c] r]|] eqn:Hl; cbn; try done.
    intros _. specialize (Hf {| node := Dir; r_ok := r |} eq_refl).
    destruct (f _) as [n r']. cbn in Hf. by subst n.
Qed.

End extends.

(** ** Rules for [post] *)

Section rules.

Context {A : Type}.
Implicit Types (w : World) (s : list N) (Q : Outcome A → World → Prop).

Lemma post_mono (m : M A) w Q Q' :
  post m w Q → (∀ r w', Q r w' → Q' r w') → post m w Q'.
Proof. unfold post. auto. Qed.

Lemma post_ret (a : A) w Q : Q (Done a) w → post (ret a) w Q.
Proof. done. Qed.

Lemma post_raise e w Q : Q (Raised e) w → post (raise e) w Q.
Proof. done. Qed.

Lemma post_bind {B} (m : M B) (k : B → M A) w Q :
  post m w (λ r w1, match r with
                    | Done b => post (k b) w1 Q
                    | Raised e => Q (Raised e) w1
                    | Exited c => Q (Exited c) w1
                    end) →
  post (bind m k) w Q.
Proof. unfold post, bind. by destruct (m w) as [[b|e|c] w1]. Qed.

Lemma post_try_except (m h : M A) w Q :
  post m w (λ r w1, match r with
                    | Raised _ => post h w1 Q
                    | _ => Q r w1
                    end) →
  post (try_except m h) w Q.
Proof. unfold post, try_except. by destruct (m w) as [[b|e|c] w1]. Qed.

Lemma post_eq (m : M A) w r w' Q : m w = (r, w') → post m w Q → Q r w'.
Proof. unfold post. by intros ->. Qed.

Lemma post_elim_eq (m : M A) w : post m w (λ r w', m w = (r, w')).
Proof. unfold post. apply surjective_pairing. Qed.

End rules.

Section primitive_rules.

Implicit Types (w : World) (s : list N).

Lemma post_modify f w (Q : Outcome () → World → Prop) :
  Q (Done tt) (f w) → post (modify f) w Q.
Proof. done. Qed.

Lemma post_mkdir s w (Q : Outcome () → World → Prop) :
  component s →
  (∀ e, ¬ (is_dir (tree w) (cwd w) = true ∧ tree w !! (cwd w ++ [s]) = None
           ∧ (NUL ∉ s)) →
        Q (Raised e) w) →
  (is_dir (tree w) (cwd w) = true → tree w !! (cwd w ++ [s]) = None →
   NUL ∉ s →
   Q (Done tt) (set_tree (<[cwd w ++ [s] := new_entry Dir]> (tree w)) w)) →
  post (mkdir s) w Q.
Proof.
  intros Hs Hfail Hok. unfold post, mkdir.
  rewrite strip_slashes_no_slash by apply Hs.
  replace (match s with [] => s | c :: r => c :: r end) with s
    by by destruct s.
  rewrite locate_component by done.
  case_bool_decide as Hnul; [apply Hfail; tauto|].
  destruct (is_dir (tree w) (cwd w)) eqn:Hcwd; [|apply Hfail; by intros [? _]].
  rewrite exists_at_snoc, parent_snoc, Hcwd.
  case_bool_decide as Hex.
  { apply Hfail. intros (_ & Hnone & _). rewrite Hnone in Hex.
    by apply is_Some_None in Hex. }
  cbn. apply Hok; [done| |done]. by apply eq_None_not_Some.
Qed.

Lemma post_chdir s w (Q : Outcome () → World → Prop) :
  component s →
  (∀ e, ¬ (is_dir (tree w) (cwd w) = true
           ∧ is_dir (tree w) (cwd w ++ [s]) = true ∧ (NUL ∉ s)) →
        Q (Raised e) w) →
  (is_dir (tree w) (cwd w ++ [s]) = true →
   Q (Done tt) (set_cwd (cwd w ++ [s]) w)) →
  post (chdir s) w Q.
Proof.
  intros Hs Hfail Hok. unfold post, chdir. rewrite locate_component by done.
  case_bool_decide; [apply Hfail; tauto|].
  destruct (is_dir (tree w) (cwd w)); [|apply Hfail; by intros [? _]].
  destruct (is_dir (tree w) (cwd w ++ [s])) eqn:Hd; [by apply Hok|].
  apply Hfail. by intros (_ & ? & _).
Qed.

Lemma post_chdir_up w (Q : Outcome () → World → Prop) :
  (∀ e, ¬ (is_dir (tree w) (cwd w) = true
           ∧ is_dir (tree w) (parent (cwd w)) = true) →
        Q (Raised e) w) →
  Q (Done tt) (set_cwd (parent (cwd w)) w) →
  post (chdir (lit "..")) w Q.
Proof.
  intros Hfail Hok. unfold post, chdir. rewrite locate_up.
  destruct (is_dir (tree w) (cwd w)); [|apply Hfail; by intros [? _]].
  destruct (is_dir (tree w) (parent (cwd w))); [apply Hok|].
  apply Hfail. by intros [_ ?].
Qed.

Lemma post_open s empty w (Q : Outcome (list (list N)) → World → Prop) :
  component s →
  (∀ e, ¬ (is_dir (tree w) (cwd w) = true
           ∧ is_dir (tree w) (cwd w ++ [s]) = false ∧ (NUL ∉ s)) →
        Q (Raised e) w) →
  (is_dir (tree w) (cwd w) = true → is_dir (tree w) (cwd w ++ [s]) = false →
   NUL ∉ s →
   Q (Done (cwd w ++ [s]))
     (set_tree (<[cwd w ++ [s] :=
                   {| node := File empty;
                      r_ok := from_option r_ok true (tree w !! (cwd w ++ [s])) |}]>
                  (tree w)) w)) →
  post (open_for_writing s empty) w Q.
Proof.
  intros Hs Hfail Hok. unfold post, open_for_writing.
  rewrite locate_component by done.
  case_bool_decide as Hnul; [apply Hfail; tauto|].
  destruct (is_dir (tree w) (cwd w)) eqn:Hcwd; [|apply Hfail; by intros [? _]].
  destruct (is_dir (tree w) (cwd w ++ [s])) eqn:Hd;
    [apply Hfail; by intros (_ & ? & _)|].
  rewrite parent_snoc, Hcwd. by apply Hok.
Qed.

Lemma post_requests_get_stream url timeout w
    (Q : Outcome (nat * list (list Byte.byte) * bool) → World → Prop) :
  match download (remote w) (requests_made w) url with
  | Response status body complete => Q (Done (status, body, complete)) (tick w)
  | CallFails => Q (Raised RequestException) (tick w)
  end →
  post (requests_get_stream url timeout) w Q.
Proof.
  unfold post, requests_get_stream.
  by destruct (download _ _ _).
Qed.

Lemma post_requests_get_json {B} (endpoint : Remote → nat → list N → option B)
    url w (Q : Outcome B → World → Prop) :
  match endpoint (remote w) (requests_made w) url with
  | Some b => Q (Done b) (tick w)
  | None => Q (Raised RequestException) (tick w)
  end →
  post (requests_get_json endpoint url) w Q.
Proof.
  unfold post, requests_get_json. by destruct (endpoint _ _ _).
Qed.

(** A loop with an invariant on what has been processed; [F] is what every
    abnormal end gives. *)
Lemma post_for_each {B} (I : list B → World → Prop) (F : World → Prop)
    (xs : list B) (body : B → M ()) w :
  I [] w →
  (∀ before x after w1,
     xs = before ++ x :: after → I before w1 →
     post (body x) w1 (λ r w2, match r with
                               | Done _ => I (before ++ [x]) w2
                               | _ => F w2
                               end)) →
  post (for_each xs body) w (λ r w', match r with
                                     | Done _ => I xs w'
                                     | _ => F w'
                                     end).
Proof.
  revert I w. induction xs as [|x xs IH]; intros I w H0 Hbody; [done|].
  cbn [for_each]. apply post_bind.
  eapply post_mono; [apply (Hbody [] x xs w eq_refl H0)|].
  intros [[]|e|c] w1 H1; [|done..]. cbn in H1.
  apply (IH (λ d, I (x :: d))); [done|].
  intros before y after w2 -> Hw2.
  apply (Hbody (x :: before) y after w2 eq_refl Hw2).
Qed.

End primitive_rules.

(** ** Files and downloads *)

Section files.

Implicit Types (w : World) (s : list N) (p root : list (list N)).

Lemma prefix_snoc_ne p s s' rest :
  s ≠ s' → ¬ (p ++ [s]) `prefix_of` (p ++ s' :: rest).
Proof.
  intros Hne [k Hk]. rewrite <- (assoc_L (++)) in Hk.
  apply (inj (app p)) in Hk. cbn in Hk. by injection Hk as <- _.
Qed.

Lemma holds_extends root w w' p c :
  extends root w w' → ¬ root `prefix_of` p → holds w p c → holds w' p c.
Proof.
  intros [F _] Hp (e & He & Hn). exists e. by rewrite F.
Qed.

Lemma holds_insert w q c r :
  holds (set_tree (<[q := {| node := File c; r_ok := r |}]> (tree w)) w) q c.
Proof. eexists. cbn. by rewrite lookup_insert_eq. Qed.

Lemma is_dir_insert_new (t : gmap (list (list N)) Entry) p s :
  is_dir (<[p ++ [s] := new_entry Dir]> t) (p ++ [s]) = true.
Proof. apply is_dir_snoc. eexists. apply lookup_insert_eq. Qed.

(** [write_file] with [dumps=True]. *)
Lemma post_write_json s obj w (Q : Outcome () → World → Prop) :
  component s →
  (∀ e, ¬ (is_dir (tree w) (cwd w) = true
           ∧ is_dir (tree w) (cwd w ++ [s]) = false ∧ (NUL ∉ s)) →
        Q (Raised e) w) →
  (∀ w1, is_dir (tree w) (cwd w) = true →
         is_dir (tree w) (cwd w ++ [s]) = false →
         extends (cwd w ++ [s]) w w1 → cwd w1 = cwd w →
         holds w1 (cwd w ++ [s]) (Json obj) →
         Q (Done tt) w1) →
  post (write_file s obj true) w Q.
Proof.
  intros Hs Hfail Hok. unfold write_file. apply post_bind, post_open; [done..|].
  intros Hcwd Hd Hnul. apply post_modify, Hok; [done..| | |]; cbn.
  - eapply extends_trans; [by apply extends_insert|].
    by apply (extends_alter _ (set_tree _ w)); [|intros [[] ?]].
  - done.
  - unfold holds. cbn. eexists.
    split; [by rewrite lookup_alter_eq, lookup_insert_eq|done].
Qed.

(** [write_file] of a text with [dumps=False]: text that UTF-8 cannot
    encode raises after the file has been created empty. *)
Lemma post_write_text s text w (Q : Outcome () → World → Prop) :
  component s →
  (∀ e w1, extends (cwd w ++ [s]) w w1 → cwd w1 = cwd w →
           ¬ (is_dir (tree w) (cwd w) = true
              ∧ is_dir (tree w) (cwd w ++ [s]) = false ∧ (NUL ∉ s)
              ∧ utf8_encodable text = true) →
           Q (Raised e) w1) →
  (∀ w1, is_dir (tree w) (cwd w) = true →
         is_dir (tree w) (cwd w ++ [s]) = false →
         utf8_encodable text = true →
         extends (cwd w ++ [s]) w w1 → cwd w1 = cwd w →
         holds w1 (cwd w ++ [s]) (Text text) →
         Q (Done tt) w1) →
  post (write_file s (OStr text) false) w Q.
Proof.
  intros Hs Hfail Hok. unfold write_file. apply post_bind, post_open; [done| |].
  { intros e Hno. apply Hfail; [apply extends_refl|done|tauto]. }
  intros Hcwd Hd Hnul.
  destruct (utf8_encodable text) eqn:Henc.
  - apply post_modify, Hok; [done..| | |]; cbn.
    + eapply extends_trans; [by apply extends_insert|].
      by apply (extends_alter _ (set_tree _ w)); [|intros [[] ?]].
    + done.
    + unfold holds. cbn. eexists.
      split; [by rewrite lookup_alter_eq, lookup_insert_eq|done].
  - apply post_raise, Hfail; [by apply extends_insert|done|].
    by intros (_ & _ & _ & ?).
Qed.

End files.

Section download.

Implicit Types (w : World) (a : Attachment) (i : nat).

Lemma download_attachment_unfold i a :
  download_attachment i a
  = (let attachment_name := prefixed_name i (a_name a) in
     print [lit "Saving attachment"; attachment_name];;
     content ← try_except
       (r ← requests_get_stream (a_url a) ATTACHMENT_REQUEST_TIMEOUT;
        ret (Some r))
       (stderr_write (lit "Could not download " ++ attachment_name);; ret None);
     match content with
     | None => ret tt
     | Some (_, body, complete) =>
         f ← open_for_writing attachment_name (Binary []);
         for_each body (λ chunk,
           if bool_decide (chunk ≠ [])
           then file_write f (λ c, match c with
                                   | Binary data => Binary (data ++ chunk)
                                   | _ => c
                                   end)
           else ret tt);;
         if complete then ret tt else raise RequestException
     end).
Proof. reflexivity. Qed.

(** The loop over the chunks of a body, on a file that holds [data]: it
    appends the chunks and never fails. *)
Lemma post_chunks (body : list (list Byte.byte)) f data w root :
  root `prefix_of` f →
  holds w f (Binary data) →
  post (for_each body (λ chunk,
          if bool_decide (chunk ≠ [])
          then file_write f (λ c, match c with
                                  | Binary d => Binary (d ++ chunk)
                                  | _ => c
                                  end)
          else ret tt)) w
       (λ r w', r = Done tt ∧ holds w' f (Binary (data ++ mjoin body))
                ∧ extends root w w' ∧ cwd w' = cwd w
                ∧ stderr w' = stderr w ∧ stdout w' = stdout w
                ∧ requests_made w' = requests_made w ∧ remote w' = remote w).
Proof.
  intros Hroot. revert data w.
  induction body as [|chunk body IH]; intros data w Hf.
  { apply post_ret. rewrite app_nil_r. split_and!; try done; apply extends_refl. }
  cbn [for_each]. apply post_bind.
  case_bool_decide as Hc.
  - apply post_modify. cbv beta iota.
    eapply post_mono.
    { apply (IH (data ++ chunk)).
      destruct Hf as (e & He & Hn). unfold holds. cbn. eexists.
      split; [by rewrite lookup_alter_eq, He|]. cbn. by rewrite Hn. }
    intros r w' (? & ? & ? & ? & ? & ? & ? & ?).
    cbn [mjoin list_join]. rewrite (assoc_L (++)).
    split_and!; try done.
    eapply extends_trans; [|done].
    apply extends_alter; [done|]. by intros [[] ?].
  - apply post_ret. cbv beta iota.
    subst chunk.
    eapply post_mono; [apply (IH data w Hf)|].
    intros r w' H. exact H.
Qed.

(** What one turn of the loop over the attachments does, reply by reply. *)
Lemma download_attachment_post i a w :
  let name := prefixed_name i (a_name a) in
  let target := cwd w ++ [name] in
  post (download_attachment i a) w (λ r w',
    extends target w w' ∧ cwd w' = cwd w
    ∧ requests_made w' = S (requests_made w)
    ∧ match download (remote w) (requests_made w) (a_url a) with
      | CallFails =>
          r = Done tt ∧ tree w' = tree w
          ∧ stderr w' = stderr w ++ [lit "Could not download " ++ name]
      | Response _ body complete =>
          stderr w' = stderr w
          ∧ (r = Done tt → complete = true)
          ∧ (is_dir (tree w) (cwd w) = true → NUL ∉ name →
             is_dir (tree w) target = false →
             r = (if complete then Done tt else Raised RequestException)
             ∧ holds w' target (Binary (mjoin body)))
      end).
Proof.
  intros name target. rewrite download_attachment_unfold. fold name.
  cbv zeta. apply post_bind, post_modify, post_bind, post_try_except.
  apply post_bind, post_requests_get_stream. cbn [requests_made remote set_stdout].
  destruct (download _ _ _) as [|status body complete].
  - cbn beta iota. apply post_bind, post_modify, post_ret, post_ret.
    split_and!; try done; by apply extends_same_tree.
  - cbn beta iota. apply post_ret, post_bind.
    assert (Hcomp : component name) by apply prefixed_component.
    apply post_open; [done| |].
    + intros e Hno. split_and!; [by apply extends_same_tree|done..|].
      intros ???. destruct Hno. by split_and!.
    + intros Hcwd Hd Hnul. apply post_bind.
      eapply post_mono;
        [apply (post_chunks body _ [] _ target); [done|apply holds_insert]|].
      intros r w1 (-> & Hholds & Hext & Hcwd1 & Herr & Hout & Hreq & Hrem).
      cbn in Hholds, Hcwd1, Herr, Hreq.
      assert (Hext' : extends target w w1).
      { eapply extends_trans; [|exact Hext].
        eapply (extends_trans _ _ (tick (set_stdout _ w)));
          [by apply extends_same_tree|].
        by apply (extends_insert target (tick (set_stdout _ w))). }
      destruct complete; [apply post_ret|apply post_raise];
        (split_and!; [done..|by intros|by intros]).
Qed.

End download.

Section download_theorems.

Implicit Types (w : World) (a : Attachment) (c : Card) (i : nat).

Lemma post_elim {A} (m : M A) w (Q : Outcome A → World → Prop) :
  post m w Q → ∃ r w', m w = (r, w') ∧ Q r w'.
Proof. intros H. exists (m w).1, (m w).2. by rewrite <- surjective_pairing. Qed.

(** X7: A complete reply is saved whole: the file named after the ordinal and
    the attachment holds the chunks of the body one after the other (an
    empty chunk adds nothing), whatever the status code; nothing else on
    disk changes and nothing is written to the error stream. *)
Theorem download_attachment_saves_body i a w status body :
  download (remote w) (requests_made w) (a_url a) = Response status body true →
  is_dir (tree w) (cwd w) = true →
  NUL ∉ a_name a →
  is_dir (tree w) (cwd w ++ [prefixed_name i (a_name a)]) = false →
  ∃ w', download_attachment i a w = (Done tt, w')
        ∧ holds w' (cwd w ++ [prefixed_name i (a_name a)]) (Binary (mjoin body))
        ∧ extends (cwd w ++ [prefixed_name i (a_name a)]) w w'
        ∧ cwd w' = cwd w ∧ stderr w' = stderr w.
Proof.
  intros Hreply Hcwd Hnul Hd.
  pose proof (download_attachment_post i a w) as Hpost.
  cbv zeta in Hpost. unfold post in Hpost.
  destruct (download_attachment i a w) as [r w'] eqn:Hrun.
  destruct Hpost as (Hext & Hcwd' & _ & Hcase). cbn [fst snd] in *.
  rewrite Hreply in Hcase. destruct Hcase as (Herr & _ & Hok).
  destruct Hok as [-> Hholds]; [done| |done|].
  { intros H. by apply prefixed_nul in H. }
  by exists w'.
Qed.

Lemma download_attachment_saves_body_witness :
  let a := Examples.attachment "notes.txt" (Some 2%Z) in
  let w := Examples.home (Examples.serving Examples.sprint
                            (Response 200 [[Byte.x68]; []; [Byte.x69]] true)) in
  ∃ w', download_attachment 4 a w = (Done tt, w')
        ∧ holds w' [lit "home"; lit "4_notes.txt"] (Binary [Byte.x68; Byte.x69]).
Proof.
  intros a w.
  destruct (download_attachment_saves_body 4 a w 200 [[Byte.x68]; []; [Byte.x69]])
    as (w' & Hrun & Hholds & _).
  - reflexivity.
  - reflexivity.
  - apply (bool_decide_unpack _). vm_compute. exact I.
  - vm_compute. reflexivity.
  - exists w'. split; [exact Hrun|exact Hholds].
Defined.

(** X8: A body that breaks off is not caught by the [try]: the exception leaves
    [download_attachment], the chunks received so far stay on disk under the
    attachment's name, and no diagnostic is written. *)
Theorem download_attachment_broken_stream i a w status body :
  download (remote w) (requests_made w) (a_url a) = Response status body false →
  is_dir (tree w) (cwd w) = true →
  NUL ∉ a_name a →
  is_dir (tree w) (cwd w ++ [prefixed_name i (a_name a)]) = false →
  ∃ w', download_attachment i a w = (Raised RequestException, w')
        ∧ holds w' (cwd w ++ [prefixed_name i (a_name a)]) (Binary (mjoin body))
        ∧ stderr w' = stderr w.
Proof.
  intros Hreply Hcwd Hnul Hd.
  pose proof (download_attachment_post i a w) as Hpost.
  cbv zeta in Hpost. unfold post in Hpost.
  destruct (download_attachment i a w) as [r w'] eqn:Hrun.
  destruct Hpost as (Hext & Hcwd' & _ & Hcase). cbn [fst snd] in *.
  rewrite Hreply in Hcase. destruct Hcase as (Herr & _ & Hok).
  destruct Hok as [-> Hholds]; [done| |done|].
  { intros H. by apply prefixed_nul in H. }
  by exists w'.
Qed.

Lemma download_attachment_broken_stream_witness :
  let a := Examples.attachment "video.mp4" (Some 9%Z) in
  let w := Examples.home (Examples.serving Examples.sprint
                            (Response 200 [[Byte.x68]] false)) in
  ∃ w', download_attachment 0 a w = (Raised RequestException, w')
        ∧ holds w' [lit "home"; lit "0_video.mp4"] (Binary [Byte.x68]).
Proof.
  intros a w.
  destruct (download_attachment_broken_stream 0 a w 200 [[Byte.x68]])
    as (w' & Hrun & Hholds & _).
  - reflexivity.
  - reflexivity.
  - apply (bool_decide_unpack _). vm_compute. exact I.
  - vm_compute. reflexivity.
  - exists w'. split; [exact Hrun|exact Hholds].
Defined.

Lemma select_attachments_post c max_size w
    (Q : Outcome (list Attachment) → World → Prop) :
  (∀ e, Q (Raised e) w) →
  (∀ sel, sel ⊆ c_attachments c → Q (Done sel) w) →
  post (select_attachments c max_size) w Q.
Proof.
  intros Hfail Hok. unfold post, select_attachments.
  destruct max_size as [m|]; cbn.
  - apply Hok. intros a. rewrite list_elem_of_filter. tauto.
  - destruct (existsb _ _); cbn; [apply Hfail|].
    apply Hok. by intros ? ?%elem_of_nil.
Qed.

Lemma download_attachments_post c max_size w :
  post (download_attachments c max_size) w
       (λ r w', extends (cwd w ++ [lit "attachments"]) w w'
                ∧ (r = Done tt → cwd w' = cwd w)).
Proof.
  unfold download_attachments.
  apply post_bind, select_attachments_post.
  { intros e. split; [apply extends_refl|done]. }
  intros sel _. case_bool_decide; [|by apply post_ret, conj; [apply extends_refl|]].
  set (dir := cwd w ++ [lit "attachments"]).
  apply post_bind, post_mkdir; [apply component_attachments| |].
  { intros e _. split; [apply extends_refl|done]. }
  intros Hcwd Hnone _.
  set (w1 := set_tree _ w).
  assert (Hw1 : extends dir w w1).
  { apply extends_insert; [done|]. apply not_true_iff_false.
    intros (r & Hr)%is_dir_snoc. by rewrite Hnone in Hr. }
  apply post_bind, post_chdir; [apply component_attachments| |].
  { intros e _. by split. }
  intros _. fold dir. set (w2 := set_cwd dir w1).
  apply post_bind.
  eapply post_mono.
  { apply (post_for_each (λ _ w3, extends dir w w3 ∧ cwd w3 = dir)
                         (λ w3, extends dir w w3)).
    - split; [|done]. eapply extends_trans; [exact Hw1|].
      by apply extends_same_tree.
    - intros before [i a] after w3 _ [Hext Hcwd3].
      eapply post_mono; [apply download_attachment_post|].
      intros r w4 (Hext4 & Hcwd4 & _). cbv zeta in Hext4.
      assert (extends dir w w4).
      { eapply extends_trans; [exact Hext|].
        eapply extends_weaken; [|exact Hext4]. rewrite Hcwd3.
        by apply prefix_app_r. }
      destruct r; [split|..]; congruence || done. }
  intros [[]|e|code] w3; cbn beta iota; [|by intros ?; split..].
  intros [Hext Hcwd3]. apply post_chdir_up.
  { intros e _. by split. }
  split; [by eapply extends_trans; [exact Hext|apply extends_same_tree]|].
  intros _. cbn. rewrite Hcwd3. apply parent_snoc.
Qed.

(** X9: [download_attachments] changes nothing outside the [attachments]
    directory of the working directory, and when it returns the working
    directory is the one it started from. *)
Theorem download_attachments_stays_below c max_size w :
  ∃ r w', download_attachments c max_size w = (r, w')
          ∧ extends (cwd w ++ [lit "attachments"]) w w'
          ∧ (r = Done tt → cwd w' = cwd w).
Proof. apply post_elim, download_attachments_post. Qed.

End download_theorems.

(** ** Cards *)

Section cards.

Implicit Types (w : World) (c : Card) (i : nat).

Lemma post_print ws w (Q : Outcome () → World → Prop) :
  Q (Done tt) (set_stdout (stdout w ++ [join (lit " ") ws]) w) →
  post (print ws) w Q.
Proof. done. Qed.

Lemma not_dir_of_none (t : gmap (list (list N)) Entry) p s :
  t !! (p ++ [s]) = None → is_dir t (p ++ [s]) = false.
Proof.
  intros Hnone. apply not_true_iff_false.
  intros (r & Hr)%is_dir_snoc. by rewrite Hnone in Hr.
Qed.

Lemma post_conj {A} (m : M A) w (Q1 Q2 : Outcome A → World → Prop) :
  post m w Q1 → post m w Q2 → post m w (λ r w', Q1 r w' ∧ Q2 r w').
Proof. by split. Qed.

(** Nothing selected: no directory, no request, nothing at all. *)
Lemma download_attachments_nothing c m w :
  filter (below_limit m) (c_attachments c) = [] →
  download_attachments c (Some m) w = (Done tt, w).
Proof.
  intros Hsel. unfold download_attachments, bind, select_attachments, ret.
  by rewrite Hsel.
Qed.

(** What [backup_card] leaves behind. *)
Lemma backup_card_post i c attachment_size w :
  let dir := cwd w ++ [prefixed_name i (c_name c)] in
  post (backup_card i c attachment_size) w (λ r w',
    extends dir w w'
    ∧ (r = Done tt →
       cwd w' = cwd w
       ∧ is_dir (tree w) (cwd w) = true
       ∧ tree w !! dir = None
       ∧ (NUL ∉ prefixed_name i (c_name c))
       ∧ is_dir (tree w') dir = true
       ∧ holds w' (dir ++ [lit "card.json"]) (Json (OCard c))
       ∧ holds w' (dir ++ [lit "description.md"]) (Text (c_desc c)))
    ∧ (card_fits i c attachment_size w → r = Done tt)).
Proof.
  intros dir. unfold backup_card, card_fits.
  fold (prefixed_name i (c_name c)).
  set (name := prefixed_name i (c_name c)) in *. cbv zeta. fold dir.
  apply post_bind, post_mkdir; [apply prefixed_component| |].
  { intros e Hno. split; [apply extends_refl|]. split; [done|].
    intros (? & ? & _ & ? & _). destruct Hno. by split_and!. }
  intros Hcwd Hnone Hnul. fold dir in Hnone |- *.
  match goal with |- post _ ?w' _ => set (w1 := w') end.
  assert (Hw1 : extends dir w w1)
    by (apply extends_insert; [done|by apply not_dir_of_none]).
  assert (Hdir1 : is_dir (tree w1) dir = true) by apply is_dir_insert_new.
  assert (Hparent : parent dir = cwd w) by apply parent_snoc.
  assert (Hcwd1 : is_dir (tree w1) (cwd w) = true)
    by by apply (extends_dirs _ _ _ Hw1).
  apply post_bind, post_chdir; [apply prefixed_component| |].
  { intros e Hno. split; [done|]. split; [done|].
    intros _. destruct Hno. by split_and!. }
  intros _. fold dir.
  apply post_bind, post_print, post_bind, post_print.
  match goal with |- post _ ?w' _ => set (w2 := w') end.
  assert (Hw2 : extends dir w w2)
    by (eapply extends_trans; [exact Hw1|by apply extends_same_tree]).
  assert (Hcwd2 : cwd w2 = dir) by done.
  assert (Hnew : (∀ s, tree w !! (dir ++ [s]) = None) →
                 ∀ s, tree w2 !! (dir ++ [s]) = None).
  { intros Hbelow s. cbn. rewrite lookup_insert_ne; [apply Hbelow|].
    intros Heq. apply (f_equal length) in Heq.
    rewrite length_app in Heq. cbn in Heq. lia. }
  apply post_bind, post_write_json; [apply component_card_json| |].
  { rewrite Hcwd2. intros e Hno. split; [done|]. split; [done|].
    intros (_ & _ & Hbelow & _). destruct Hno. split; [done|].
    split; [by apply not_dir_of_none, Hnew|].
    apply (bool_decide_unpack _). by vm_compute. }
  rewrite Hcwd2. intros w3 _ _ Hext3 Hcwd3 Hjson.
  assert (Hw3 : extends dir w w3).
  { eapply extends_trans; [exact Hw2|].
    eapply extends_weaken; [|exact Hext3]. by apply prefix_app_r. }
  apply post_bind, post_write_text; [apply component_description_md| |].
  { rewrite Hcwd3. intros e w4 Hext4 _ Hno. split.
    { eapply extends_trans; [exact Hw3|].
      eapply extends_weaken; [|exact Hext4]. by apply prefix_app_r. }
    split; [done|]. intros (_ & _ & Hbelow & _ & Henc & _). destruct Hno.
    split; [by apply (extends_dirs _ _ _ Hext3)|].
    split.
    { apply not_dir_of_none. rewrite (extends_frame _ _ _ Hext3).
      - by apply Hnew.
      - by apply (prefix_snoc_ne dir _ _ []). }
    split; [apply (bool_decide_unpack _); by vm_compute|done]. }
  rewrite Hcwd3. intros w4 _ _ _ Hext4 Hcwd4 Htext.
  assert (Hw4 : extends dir w w4).
  { eapply extends_trans; [exact Hw3|].
    eapply extends_weaken; [|exact Hext4]. by apply prefix_app_r. }
  assert (Hjson4 : holds w4 (dir ++ [lit "card.json"]) (Json (OCard c))).
  { eapply holds_extends; [exact Hext4| |exact Hjson].
    by apply (prefix_snoc_ne dir _ _ []). }
  assert (Hdir4 : is_dir (tree w4) dir = true).
  { apply (extends_dirs _ _ _ Hext4), (extends_dirs _ _ _ Hext3). exact Hdir1. }
  apply post_bind.
  eapply post_mono.
  { apply post_conj; [apply download_attachments_post|].
    apply (post_elim_eq (download_attachments c attachment_size) w4). }
  cbv beta. rewrite Hcwd4. intros r w5 [[Hext5 Hcwd5] Hrun].
  assert (Hw5 : extends dir w w5).
  { eapply extends_trans; [exact Hw4|].
    eapply extends_weaken; [|exact Hext5]. by apply prefix_app_r. }
  destruct r as [[]|e|code].
  2,3: split; [done|]; split; [done|];
       intros (_ & _ & _ & _ & _ & m & -> & Hsel);
       by rewrite (download_attachments_nothing _ _ _ Hsel) in Hrun.
  assert (Hdir5 : is_dir (tree w5) dir = true)
    by by apply (extends_dirs _ _ _ Hext5).
  apply post_chdir_up.
  { intros e Hno. split; [done|]. split; [done|]. intros _. destruct Hno.
    rewrite Hcwd5, Hparent by done. split; [done|].
    by apply (extends_dirs _ _ _ Hw5). }
  split; [by eapply extends_trans; [exact Hw5|apply extends_same_tree]|].
  split; [|done].
  intros _. cbn. rewrite Hcwd5 by done. split; [apply parent_snoc|].
  do 3 (split; [done|]).
  split; [exact Hdir5|]. split.
  - change (holds w5 (dir ++ [lit "card.json"]) (Json (OCard c))).
    eapply (holds_extends _ w4); [exact Hext5| |exact Hjson4].
    by apply (prefix_snoc_ne dir _ _ []).
  - change (holds w5 (dir ++ [lit "description.md"]) (Text (c_desc c))).
    eapply (holds_extends _ w4); [exact Hext5| |exact Htext].
    by apply (prefix_snoc_ne dir _ _ []).
Qed.

End cards.

Section card_theorems.

Implicit Types (w : World) (c : Card) (i : nat).

(** X10: Whatever happens in [backup_card], nothing changes outside the card's
    own directory; when it returns, the working directory is the one it
    started from, the directory is new and holds the card as [card.json]
    and its description, as it is, as [description.md]. *)
Theorem backup_card_stays_below i c attachment_size w :
  let dir := cwd w ++ [prefixed_name i (c_name c)] in
  ∃ r w', backup_card i c attachment_size w = (r, w')
          ∧ extends dir w w'
          ∧ (r = Done tt →
             cwd w' = cwd w ∧ tree w !! dir = None ∧ exported w' dir c).
Proof.
  intros dir.
  pose proof (backup_card_post i c attachment_size w) as Hpost.
  cbv zeta in Hpost. unfold post in Hpost.
  destruct (backup_card i c attachment_size w) as [r w'].
  destruct Hpost as (Hext & Hdone & _). exists r, w'.
  split; [done|]. split; [done|]. intros Hr.
  destruct (Hdone Hr) as (? & _ & ? & _ & ? & ? & ?). unfold exported. by split_and!.
Qed.

(** A card that is exportable fits. *)
Lemma card_exportable_fits i c attachment_size w :
  card_exportable i c attachment_size w → card_fits i c attachment_size w.
Proof.
  intros (Hclosed & Hcwd & Hnone & Hnul & Henc & Hsel).
  unfold card_fits. split_and!; [done..| |done|done|done].
  intros s. apply eq_None_not_Some. intros Hdir%Hclosed.
  apply is_dir_snoc in Hdir as [r Hr]. by rewrite Hr in Hnone.
Qed.

(** X11: [backup_card] does export a card under the conditions of
    [card_exportable]. *)
Theorem backup_card_exports i c attachment_size w :
  card_exportable i c attachment_size w →
  let dir := cwd w ++ [prefixed_name i (c_name c)] in
  ∃ w', backup_card i c attachment_size w = (Done tt, w')
        ∧ cwd w' = cwd w ∧ exported w' dir c ∧ extends dir w w'.
Proof.
  intros Hok dir.
  pose proof (backup_card_post i c attachment_size w) as Hpost.
  cbv zeta in Hpost. unfold post in Hpost.
  destruct (backup_card i c attachment_size w) as [r w'].
  destruct Hpost as (Hext & Hdone & Hsucceeds). cbn [fst snd] in *.
  rewrite (Hsucceeds (card_exportable_fits _ _ _ _ Hok)) in *. exists w'.
  destruct (Hdone eq_refl) as (? & _ & ? & _ & ? & ? & ?).
  unfold exported. by split_and!.
Qed.

Lemma closed_home r : closed (tree (Examples.home r)).
Proof.
  intros p s [e He]. cbn in He.
  apply lookup_singleton_Some in He as [Hp _].
  destruct p as [|? [|]]; try done. 
Qed.

Lemma backup_card_exports_witness :
  let c := Examples.card "Fix bug" "L1" 2 [] in
  let w := Examples.home (Examples.serving Examples.sprint CallFails) in
  ∃ w', backup_card 1 c (Some 10%Z) w = (Done tt, w')
        ∧ exported w' [lit "home"; lit "1_Fix bug"] c.
Proof.
  intros c w.
  destruct (backup_card_exports 1 c (Some 10%Z) w) as (w' & Hrun & _ & Hexp & _).
  - split; [apply closed_home|]. split; [reflexivity|].
    split; [vm_compute; reflexivity|].
    split; [apply (bool_decide_unpack _); vm_compute; exact I|].
    split; [reflexivity|]. exists 10%Z. split; reflexivity.
  - exists w'. split; [exact Hrun|exact Hexp].
Defined.

Lemma mkdir_exists s w :
  component s → NUL ∉ s → is_dir (tree w) (cwd w) = true →
  is_Some (tree w !! (cwd w ++ [s])) →
  mkdir s w = (Raised FileExistsError, w).
Proof.
  intros Hs Hnul Hcwd Hex. unfold mkdir.
  rewrite strip_slashes_no_slash by apply Hs.
  replace (match s with [] => s | c :: r => c :: r end) with s
    by by destruct s.
  rewrite locate_component, bool_decide_eq_false_2, Hcwd by done.
  by rewrite exists_at_snoc, bool_decide_eq_true_2.
Qed.

(** X12: A name that is taken: [backup_card] raises [FileExistsError] and changes
    nothing. *)
Theorem backup_card_name_taken i c attachment_size w :
  is_dir (tree w) (cwd w) = true →
  NUL ∉ c_name c →
  is_Some (tree w !! (cwd w ++ [prefixed_name i (c_name c)])) →
  backup_card i c attachment_size w = (Raised FileExistsError, w).
Proof.
  intros Hcwd Hnul Hex. unfold backup_card, bind.
  fold (prefixed_name i (c_name c)).
  rewrite mkdir_exists; [done|apply prefixed_component| |done..].
  by intros ?%prefixed_nul.
Qed.

(** X13: Two cards of one list whose names are the same and 255 characters or
    longer: the second one finds the directory of the first and the export
    stops with [FileExistsError]. *)
Theorem same_long_name_stops_the_export i j c1 c2 attachment_size w w1 :
  255 ≤ length (c_name c1) → c_name c2 = c_name c1 →
  backup_card i c1 attachment_size w = (Done tt, w1) →
  backup_card j c2 attachment_size w1 = (Raised FileExistsError, w1).
Proof.
  intros Hlong Hname Hrun.
  pose proof (backup_card_post i c1 attachment_size w) as Hpost.
  cbv zeta in Hpost. unfold post in Hpost. rewrite Hrun in Hpost.
  destruct Hpost as (Hext & Hdone & _).
  destruct (Hdone eq_refl) as (Hcwd1 & Hcwd & _ & Hnul & Hdir & _).
  cbn [fst snd] in *.
  assert (Hsame : prefixed_name j (c_name c2) = prefixed_name i (c_name c1)).
  { rewrite Hname. by rewrite !prefixed_long. }
  unfold backup_card, bind. fold (prefixed_name j (c_name c2)).
  rewrite Hsame, mkdir_exists; [done|apply prefixed_component|done|..].
  - rewrite Hcwd1. by apply (extends_dirs _ _ _ Hext).
  - rewrite Hcwd1. apply is_dir_snoc in Hdir as [r Hr]. by rewrite Hr.
Qed.

End card_theorems.

(** ** Lists of a board *)

Section lists.

Implicit Types (w : World) (c : Card) (ls : TrelloList) (i j : nat)
  (root dir : list (list N)).

Lemma exported_extends root w w' dir c :
  extends root w w' →
  ¬ root `prefix_of` dir ++ [lit "card.json"] →
  ¬ root `prefix_of` dir ++ [lit "description.md"] →
  exported w dir c → exported w' dir c.
Proof.
  intros Hext H1 H2 (Hd & Hj & Ht). split_and!.
  - by apply (extends_dirs _ _ _ Hext).
  - by eapply holds_extends.
  - by eapply holds_extends.
Qed.

Lemma name_of_new_differs (t : gmap (list (list N)) Entry) dir s s' :
  t !! (dir ++ [s']) = None → is_dir t (dir ++ [s]) = true → s' ≠ s.
Proof.
  intros Hnone Hd ->. apply is_dir_snoc in Hd as [r Hr]. by rewrite Hr in Hnone.
Qed.

Lemma elem_of_enumerate {A} (xs : list A) k x :
  (k, x) ∈ enumerate xs ↔ xs !! k = Some x.
Proof.
  split.
  - intros [m Hm]%list_elem_of_lookup. rewrite enumerate_lookup in Hm.
    destruct (xs !! m) as [y|] eqn:Hy; [|done]. by injection Hm as <- <-.
  - intros Hk. apply list_elem_of_lookup. exists k.
    by rewrite enumerate_lookup, Hk.
Qed.

(** What [backup_list] leaves behind. *)
Lemma backup_list_post lists attachment_size i ls w :
  let dir := cwd w ++ [prefixed_name i (l_name ls)] in
  post (backup_list lists attachment_size i ls) w (λ r w',
    extends dir w w'
    ∧ (r = Done tt →
       cwd w' = cwd w
       ∧ tree w !! dir = None
       ∧ is_dir (tree w') dir = true
       ∧ ∀ j c, cards_of lists ls !! j = Some c →
                exported w' (dir ++ [prefixed_name j (c_name c)]) c)).
Proof.
  intros dir. unfold backup_list. fold (prefixed_name i (l_name ls)).
  set (name := prefixed_name i (l_name ls)) in *. cbv zeta. fold dir.
  apply post_bind, post_mkdir; [apply prefixed_component| |].
  { intros e _. split; [apply extends_refl|done]. }
  intros Hcwd Hnone Hnul. fold dir in Hnone |- *.
  match goal with |- post _ ?w' _ => set (w1 := w') end.
  assert (Hw1 : extends dir w w1)
    by (apply extends_insert; [done|by apply not_dir_of_none]).
  assert (Hdir1 : is_dir (tree w1) dir = true) by apply is_dir_insert_new.
  apply post_bind, post_chdir; [apply prefixed_component| |].
  { intros e _. by split. }
  intros _. fold dir.
  match goal with |- post _ ?w' _ => set (w2 := w') end.
  apply post_bind. eapply post_mono.
  { apply (post_for_each
             (λ before w3,
                extends dir w w3 ∧ cwd w3 = dir ∧ is_dir (tree w3) dir = true
                ∧ ∀ j c, (j, c) ∈ before →
                         exported w3 (dir ++ [prefixed_name j (c_name c)]) c)
             (λ w3, extends dir w w3)).
    - split_and!; [|done|done|by intros ?? ?%elem_of_nil].
      eapply extends_trans; [exact Hw1|by apply extends_same_tree].
    - intros before [j c] after w3 _ (Hext & Hcwd3 & Hdir3 & Hbefore).
      eapply post_mono; [apply backup_card_post|].
      cbv zeta. rewrite Hcwd3. intros r w4 (Hext4 & Hdone & _).
      assert (Hw4 : extends dir w w4).
      { eapply extends_trans; [exact Hext|].
        eapply extends_weaken; [|exact Hext4]. by apply prefix_app_r. }
      destruct r as [[]|e|code]; [|done..].
      destruct (Hdone eq_refl) as (Hcwd4 & _ & Hnew & _ & Hd4 & Hj4 & Ht4).
      split_and!; [done|congruence|by apply (extends_dirs _ _ _ Hext4)|].
      intros j' c' [Hin|[= -> ->]%list_elem_of_singleton]%elem_of_app;
        [|by split_and!].
      specialize (Hbefore _ _ Hin).
      assert (Hne : prefixed_name j (c_name c) ≠ prefixed_name j' (c_name c'))
        by (eapply name_of_new_differs; [exact Hnew|apply Hbefore]).
      eapply exported_extends; [exact Hext4| | |exact Hbefore];
        rewrite <- (assoc_L (++)); by apply prefix_snoc_ne. }
  intros [[]|e|code] w3; cbv beta iota; [|by intros ?; split..].
  intros (Hext & Hcwd3 & Hdir3 & Hall). apply post_chdir_up.
  { intros e _. by split. }
  split; [by eapply extends_trans; [exact Hext|apply extends_same_tree]|].
  intros _. cbn. rewrite Hcwd3. split; [apply parent_snoc|].
  split; [done|]. split; [done|].
  intros j c Hjc. apply (Hall j c). by apply elem_of_enumerate.
Qed.

End lists.

Section boards.

Implicit Types (w : World) (c : Card) (ls : TrelloList) (i j : nat)
  (root dir : list (list N)).

(** What lines 127-144 leave behind. *)
Lemma backup_lists_post board_details args w :
  post (backup_lists board_details args) w (λ r w',
    extends (cwd w) w w'
    ∧ (r = Done tt →
       cwd w' = cwd w
       ∧ (∀ s rest, is_Some (tree w !! (cwd w ++ [s])) →
                    tree w' !! (cwd w ++ s :: rest)
                    = tree w !! (cwd w ++ s :: rest))
       ∧ ∀ i ls, bd_lists board_details !! i = Some ls →
           let list_dir := cwd w ++ [prefixed_name i (l_name ls)] in
           tree w !! list_dir = None
           ∧ is_dir (tree w') list_dir = true
           ∧ ∀ j c,
               cards_of (cards_by_list (bd_cards board_details)) ls !! j
               = Some c →
               exported w' (list_dir ++ [prefixed_name j (c_name c)]) c)).
Proof.
  unfold backup_lists. set (lists := cards_by_list _).
  set (R := cwd w). eapply post_mono.
  { apply (post_for_each
      (λ before w1,
         extends R w w1 ∧ cwd w1 = R
         ∧ (∀ s rest, is_Some (tree w !! (R ++ [s])) →
                      tree w1 !! (R ++ s :: rest) = tree w !! (R ++ s :: rest))
         ∧ ∀ i ls, (i, ls) ∈ before →
             tree w !! (R ++ [prefixed_name i (l_name ls)]) = None
             ∧ is_dir (tree w1) (R ++ [prefixed_name i (l_name ls)]) = true
             ∧ ∀ j c, cards_of lists ls !! j = Some c →
                 exported w1 ((R ++ [prefixed_name i (l_name ls)])
                              ++ [prefixed_name j (c_name c)]) c)
      (λ w1, extends R w w1)).
    - split_and!; [apply extends_refl|done|done|by intros ?? ?%elem_of_nil].
    - intros before [i ls] after w1 _ (Hext & Hcwd1 & Hkept & Hbefore).
      eapply post_mono; [apply backup_list_post|].
      cbv zeta. rewrite Hcwd1. intros r w2 (Hext2 & Hdone).
      assert (Hw2 : extends R w w2).
      { eapply extends_trans; [exact Hext|].
        eapply extends_weaken; [|exact Hext2]. by apply prefix_app_r. }
      destruct r as [[]|e|code]; [|done..].
      destruct (Hdone eq_refl) as (Hcwd2 & Hnew & Hd2 & Hcards).
      assert (Hfresh : tree w !! (R ++ [prefixed_name i (l_name ls)]) = None).
      { apply eq_None_not_Some. intros Hsome.
        specialize (Hkept _ [] Hsome). rewrite Hnew in Hkept.
        rewrite <- Hkept in Hsome. by apply is_Some_None in Hsome. }
      split_and!; [done|congruence| |].
      + intros s rest Hsome. rewrite <- (Hkept s rest Hsome).
        apply (extends_frame _ _ _ Hext2). apply prefix_snoc_ne.
        intros <-. rewrite Hfresh in Hsome. by apply is_Some_None in Hsome.
      + intros i' ls' [Hin|[= -> ->]%list_elem_of_singleton]%elem_of_app;
          [|by split_and!].
        destruct (Hbefore _ _ Hin) as (Hnone' & Hdir' & Hcards').
        assert (Hne : prefixed_name i (l_name ls)
                      ≠ prefixed_name i' (l_name ls'))
          by (eapply name_of_new_differs; [exact Hnew|exact Hdir']).
        split_and!; [done|by apply (extends_dirs _ _ _ Hext2)|].
        intros j c Hjc.
        eapply exported_extends; [exact Hext2| | |by apply Hcards'];
          rewrite <- !(assoc_L (++)); by apply prefix_snoc_ne. }
  intros [[]|e|code] w1; cbv beta iota; [|by intros ?; split..].
  intros (Hext & Hcwd1 & Hkept & Hall). split; [done|]. intros _.
  split; [done|]. split; [done|].
  intros i ls Hils. apply (Hall i ls). by apply elem_of_enumerate.
Qed.

Lemma component_full_json s :
  SLASH ∉ s → component (s ++ lit "_full.json").
Proof.
  intros Hs. split_and!.
  - rewrite elem_of_app. intros [?|H]; [done|].
    by apply (bool_decide_pack _) in H.
  - by destruct s.
  - intros H%(f_equal length). rewrite length_app in H. cbn in H. lia.
  - intros H%(f_equal length). rewrite length_app in H. cbn in H. lia.
Qed.

(** What [backup_board] leaves behind, for a board whose detail is
    [board_details]. *)
Lemma backup_board_post board args w board_details :
  board_detail (remote w) (requests_made w) (board_url w board args)
  = Some board_details →
  let board_dir := sanitize_file_name (bd_name board_details) in
  let dir := cwd w ++ [board_dir] in
  component board_dir →
  post (backup_board board args) w (λ r w',
    extends dir w w'
    ∧ (r = Done tt →
       cwd w' = cwd w
       ∧ tree w !! dir = None
       ∧ is_dir (tree w') dir = true
       ∧ holds w' (dir ++ [board_dir ++ lit "_full.json"])
               (Json (OBoard board_details))
       ∧ ∀ i ls, bd_lists board_details !! i = Some ls →
           let list_dir := dir ++ [prefixed_name i (l_name ls)] in
           is_dir (tree w') list_dir = true
           ∧ ∀ j c,
               cards_of (cards_by_list (bd_cards board_details)) ls !! j
               = Some c →
               exported w' (list_dir ++ [prefixed_name j (c_name c)]) c)).
Proof.
  intros Hreply board_dir dir Hcomp. unfold backup_board.
  apply post_bind. unfold post at 1, get_world. cbn [fst snd].
  apply post_bind, post_requests_get_json. rewrite Hreply.
  cbv zeta. fold board_dir.
  apply post_bind, post_mkdir; [done| |].
  { intros e _. split; [by apply extends_same_tree|done]. }
  cbn [tree cwd tick]. intros Hcwd Hnone Hnul. fold dir in Hnone |- *.
  match goal with |- post _ ?w' _ => set (w1 := w') end.
  assert (Hw1 : extends dir w w1).
  { eapply (extends_trans _ _ (tick w)); [by apply extends_same_tree|].
    apply (extends_insert dir (tick w)); [done|by apply not_dir_of_none]. }
  assert (Hdir1 : is_dir (tree w1) dir = true) by apply is_dir_insert_new.
  apply post_bind, post_chdir; [done| |].
  { intros e _. by split. }
  intros _. cbn [cwd set_tree tick]. fold dir.
  apply post_bind, post_print.
  match goal with |- post _ ?w' _ => set (w2 := w') end.
  assert (Hw2 : extends dir w w2)
    by (eapply extends_trans; [exact Hw1|by apply extends_same_tree]).
  assert (Hcwd2 : cwd w2 = dir) by done.
  apply post_bind, post_write_json;
    [apply component_full_json, Hcomp| |].
  { intros e _. by split. }
  rewrite Hcwd2. intros w3 _ _ Hext3 Hcwd3 Hjson.
  assert (Hw3 : extends dir w w3).
  { eapply extends_trans; [exact Hw2|].
    eapply extends_weaken; [|exact Hext3]. by apply prefix_app_r. }
  apply post_bind. eapply post_mono; [apply backup_lists_post|].
  rewrite Hcwd3. intros r w4 (Hext4 & Hdone).
  assert (Hw4 : extends dir w w4) by by eapply extends_trans.
  destruct r as [[]|e|code]; [|by split..].
  destruct (Hdone eq_refl) as (Hcwd4 & Hkept & Hlists).
  apply post_chdir_up.
  { intros e _. by split. }
  split; [by eapply extends_trans; [exact Hw4|apply extends_same_tree]|].
  intros _. cbn [cwd set_cwd tree]. rewrite Hcwd4. split; [apply parent_snoc|].
  split; [done|]. split.
  { apply (extends_dirs _ _ _ Hext4), (extends_dirs _ _ _ Hext3). exact Hdir1. }
  split.
  - destruct Hjson as (e & He & Hn). exists e. split; [|done].
    etrans; [|exact He]. apply (Hkept _ []). rewrite He. by eexists.
  - intros i ls Hils. destruct (Hlists i ls Hils) as (_ & ? & ?). by split.
Qed.

End boards.

Section board_theorems.

Implicit Types (w : World) (c : Card) (ls : TrelloList) (i j : nat).

(** X14: When lines 127-144 end normally, the working directory is the one they
    started from, every list of the board has its directory, named after its
    ordinal in the board's list collection, and every card handed to
    [backup_card] is exported in it under its ordinal in that list; entries
    that were in the working directory before are as they were. *)
Theorem backup_lists_exports board_details args w w' :
  backup_lists board_details args w = (Done tt, w') →
  cwd w' = cwd w
  ∧ extends (cwd w) w w'
  ∧ (∀ s rest, is_Some (tree w !! (cwd w ++ [s])) →
               tree w' !! (cwd w ++ s :: rest) = tree w !! (cwd w ++ s :: rest))
  ∧ ∀ i ls, bd_lists board_details !! i = Some ls →
      let list_dir := cwd w ++ [prefixed_name i (l_name ls)] in
      is_dir (tree w') list_dir = true
      ∧ ∀ j c,
          cards_of (cards_by_list (bd_cards board_details)) ls !! j = Some c →
          exported w' (list_dir ++ [prefixed_name j (c_name c)]) c.
Proof.
  intros Hrun. pose proof (backup_lists_post board_details args w) as Hpost.
  unfold post in Hpost. rewrite Hrun in Hpost. cbn [fst snd] in Hpost.
  destruct Hpost as (Hext & Hdone).
  destruct (Hdone eq_refl) as (Hcwd & Hkept & Hlists).
  split_and!; [done..|].
  intros i ls Hils. destruct (Hlists i ls Hils) as (_ & ? & ?). by split.
Qed.

(** X15: [backup_board] on a board whose name gives a usable directory name:
    nothing changes outside the board's directory, and when it ends normally
    the working directory is as before, the directory is new and holds the
    full dump of the board and, list by list, the exported cards. *)
Theorem backup_board_exports board args w board_details :
  board_detail (remote w) (requests_made w) (board_url w board args)
  = Some board_details →
  let board_dir := sanitize_file_name (bd_name board_details) in
  let dir := cwd w ++ [board_dir] in
  component board_dir →
  ∃ r w', backup_board board args w = (r, w')
    ∧ extends dir w w'
    ∧ (r = Done tt →
       cwd w' = cwd w
       ∧ tree w !! dir = None
       ∧ is_dir (tree w') dir = true
       ∧ holds w' (dir ++ [board_dir ++ lit "_full.json"])
               (Json (OBoard board_details))
       ∧ ∀ i ls, bd_lists board_details !! i = Some ls →
           let list_dir := dir ++ [prefixed_name i (l_name ls)] in
           is_dir (tree w') list_dir = true
           ∧ ∀ j c,
               cards_of (cards_by_list (bd_cards board_details)) ls !! j
               = Some c →
               exported w' (list_dir ++ [prefixed_name j (c_name c)]) c).
Proof.
  intros Hreply board_dir dir Hcomp.
  pose proof (backup_board_post board args w board_details Hreply Hcomp) as Hpost.
  cbv zeta in Hpost. unfold post in Hpost.
  destruct (backup_board board args w) as [r w']. by exists r, w'.
Qed.

(** A detail request that fails ends [backup_board] with the exception
    before anything is created. *)
Lemma backup_board_request_fails board args w :
  board_detail (remote w) (requests_made w) (board_url w board args) = None →
  backup_board board args w = (Raised RequestException, tick w).
Proof.
  intros Hreply. unfold backup_board, bind, get_world, requests_get_json.
  by rewrite Hreply.
Qed.

Lemma snoc_cases {A} (l : list A) : l = [] ∨ ∃ l' x, l = l' ++ [x].
Proof. induction l using rev_ind; [by left|right; eauto]. Qed.

Lemma closed_parent_exists w :
  closed (tree w) → is_dir (tree w) (cwd w) = true →
  exists_at (tree w) (parent (cwd w)) = true.
Proof.
  intros Hclosed Hcwd. destruct (snoc_cases (cwd w)) as [->|(p & s & Hp)]; [done|].
  rewrite Hp in *. rewrite parent_snoc. apply is_dir_exists, (Hclosed p s).
  apply is_dir_snoc in Hcwd as [r Hr]. by rewrite Hr.
Qed.

(** The three names no directory can be made under. *)
Lemma mkdir_reserved s w :
  s ∈ [lit ""; lit "."; lit ".."] →
  (is_dir (tree w) (cwd w) = true → exists_at (tree w) (parent (cwd w)) = true) →
  ∃ e, mkdir s w = (Raised e, w).
Proof.
  intros Hs Hparent. unfold mkdir.
  apply elem_of_cons in Hs as [->|Hs]; [by eexists|].
  assert (Hstrip : strip_slashes s = s).
  { apply strip_slashes_no_slash. intros Hin.
    repeat (apply elem_of_cons in Hs as [->|Hs];
            [by apply (bool_decide_pack _) in Hin|]).
    by apply elem_of_nil in Hs. }
  rewrite Hstrip.
  assert (Hs' : s = lit "." ∨ s = lit "..").
  { apply elem_of_cons in Hs as [->|Hs]; [by left|].
    apply elem_of_cons in Hs as [->|Hs]; [by right|]. by apply elem_of_nil in Hs. }
  replace (match s with [] => s | c :: r => c :: r end) with s by by destruct s.
  rewrite locate_one.
  2-4: destruct Hs' as [-> | ->]; try done;
       (apply (bool_decide_unpack _); by vm_compute).
  unfold step. destruct (is_dir (tree w) (cwd w)) eqn:Hcwd; cbn [negb];
    [|by eexists].
  destruct Hs' as [-> | ->].
  - rewrite bool_decide_eq_true_2 by by right.
    rewrite (is_dir_exists _ _ Hcwd). by eexists.
  - rewrite bool_decide_eq_false_2 by (by intros [|]).
    rewrite bool_decide_eq_true_2 by done.
    rewrite Hparent by done. by eexists.
Qed.

Lemma not_component_reserved s :
  SLASH ∉ s → ¬ component s → s ∈ [lit ""; lit "."; lit ".."].
Proof.
  intros Hslash Hno.
  destruct (decide (s = [])) as [->|?]; [left|].
  destruct (decide (s = lit ".")) as [->|?]; [right; left|].
  destruct (decide (s = lit "..")) as [->|?]; [right; right; left|].
  destruct Hno. by split_and!.
Qed.

(** X16: A board called by one of the names no directory can be made under (the
    board's directory carries no ordinal): [backup_board] raises right after
    the request and creates nothing. *)
Theorem backup_board_unusable_name board args w board_details :
  board_detail (remote w) (requests_made w) (board_url w board args)
  = Some board_details →
  closed (tree w) →
  bd_name board_details ∈ [lit ""; lit "."; lit ".."] →
  ∃ e, backup_board board args w = (Raised e, tick w).
Proof.
  intros Hreply Hclosed Hname.
  assert (Hdir : sanitize_file_name (bd_name board_details)
                 = bd_name board_details).
  { repeat (apply elem_of_cons in Hname as [->|Hname]; [by vm_compute|]).
    by apply elem_of_nil in Hname. }
  unfold backup_board, bind, get_world, requests_get_json.
  rewrite Hreply, Hdir.
  destruct (mkdir_reserved (bd_name board_details) (tick w) Hname) as [e He].
  { intros Hcwd. by apply (closed_parent_exists w). }
  rewrite He. by exists e.
Qed.

(** Whatever the board and the replies, [backup_board] changes nothing
    outside the working directory and, when it ends normally, is back in
    it. *)
Lemma backup_board_confined_post board args w :
  (is_dir (tree w) (cwd w) = true → exists_at (tree w) (parent (cwd w)) = true) →
  post (backup_board board args) w (λ r w',
    extends (cwd w) w w' ∧ (r = Done tt → cwd w' = cwd w)).
Proof.
  intros Hparent.
  destruct (board_detail (remote w) (requests_made w) (board_url w board args))
    as [board_details|] eqn:Hreply.
  2:{ unfold post. rewrite backup_board_request_fails by done.
      split; [by apply extends_same_tree|done]. }
  destruct (decide (component (sanitize_file_name (bd_name board_details))))
    as [Hcomp|Hno].
  - eapply post_mono; [by apply backup_board_post|].
    cbv zeta. intros r w' [Hext Hdone]. split.
    + eapply extends_weaken; [|exact Hext]. by apply prefix_app_r.
    + intros Hr. by destruct (Hdone Hr).
  - apply not_component_reserved in Hno; [|apply sanitize_no_slash].
    destruct (mkdir_reserved _ (tick w) Hno Hparent) as [e He].
    unfold post, backup_board, bind, get_world, requests_get_json.
    rewrite Hreply, He. split; [by apply extends_same_tree|done].
Qed.

End board_theorems.

(** ** The whole run *)

Section run.

Implicit Types (w : World) (args : Args).

Lemma post_access s w (Q : Outcome bool → World → Prop) :
  (∀ r, Q r w) → post (access_R_OK s) w Q.
Proof.
  intros HQ. unfold post, access_R_OK.
  destruct (locate w s) as [[]|[|]]; apply HQ.
Qed.

Lemma component_me : component (lit "me").
Proof. split_and!; [apply (bool_decide_unpack _)|..]; by vm_compute. Qed.

(** What [cli] leaves behind when organizations are not asked for. *)
Lemma cli_post args w :
  orgs args = false →
  let dest := cwd w ++ [resolved_dest_dir args w] in
  component (resolved_dest_dir args w) →
  post (cli args) w (λ r w',
    extends dest w w'
    ∧ (r = Done tt →
       cwd w' = dest
       ∧ tree w !! dest = None
       ∧ is_dir (tree w') (dest ++ [lit "me"]) = true
       ∧ last (stdout w') = Some (lit "Trello Full Backup Completed!"))).
Proof.
  intros Horgs dest Hcomp. unfold cli.
  apply post_bind. unfold post at 1, get_world. cbn [fst snd]. cbv zeta.
  set (dest_dir := resolved_dest_dir args w) in *.
  apply post_bind, post_access. intros [[|]|e|code]; [|  |by split; [apply extends_refl|]..].
  { apply post_bind, post_print. unfold post, sys_exit. cbn [fst snd].
    split; [by apply extends_same_tree|done]. }
  apply post_bind, post_mkdir; [done| |].
  { intros e _. split; [apply extends_refl|done]. }
  intros Hcwd Hnone Hnul. fold dest in Hnone |- *.
  match goal with |- post _ ?w' _ => set (w1 := w') end.
  assert (Hw1 : extends dest w w1)
    by (apply extends_insert; [done|by apply not_dir_of_none]).
  assert (Hd1 : is_dir (tree w1) dest = true) by apply is_dir_insert_new.
  apply post_bind, post_chdir; [done| |].
  { intros e _. by split. }
  intros _. fold dest.
  do 8 apply post_bind, post_print.
  match goal with |- post _ ?w' _ => set (w2 := w') end.
  assert (Hw2 : extends dest w w2)
    by (eapply extends_trans; [exact Hw1|by apply extends_same_tree]).
  apply post_bind, post_requests_get_json.
  destruct (board_index _ _ _) as [me|];
    [|split; [by eapply extends_trans; [exact Hw2|apply extends_same_tree]|done]].
  rewrite Horgs. apply post_bind, post_ret. cbn [fold_each].
  apply post_bind, post_ret. cbn [for_each]. apply post_bind, post_bind.
  set (w3 := tick w2).
  assert (Hw3 : extends dest w w3)
    by (eapply extends_trans; [exact Hw2|by apply extends_same_tree]).
  assert (Hcwd3 : cwd w3 = dest) by done.
  assert (Hd3 : is_dir (tree w3) dest = true) by done.
  apply post_bind, post_mkdir; [apply component_me| |].
  { intros e _. by split. }
  rewrite Hcwd3. intros _ Hnone_me _.
  match goal with |- post _ ?w' _ => set (w4 := w') end.
  assert (Hw4 : extends dest w w4).
  { eapply extends_trans; [exact Hw3|]. eapply extends_weaken;
      [|apply (extends_insert (dest ++ [lit "me"]) w3);
        [done|by apply not_dir_of_none]].
    by apply prefix_app_r. }
  assert (Hme4 : is_dir (tree w4) (dest ++ [lit "me"]) = true)
    by apply is_dir_insert_new.
  assert (Hd4 : is_dir (tree w4) dest = true).
  { apply (is_dir_insert_ne (tree w3)); [by apply not_dir_of_none|done]. }
  apply post_bind, post_chdir; [apply component_me| |].
  { intros e _. by split. }
  intros _. assert (Hcwd4 : cwd w4 = dest) by done. rewrite Hcwd4.
  match goal with |- post _ ?w' _ => set (w5 := w') end.
  apply post_bind. eapply post_mono.
  { apply (post_for_each
      (λ _ w6, extends dest w w6 ∧ cwd w6 = dest ++ [lit "me"]
               ∧ is_dir (tree w6) dest = true
               ∧ is_dir (tree w6) (dest ++ [lit "me"]) = true)
      (λ w6, extends dest w w6)).
    - split_and!; [|done..].
      eapply extends_trans; [exact Hw4|by apply extends_same_tree].
    - intros before board after w6 _ (Hext6 & Hcwd6 & Hd6 & Hme6).
      eapply post_mono.
      { apply backup_board_confined_post. intros _.
        rewrite Hcwd6, parent_snoc. by apply is_dir_exists. }
      rewrite Hcwd6. intros r w7 [Hext7 Hdone].
      assert (Hw7 : extends dest w w7).
      { eapply extends_trans; [exact Hext6|].
        eapply extends_weaken; [|exact Hext7]. by apply prefix_app_r. }
      destruct r as [[]|e|code]; [|done..].
      split_and!; [done|by apply Hdone|by apply (extends_dirs _ _ _ Hext7)..]. }
  intros [[]|e|code] w6; cbv beta iota; [|by intros ?; split..].
  intros (Hext6 & Hcwd6 & Hd6 & Hme6). apply post_chdir_up.
  { intros e _. by split. }
  apply post_ret, post_print.
  split; [by eapply extends_trans; [exact Hext6|apply extends_same_tree]|].
  intros _. cbn [cwd set_cwd set_stdout tree stdout].
  rewrite Hcwd6, parent_snoc. split_and!; [done..|].
  by rewrite last_snoc.
Qed.

End run.

Section run_theorems.

Implicit Types (w : World) (args : Args).

(** X18: Without [-o], and with a destination that is one name, [cli] changes
    nothing outside the destination directory; when it ends normally the
    destination is new, the process is left inside it, the directory [me] is
    in it and the last line printed is the completion message. *)
Theorem cli_stays_in_destination args w :
  orgs args = false →
  component (resolved_dest_dir args w) →
  let dest := cwd w ++ [resolved_dest_dir args w] in
  ∃ r w', cli args w = (r, w')
    ∧ extends dest w w'
    ∧ (r = Done tt →
       cwd w' = dest
       ∧ tree w !! dest = None
       ∧ is_dir (tree w') (dest ++ [lit "me"]) = true
       ∧ last (stdout w') = Some (lit "Trello Full Backup Completed!")).
Proof.
  intros Horgs Hcomp dest.
  pose proof (cli_post args w Horgs Hcomp) as Hpost.
  cbv zeta in Hpost. unfold post in Hpost.
  destruct (cli args w) as [r w']. by exists r, w'.
Qed.

Lemma access_component s w :
  component s → NUL ∉ s → is_dir (tree w) (cwd w) = true →
  access_R_OK s w
  = (Done (from_option r_ok false (tree w !! (cwd w ++ [s]))), w).
Proof.
  intros Hs Hnul Hcwd. unfold access_R_OK.
  rewrite locate_component, bool_decide_eq_false_2, Hcwd by done.
  by destruct (cwd w).
Qed.

(** X19: A destination that exists and is not readable passes the check of
    [os.access]; [os.mkdir] then raises [FileExistsError] and the run ends
    there, with nothing printed and nothing changed. *)
Theorem cli_unreadable_destination args w e :
  component (resolved_dest_dir args w) →
  NUL ∉ resolved_dest_dir args w →
  is_dir (tree w) (cwd w) = true →
  tree w !! (cwd w ++ [resolved_dest_dir args w]) = Some e →
  r_ok e = false →
  cli args w = (Raised FileExistsError, w).
Proof.
  intros Hcomp Hnul Hcwd He Hr. unfold cli, bind, get_world. cbv zeta.
  rewrite access_component by done. rewrite He. cbn [from_option]. rewrite Hr.
  rewrite mkdir_exists; [done..|]. by exists e.
Qed.

(** X20: The first request failing: the run ends with the exception, and the
    destination directory, just created and empty, stays behind with the
    process inside it. *)
Theorem cli_index_request_fails args w :
  component (resolved_dest_dir args w) →
  NUL ∉ resolved_dest_dir args w →
  is_dir (tree w) (cwd w) = true →
  tree w !! (cwd w ++ [resolved_dest_dir args w]) = None →
  board_index (remote w) (requests_made w)
              (TRELLO_API ++ lit "members/me/boards" ++ auth w) = None →
  let dest := cwd w ++ [resolved_dest_dir args w] in
  ∃ w', cli args w = (Raised RequestException, w')
        ∧ cwd w' = dest
        ∧ tree w' = <[dest := new_entry Dir]> (tree w).
Proof.
  intros Hcomp Hnul Hcwd Hnone Hreply dest.
  assert (Hpost : post (cli args) w (λ r w',
            r = Raised RequestException ∧ cwd w' = dest
            ∧ tree w' = <[dest := new_entry Dir]> (tree w))).
  { unfold cli. apply post_bind. unfold post at 1, get_world. cbn [fst snd].
    cbv zeta. apply post_bind. unfold post at 1.
    rewrite access_component by done. rewrite Hnone.
    cbn [fst snd from_option].
    apply post_bind, post_mkdir; [done| |].
    { intros e Hno. destruct Hno. by split_and!. }
    intros _ _ _. fold dest.
    apply post_bind, post_chdir; [done| |].
    { intros e Hno. destruct Hno. cbn [tree cwd set_tree]. fold dest.
      split_and!; [|apply is_dir_insert_new|done].
      apply is_dir_insert_ne; [by apply not_dir_of_none|done]. }
    intros _. do 8 apply post_bind, post_print.
    apply post_bind, post_requests_get_json.
    cbn [remote requests_made set_stdout set_cwd set_tree].
    by rewrite Hreply. }
  unfold post in Hpost. destruct (cli args w) as [r w'].
  cbn [fst snd] in Hpost. destruct Hpost as (-> & ? & ?). by exists w'.
Qed.

End run_theorems.

(** ** Smaller facts *)

Section smaller.

(** X1: [filter_boards] keeps the order of the index; with the flag it keeps
    every board, without it exactly the open ones. *)
Theorem filter_boards_spec (boards : list Board) (closed : bool) :
  filter_boards boards closed `sublist_of` boards
  ∧ (∀ b, b ∈ filter_boards boards closed
          ↔ b ∈ boards ∧ (b_closed b = false ∨ closed = true))
  ∧ (closed = true → filter_boards boards closed = boards).
Proof.
  unfold filter_boards. split_and!.
  - apply sublist_filter.
  - intros b. rewrite list_elem_of_filter, Is_true_true, orb_true_iff,
      negb_true_iff. tauto.
  - intros ->. apply filter_all, Forall_forall. intros b _.
    by rewrite orb_true_r.
Qed.

(** X6: [-a] given without a value makes the limit [None]: the first card with
    an attachment of known size stops the run with [TypeError] before
    anything of the attachments is created; a card without one passes. *)
Theorem download_attachments_without_limit (c : Card) (w : World) :
  download_attachments c None w
  = if bool_decide (Exists (λ a, is_Some (a_bytes a)) (c_attachments c))
    then (Raised TypeError, w) else (Done tt, w).
Proof.
  unfold download_attachments, bind, select_attachments.
  assert (H : existsb (λ a, bool_decide (is_Some (a_bytes a))) (c_attachments c)
              = bool_decide (Exists (λ a, is_Some (a_bytes a)) (c_attachments c))).
  { induction (c_attachments c) as [|a l IH]; [done|]. cbn [existsb].
    rewrite IH, <- bool_decide_or. apply bool_decide_ext.
    by rewrite Exists_cons. }
  rewrite H. by case_bool_decide.
Qed.

End smaller.

(** ** The last run of a list id *)

Section last_run.

Context {A K : Type} `{EqDecision K} (key : A → K).

Lemma groupby_head xs k g gs :
  groupby key xs = (k, g) :: gs → ∃ x xs', xs = x :: xs' ∧ key x = k.
Proof.
  destruct xs as [|x xs]; [done|]. rewrite groupby_cons.
  destruct (groupby key xs) as [|[k' g'] gs'].
  - intros [= <- _ _]. eauto.
  - case_decide; intros [= <- _ _]; eauto.
Qed.

(** Where the key changes, the groups of a concatenation are the groups of
    its parts. *)
Lemma groupby_app xs ys :
  (∀ x y, last xs = Some x → head ys = Some y → key x ≠ key y) →
  groupby key (xs ++ ys) = groupby key xs ++ groupby key ys.
Proof.
  induction xs as [|x xs IH]; intros Hboundary; [done|].
  cbn [app]. rewrite !groupby_cons. destruct xs as [|x' xs].
  - cbn [app groupby]. destruct (groupby key ys) as [|[k g] gs] eqn:Hys; [done|].
    destruct (groupby_head _ _ _ _ Hys) as (y & ys' & -> & Hk).
    rewrite decide_False; [done|]. rewrite <- Hk. by apply Hboundary.
  - rewrite IH by (intros ??; apply Hboundary).
    destruct (groupby key (x' :: xs)) as [|[k g] gs] eqn:Hxs.
    { rewrite groupby_cons in Hxs.
      destruct (groupby key xs) as [|[??] ?]; [done|by case_decide]. }
    cbn [app]. by case_decide.
Qed.

Lemma groupby_one_run xs k :
  xs ≠ [] → Forall (λ x, key x = k) xs → groupby key xs = [(k, xs)].
Proof.
  induction xs as [|x xs IH]; intros Hne Hall; [done|].
  inversion_clear Hall as [|?? Hx Hxs]. rewrite groupby_cons.
  destruct xs as [|x' xs]; [by rewrite <- Hx|].
  rewrite IH by done. by rewrite decide_True.
Qed.

Lemma groupby_key_elem xs k :
  k ∈ (groupby key xs).*1 → ∃ x, x ∈ xs ∧ key x = k.
Proof.
  revert k. induction xs as [|x xs IH]; intros k; [by intros ?%elem_of_nil|].
  rewrite groupby_cons. destruct (groupby key xs) as [|[k' g] gs].
  - intros ->%list_elem_of_singleton. exists x. split; [left|done].
  - assert (Hrest : k ∈ ((k', g) :: gs).*1 → ∃ y, y ∈ x :: xs ∧ key y = k).
    { intros (y & ? & ?)%IH. exists y. split; [by right|done]. }
    case_decide as Hk.
    + intros Hin. apply Hrest. by rewrite fmap_cons in *.
    + rewrite fmap_cons. intros [->|Hin]%elem_of_cons; [|by apply Hrest].
      exists x. split; [left|done].
Qed.

End last_run.

Section stability.

Context {A : Type} (key : A → Q).

Lemma filter_sorted_insert (q : Q) (x : A) (ys : list A) :
  filter (λ x, (key x == q)%Q) (sorted_insert key x ys)
  = filter (λ x, (key x == q)%Q) (x :: ys).
Proof.
  induction ys as [|y ys IH]; [done|].
  cbn [sorted_insert]. destruct (Qlt_le_dec (key y) (key x)) as [Hlt|Hle];
    [|done].
  rewrite (filter_cons _ y), IH, !(filter_cons _ x), (filter_cons _ y).
  destruct (decide (key x == q)%Q) as [Hx|Hx]; [|done].
  destruct (decide (key y == q)%Q) as [Hy|Hy]; [|done].
  rewrite Hx, Hy in Hlt. by apply Qlt_irrefl in Hlt.
Qed.

(** [sorted] is stable: cards of one position keep their order. *)
Lemma sorted_stable (q : Q) (xs : list A) :
  filter (λ x, (key x == q)%Q) (sorted key xs)
  = filter (λ x, (key x == q)%Q) xs.
Proof.
  induction xs as [|x xs IH]; [done|]. cbn [sorted foldr].
  fold (sorted key xs). by rewrite filter_sorted_insert, !filter_cons, IH.
Qed.

End stability.

(** ** Names, destination and files *)

Section more_facts.

Implicit Types (w : World) (s : list N).

(** X4: Whatever the display name holds (slashes, dots, nothing at all), the
    name made from it and an ordinal leads to an entry of the working
    directory itself: nothing is exported above or beside it. *)
Theorem prefixed_name_stays_in_directory (i : nat) (name : list N) w :
  is_dir (tree w) (cwd w) = true → NUL ∉ name →
  locate w (prefixed_name i name) = inr (cwd w ++ [prefixed_name i name]).
Proof.
  intros Hcwd Hnul.
  rewrite locate_component, bool_decide_eq_false_2, Hcwd;
    [done| |apply prefixed_component].
  by intros ?%prefixed_nul.
Qed.

Lemma replace_char_elem (a b : N) s : a ≠ b → a ∉ replace_char a b s.
Proof.
  intros Hab (c & Hc & _)%list_elem_of_fmap. by case_bool_decide; subst.
Qed.

Lemma replace_char_other (a b c : N) s :
  c ≠ b → c ∉ s → c ∉ replace_char a b s.
Proof.
  intros Hcb Hs (x & Hx & Hin)%list_elem_of_fmap.
  case_bool_decide; by subst.
Qed.

(** X23: [write_file] with [dumps=True] on a name of the working directory that
    is no directory: the file is created, or what it held is replaced, by
    the dump of the value; no other entry changes.  On a directory it raises
    [IsADirectoryError] and changes nothing. *)
Theorem write_file_replaces s obj w :
  component s → NUL ∉ s → is_dir (tree w) (cwd w) = true →
  let target := cwd w ++ [s] in
  (is_dir (tree w) target = false →
   ∃ w', write_file s obj true w = (Done tt, w')
         ∧ holds w' target (Json obj)
         ∧ (∀ p, p ≠ target → tree w' !! p = tree w !! p)
         ∧ cwd w' = cwd w)
  ∧ (is_dir (tree w) target = true →
     write_file s obj true w = (Raised IsADirectoryError, w)).
Proof.
  intros Hs Hnul Hcwd target.
  unfold write_file, bind, open_for_writing.
  rewrite locate_component, bool_decide_eq_false_2, Hcwd by done.
  fold target. split; intros Hd; rewrite Hd; [|done].
  unfold target at 1. rewrite parent_snoc, Hcwd. fold target.
  eexists. split; [reflexivity|]. cbn [tree cwd set_tree]. split_and!.
  - unfold holds. cbn. eexists.
    split; [by rewrite lookup_alter_eq, lookup_insert_eq|done].
  - intros p Hp. by rewrite lookup_alter_ne, lookup_insert_ne.
  - done.
Qed.

End more_facts.

Section closing.

(** X17: Whatever the board is called and whatever the replies are,
    [backup_board] changes nothing outside the working directory, and when
    it ends normally the working directory is the one it started from. *)
Theorem backup_board_stays_below (board : Board) (args : Args) (w : World) :
  closed (tree w) →
  ∃ r w', backup_board board args w = (r, w')
          ∧ extends (cwd w) w w'
          ∧ (r = Done tt → cwd w' = cwd w).
Proof.
  intros Hclosed.
  apply (post_elim _ _ (λ r w', extends (cwd w) w w'
                                ∧ (r = Done tt → cwd w' = cwd w))).
  apply backup_board_confined_post. by apply closed_parent_exists.
Qed.

End closing.

(** ** The theorems at work

    Each theorem above that has a hypothesis, applied to a small run. *)

Lemma run_outcome {A} (m : M A) (w : World) (r : Outcome A) :
  (m w).1 = r → m w = (r, (m w).2).
Proof. intros <-. apply surjective_pairing. Qed.

Ltac one_name :=
  split_and!; [apply (bool_decide_unpack _)|..]; vm_compute; done.

Ltac absent := apply (bool_decide_unpack _); vm_compute; exact I.

Lemma prefixed_name_stays_in_directory_witness :
  let w := Examples.home (Examples.serving Examples.sprint CallFails) in
  locate w (prefixed_name 0 (lit "../../etc/passwd"))
  = inr [lit "home"; lit "0_.._.._etc_passwd"].
Proof.
  intros w.
  rewrite (prefixed_name_stays_in_directory 0 (lit "../../etc/passwd") w);
    [reflexivity|reflexivity|absent].
Defined.

Lemma filter_boards_spec_witness :
  let boards := [ {| b_id := lit "b1"; b_closed := true |};
                  {| b_id := lit "b2"; b_closed := false |} ] in
  filter_boards boards true = boards.
Proof.
  intros boards.
  destruct (filter_boards_spec boards true) as (_ & _ & Hall).
  apply Hall. reflexivity.
Defined.

Lemma download_attachments_stays_below_witness :
  let c := Examples.card "card" "L1" 1
             [Examples.attachment "a.txt" (Some 5%Z)] in
  let w := Examples.home (Examples.serving Examples.sprint
                            (Response 200 [[Byte.x68]] true)) in
  cwd (download_attachments c (Some 10%Z) w).2 = cwd w.
Proof.
  intros c w.
  destruct (download_attachments_stays_below c (Some 10%Z) w)
    as (r & w' & Hrun & _ & Hcwd).
  rewrite Hrun. apply Hcwd.
  assert (H : (download_attachments c (Some 10%Z) w).1 = Done tt)
    by (vm_compute; reflexivity).
  rewrite Hrun in H. exact H.
Defined.

Lemma backup_card_stays_below_witness :
  let c := Examples.card "Add test" "L1" 1 [] in
  let w := Examples.home (Examples.serving Examples.sprint CallFails) in
  exported (backup_card 0 c (Some 10%Z) w).2 [lit "home"; lit "0_Add test"] c.
Proof.
  intros c w.
  destruct (backup_card_stays_below 0 c (Some 10%Z) w)
    as (r & w' & Hrun & _ & Hdone).
  rewrite Hrun. apply Hdone.
  assert (H : (backup_card 0 c (Some 10%Z) w).1 = Done tt)
    by (vm_compute; reflexivity).
  rewrite Hrun in H. exact H.
Defined.

Lemma backup_card_name_taken_witness :
  let c := Examples.card "a" "L1" 1 [] in
  let w0 := Examples.home (Examples.serving Examples.sprint CallFails) in
  let w := set_tree (<[ [lit "home"; lit "0_a"] := new_entry Dir ]> (tree w0)) w0 in
  backup_card 0 c (Some 10%Z) w = (Raised FileExistsError, w).
Proof.
  intros c w0 w. apply (backup_card_name_taken 0 c (Some 10%Z) w).
  - reflexivity.
  - absent.
  - vm_compute. eexists. reflexivity.
Defined.

Lemma same_long_name_stops_the_export_witness :
  let c := {| c_name := replicate 255 (chr "x"); c_idList := lit "L1";
              c_pos := 1; c_desc := lit ""; c_attachments := [] |} in
  let w := Examples.home (Examples.serving Examples.sprint CallFails) in
  let w1 := (backup_card 0 c (Some 10%Z) w).2 in
  backup_card 1 c (Some 10%Z) w1 = (Raised FileExistsError, w1).
Proof.
  intros c w w1.
  apply (same_long_name_stops_the_export 0 1 c c (Some 10%Z) w w1).
  - vm_compute. lia.
  - reflexivity.
  - apply (run_outcome (backup_card 0 c (Some 10%Z)) w (Done tt)).
    vm_compute. reflexivity.
Defined.

Lemma backup_lists_exports_witness :
  let w := Examples.home (Examples.serving Examples.sprint CallFails) in
  let w' := (backup_lists Examples.sprint Examples.default_args w).2 in
  cwd w' = cwd w
  ∧ exported w' [lit "home"; lit "0_Todo"; lit "0_Add test"]
             (Examples.card "Add test" "L1" 1 []).
Proof.
  intros w w'.
  destruct (backup_lists_exports Examples.sprint Examples.default_args w w')
    as (Hcwd & _ & _ & Hlists).
  - apply (run_outcome (backup_lists Examples.sprint Examples.default_args)
                       w (Done tt)).
    vm_compute. reflexivity.
  - split; [exact Hcwd|].
    destruct (Hlists 0 {| l_id := lit "L1"; l_name := lit "Todo" |} eq_refl)
      as [_ Hcards].
    apply (Hcards 0 (Examples.card "Add test" "L1" 1 [])).
    vm_compute. reflexivity.
Defined.

Lemma backup_board_exports_witness :
  let w := Examples.home (Examples.serving Examples.sprint CallFails) in
  let board := {| b_id := lit "b1"; b_closed := false |} in
  let w' := (backup_board board Examples.default_args w).2 in
  holds w' [lit "home"; lit "Sprint"; lit "Sprint_full.json"]
        (Json (OBoard Examples.sprint)).
Proof.
  intros w board w'.
  destruct (backup_board_exports board Examples.default_args w Examples.sprint)
    as (r & w'' & Hrun & _ & Hdone).
  - reflexivity.
  - one_name.
  - assert (H : (backup_board board Examples.default_args w).1 = Done tt)
      by (vm_compute; reflexivity).
    subst w'. rewrite Hrun in H |- *. cbn [fst snd] in *.
    destruct (Hdone H) as (_ & _ & _ & Hfull & _). exact Hfull.
Defined.

Lemma backup_board_unusable_name_witness :
  let dot := {| bd_name := lit "."; bd_lists := []; bd_cards := [] |} in
  let w := Examples.home (Examples.serving dot CallFails) in
  let board := {| b_id := lit "b1"; b_closed := false |} in
  ∃ e, backup_board board Examples.default_args w = (Raised e, tick w).
Proof.
  intros dot w board.
  apply (backup_board_unusable_name board Examples.default_args w dot).
  - reflexivity.
  - apply closed_home.
  - apply (bool_decide_unpack _). vm_compute. exact I.
Defined.

Lemma backup_board_stays_below_witness :
  let w := Examples.home (Examples.serving Examples.interleaved CallFails) in
  let board := {| b_id := lit "b1"; b_closed := false |} in
  cwd (backup_board board Examples.default_args w).2 = cwd w.
Proof.
  intros w board.
  destruct (backup_board_stays_below board Examples.default_args w)
    as (r & w' & Hrun & _ & Hcwd); [apply closed_home|].
  rewrite Hrun. apply Hcwd.
  assert (H : (backup_board board Examples.default_args w).1 = Done tt)
    by (vm_compute; reflexivity).
  rewrite Hrun in H. exact H.
Defined.

Lemma cli_stays_in_destination_witness :
  let w := Examples.home (Examples.serving Examples.sprint CallFails) in
  cwd (cli Examples.default_args w).2
  = [lit "home"; lit "2024-05-06_07-08-09_backup"].
Proof.
  intros w.
  destruct (cli_stays_in_destination Examples.default_args w)
    as (r & w' & Hrun & _ & Hdone).
  - reflexivity.
  - one_name.
  - assert (H : (cli Examples.default_args w).1 = Done tt)
      by (vm_compute; reflexivity).
    rewrite Hrun in H |- *. cbn [fst snd] in *.
    destruct (Hdone H) as (Hcwd & _). rewrite Hcwd. reflexivity.
Defined.

Lemma cli_unreadable_destination_witness :
  let args :=
    {| d := Some (lit "backup"); closed_boards := false;
       archived_lists := false; archived_cards := false; orgs := false;
       attachment_size := Some ATTACHMENT_BYTE_LIMIT |} in
  let w0 := Examples.home (Examples.serving Examples.sprint CallFails) in
  let w := set_tree (<[ [lit "home"; lit "backup"] :=
                          {| node := Dir; r_ok := false |} ]> (tree w0)) w0 in
  cli args w = (Raised FileExistsError, w).
Proof.
  intros args w0 w.
  apply (cli_unreadable_destination args w {| node := Dir; r_ok := false |}).
  - one_name.
  - absent.
  - reflexivity.
  - vm_compute. reflexivity.
  - reflexivity.
Defined.

Lemma cli_index_request_fails_witness :
  let offline :=
    {| board_index := λ _ _, None; organization_index := λ _ _, None;
       board_detail := λ _ _, None; download := λ _ _, CallFails |} in
  let w := Examples.home offline in
  ∃ w', cli Examples.default_args w = (Raised RequestException, w')
        ∧ cwd w' = [lit "home"; lit "2024-05-06_07-08-09_backup"].
Proof.
  intros offline w.
  destruct (cli_index_request_fails Examples.default_args w)
    as (w' & Hrun & Hcwd & _).
  - one_name.
  - absent.
  - reflexivity.
  - vm_compute. reflexivity.
  - reflexivity.
  - exists w'. split; [exact Hrun|]. rewrite Hcwd. reflexivity.
Defined.

Lemma write_file_replaces_witness :
  let w := Examples.home (Examples.serving Examples.sprint CallFails) in
  let c := Examples.card "a" "L1" 1 [] in
  ∃ w', write_file (lit "card.json") (OCard c) true w = (Done tt, w')
        ∧ holds w' [lit "home"; lit "card.json"] (Json (OCard c)).
Proof.
  intros w c.
  destruct (write_file_replaces (lit "card.json") (OCard c) w) as [Hfile _].
  - one_name.
  - absent.
  - reflexivity.
  - destruct Hfile as (w' & Hrun & Hholds & _); [vm_compute; reflexivity|].
    exists w'. split; [exact Hrun|exact Hholds].
Defined.

(** ** What is fetched, and what the directory of a list holds

    The loops over the attachments of a card, over the cards of a list and
    over the lists of a board, with what each of them leaves on disk and
    when it is sure to end normally. *)

Section fetch.

Implicit Types (w : World) (a x y : Attachment) (i j k : nat)
  (p dir : list (list N)) (t : gmap (list (list N)) Entry).

Lemma is_dir_lookup t t' p : t' !! p = t !! p → is_dir t' p = is_dir t p.
Proof. destruct p as [|s p]; [done|]. cbn. by intros ->. Qed.

Lemma holds_lookup w w' p content :
  tree w' !! p = tree w !! p → holds w p content → holds w' p content.
Proof. intros Heq (e & He & Hn). exists e. by rewrite Heq. Qed.

Lemma holds_not_dir w p s content :
  holds w (p ++ [s]) content → is_dir (tree w) (p ++ [s]) = false.
Proof.
  intros (e & He & Hn). apply not_true_iff_false.
  intros (r & Hr)%is_dir_snoc. rewrite He in Hr. injection Hr as ->. done.
Qed.

(** Where an element of [enumerate xs] stands. *)
Lemma enumerate_split {A} (xs before after : list (nat * A)) (l : list A)
    (n : nat) (z : A) :
  xs = enumerate l → xs = before ++ (n, z) :: after →
  n = length before ∧ l !! n = Some z
  ∧ ∀ m u, (m, u) ∈ before → m < n ∧ l !! m = Some u.
Proof.
  intros -> Hsplit.
  assert (Hat : ∀ m mu, (before ++ (n, z) :: after) !! m = Some mu →
                        mu.1 = m ∧ l !! m = Some mu.2).
  { intros m [m' u]. rewrite <- Hsplit, enumerate_lookup.
    destruct (l !! m) as [v|]; [|done]. by intros [= <- <-]. }
  destruct (Hat (length before) (n, z)) as [Hn Hz].
  { by rewrite lookup_app_r, Nat.sub_diag by lia. }
  cbn in Hn, Hz. subst n. split; [done|]. split; [done|].
  intros m u [m' Hm]%list_elem_of_lookup.
  pose proof (lookup_lt_Some _ _ _ Hm) as Hlt.
  destruct (Hat m' (m, u)) as [Hj Hy].
  { by rewrite lookup_app_l. }
  cbn in Hj, Hy. by subst m'.
Qed.

(** The loop over the chunks touches the open file only. *)
Lemma chunks_frame (body : list (list Byte.byte)) f w :
  post (for_each body (λ chunk,
          if bool_decide (chunk ≠ [])
          then file_write f (λ c, match c with
                                  | Binary d => Binary (d ++ chunk)
                                  | _ => c
                                  end)
          else ret tt)) w
       (λ _ w', ∀ p, p ≠ f → tree w' !! p = tree w !! p).
Proof.
  revert w. induction body as [|chunk body IH]; intros w; [by apply post_ret|].
  cbn [for_each]. apply post_bind. case_bool_decide.
  - apply post_modify. cbv beta iota. eapply post_mono; [apply IH|].
    intros r w' Hframe p Hp. cbv beta in Hframe. rewrite Hframe by done. cbn.
    by rewrite lookup_alter_ne.
  - apply post_ret. cbv beta iota. apply IH.
Qed.

(** One turn of the loop over the attachments leaves the remote side as it
    is and touches no entry but the attachment's file. *)
Lemma download_attachment_frame i a w :
  post (download_attachment i a) w (λ _ w',
    remote w' = remote w
    ∧ ∀ p, p ≠ cwd w ++ [prefixed_name i (a_name a)] →
           tree w' !! p = tree w !! p).
Proof.
  rewrite download_attachment_unfold. cbv zeta.
  set (name := prefixed_name i (a_name a)).
  apply post_bind, post_modify, post_bind, post_try_except.
  apply post_bind, post_requests_get_stream.
  cbn [requests_made remote set_stdout].
  destruct (download _ _ _) as [|status body complete].
  - cbn beta iota. by apply post_bind, post_modify, post_ret, post_ret.
  - cbn beta iota. apply post_ret, post_bind.
    apply post_open; [apply prefixed_component|by intros|].
    intros _ _ _. apply post_bind.
    eapply post_mono;
      [apply post_conj; [apply chunks_frame|apply (post_chunks body _ [] _ [])]|].
    { apply prefix_nil. }
    { apply holds_insert. }
    cbv beta. intros r w1 [Hframe (-> & _ & _ & _ & _ & _ & _ & Hrem)].
    cbn in Hframe, Hrem.
    assert (Hgoal : remote w1 = remote w
                    ∧ ∀ p, p ≠ cwd w ++ [name] → tree w1 !! p = tree w !! p).
    { split; [done|]. intros p Hp. rewrite Hframe by done.
      by rewrite lookup_insert_ne. }
    by destruct complete; [apply post_ret|apply post_raise].
Qed.

End fetch.

Section fetch_all.

Implicit Types (w : World) (a x y : Attachment) (i j k : nat)
  (p dir : list (list N)) (t : gmap (list (list N)) Entry).

Ltac by_length :=
  let H := fresh in
  intros H%(f_equal length);
  repeat match goal with x := _ : list (list N) |- _ => subst x end;
  rewrite ?length_app in H; cbn in H; lia.

Lemma closed_nothing_below t p s :
  closed t → t !! (p ++ [s]) = None → ∀ s', t !! ((p ++ [s]) ++ [s']) = None.
Proof.
  intros Hclosed Hnone s'. apply eq_None_not_Some. intros Hsome%Hclosed.
  apply is_dir_snoc in Hsome as [r Hr]. by rewrite Hr in Hnone.
Qed.

Lemma fetched_nothing w : fetched [] w w.
Proof.
  split; try done. cbn. by rewrite app_nil_r.
Qed.

(** [download_attachments] with an integer limit, when every selected
    attachment can be fetched. *)
Lemma download_attachments_fetches (card : Card) (m : Z) w :
  let sel := filter (below_limit m) (c_attachments card) in
  downloadable sel w →
  ∃ w', download_attachments card (Some m) w = (Done tt, w') ∧ fetched sel w w'.
Proof.
  intros sel (Hclosed & Hcwd & Hfree & Hsel).
  destruct (decide (sel = [])) as [Hnil|Hne].
  { exists w. split; [by apply download_attachments_nothing|].
    rewrite Hnil. apply fetched_nothing. }
  enough (Hpost : post (download_attachments card (Some m)) w
                        (λ r w', r = Done tt ∧ fetched sel w w')).
  { apply post_elim in Hpost as (r & w' & Hrun & -> & Hfetched). by exists w'. }
  unfold download_attachments. apply post_bind.
  change (select_attachments card (Some m)) with (ret (A := list Attachment) sel).
  apply post_ret. cbv beta iota.
  rewrite bool_decide_eq_true_2 by (destruct sel; [done|cbn; lia]).
  set (dir := cwd w ++ [lit "attachments"]) in *.
  apply post_bind, post_mkdir; [apply component_attachments| |].
  { intros e []. split_and!; [done..|]. apply (bool_decide_unpack _). by vm_compute. }
  intros _ _ _. fold dir.
  apply post_bind, post_chdir; [apply component_attachments| |].
  { intros e []. cbn [tree cwd set_tree]. fold dir. split_and!.
    - apply is_dir_insert_ne; [by apply not_dir_of_none|done].
    - apply is_dir_insert_new.
    - apply (bool_decide_unpack _). by vm_compute. }
  intros _. cbn [tree cwd set_tree]. fold dir.
  match goal with |- post _ ?w' _ => set (w2 := w') end.
  apply post_bind. eapply post_mono.
  { apply (post_for_each
      (λ before w3,
         cwd w3 = dir ∧ remote w3 = remote w
         ∧ requests_made w3 = requests_made w + length before
         ∧ tree w3 !! dir = Some (new_entry Dir)
         ∧ (∀ p, p ≠ dir →
                 (∀ j y, (j, y) ∈ before →
                         p ≠ dir ++ [prefixed_name j (a_name y)]) →
                 tree w3 !! p = tree w !! p)
         ∧ (∀ s, is_dir (tree w3) (dir ++ [s]) = false)
         ∧ stderr w3 = stderr w ++ omap (diagnostic w) before
         ∧ ∀ j y status body,
             (j, y) ∈ before →
             download (remote w) (requests_made w + j) (a_url y)
             = Response status body true →
             (∀ j' y', (j', y') ∈ before → j < j' →
                       prefixed_name j' (a_name y') ≠ prefixed_name j (a_name y)) →
             holds w3 (dir ++ [prefixed_name j (a_name y)]) (Binary (mjoin body)))
      (λ _, False)).
    - split_and!; [done|done|cbn; lia|..].
      + cbn. apply lookup_insert_eq.
      + intros p Hp _. cbn. by apply lookup_insert_ne.
      + intros s. apply not_dir_of_none. cbn.
        rewrite lookup_insert_ne by by_length.
        by apply closed_nothing_below.
      + cbn. by rewrite app_nil_r.
      + by intros ???? ?%elem_of_nil.
    - intros before [k a] after w3 Hsplit
        (Hcwd3 & Hrem3 & Hreq3 & Hdir3 & Hframe3 & Hfiles3 & Herr3 & Hheld3).
      destruct (enumerate_split _ _ _ sel _ _ eq_refl Hsplit) as (-> & Ha & Hbefore).
      destruct (Hsel _ _ Ha) as [Hnul Hwhole].
      set (name := prefixed_name (length before) (a_name a)) in *.
      eapply post_mono;
        [apply post_conj;
          [apply download_attachment_post|apply download_attachment_frame]|].
      cbv beta zeta. rewrite Hcwd3, Hrem3, Hreq3. fold name.
      intros r w4 [(_ & Hcwd4 & Hreq4 & Hcase) [Hrem4 Hframe4]].
      assert (Hbase : cwd w4 = dir ∧ remote w4 = remote w
                ∧ requests_made w4
                  = requests_made w + length (before ++ [(length before, a)])
                ∧ tree w4 !! dir = Some (new_entry Dir)
                ∧ ∀ p, p ≠ dir →
                    (∀ j y, (j, y) ∈ before ++ [(length before, a)] →
                            p ≠ dir ++ [prefixed_name j (a_name y)]) →
                    tree w4 !! p = tree w !! p).
      { split_and!; [congruence|congruence| | |].
        - rewrite length_app. cbn. lia.
        - rewrite Hframe4 by by_length. done.
        - intros p Hp Hnames. rewrite Hframe4.
          + apply Hframe3; [done|]. intros j y Hin. apply Hnames.
            apply elem_of_app. by left.
          + apply (Hnames (length before) a). apply elem_of_app. right. left. }
      assert (Hkept : ∀ j y status body,
                (j, y) ∈ before →
                download (remote w) (requests_made w + j) (a_url y)
                = Response status body true →
                (∀ j' y', (j', y') ∈ before ++ [(length before, a)] → j < j' →
                   prefixed_name j' (a_name y') ≠ prefixed_name j (a_name y)) →
                holds w4 (dir ++ [prefixed_name j (a_name y)])
                      (Binary (mjoin body))).
      { intros j y status body Hin Hreply Hlater.
        destruct (Hbefore _ _ Hin) as [Hlt _].
        eapply holds_lookup; [|eapply Hheld3; [exact Hin|exact Hreply|]].
        - apply Hframe4. intros Heq. apply (inj (app dir)) in Heq.
          injection Heq as Heq.
          apply (Hlater (length before) a); [|done|done].
          apply elem_of_app. right. left.
        - intros j' y' Hin' Hjj'. apply Hlater; [|done].
          apply elem_of_app. by left. }
      assert (Hdiag : diagnostic w (length before, a)
                      = match download (remote w)
                                (requests_made w + length before) (a_url a) with
                        | CallFails => Some (lit "Could not download " ++ name)
                        | Response _ _ _ => None
                        end) by done.
      destruct (download (remote w) (requests_made w + length before) (a_url a))
        as [|status body complete] eqn:Hreply.
      + destruct Hcase as (-> & Htree4 & Herr4).
        destruct Hbase as (? & ? & ? & ? & ?). split_and!; try done.
        * intros s. rewrite Htree4. apply Hfiles3.
        * rewrite omap_app, Herr4, Herr3. cbn [omap list_omap].
          rewrite Hdiag. cbn. by rewrite (assoc_L (++)).
        * intros j y status body
            [Hin|[= -> ->]%list_elem_of_singleton]%elem_of_app Hrep Hlater;
            [by eapply Hkept|congruence].
      + destruct Hcase as (Herr4 & _ & Hok).
        destruct Hok as [Hr Hheld4].
        { apply is_dir_snoc. eexists. exact Hdir3. }
        { by intros ?%prefixed_nul. }
        { apply Hfiles3. }
        destruct complete; [|by destruct (Hwhole status body)].
        subst r. destruct Hbase as (? & ? & ? & ? & ?). split_and!; try done.
        * intros s. destruct (decide (s = name)) as [->|Hs].
          -- by eapply holds_not_dir.
          -- rewrite <- (Hfiles3 s). apply is_dir_lookup, Hframe4.
             intros Heq. apply (inj (app dir)) in Heq. by injection Heq.
        * rewrite omap_app, Herr4, Herr3. cbn [omap list_omap].
          rewrite Hdiag. cbn. by rewrite app_nil_r.
        * intros j y status' body'
            [Hin|[= -> ->]%list_elem_of_singleton]%elem_of_app Hrep Hlater;
            [by eapply Hkept|].
          rewrite Hreply in Hrep. by injection Hrep as _ <-. }
  intros [[]|e|code] w3; cbv beta iota; [|done..].
  intros (Hcwd3 & Hrem3 & Hreq3 & Hdir3 & Hframe3 & Hfiles3 & Herr3 & Hheld3).
  assert (Hup : parent (cwd w3) = cwd w) by (rewrite Hcwd3; apply parent_snoc).
  apply post_chdir_up.
  { intros e []. rewrite Hup, Hcwd3. split.
    - apply is_dir_snoc. eexists. exact Hdir3.
    - rewrite <- Hcwd. apply is_dir_lookup, Hframe3; [by_length|].
      intros ???. by_length. }
  split; [done|]. split; cbn [cwd tree stderr requests_made set_cwd].
  - done.
  - rewrite Hreq3. unfold enumerate. by rewrite length_imap.
  - done.
  - intros _. apply is_dir_snoc. eexists. exact Hdir3.
  - intros i x status body Hx Hreply Hlater.
    change (cwd w ++ [lit "attachments"; prefixed_name i (a_name x)])
      with (cwd w ++ [lit "attachments"] ++ [prefixed_name i (a_name x)]).
    rewrite (assoc_L (++)). apply (Hheld3 i x status body); [|done|].
    + by apply elem_of_enumerate.
    + intros j y Hy%elem_of_enumerate. by apply Hlater.
  - intros p Hp Hnames. apply Hframe3; [done|].
    intros j y Hy%elem_of_enumerate. unfold dir.
    rewrite <- (assoc_L (++)). by apply Hnames.
Qed.

End fetch_all.

Section lists_only.

Implicit Types (w : World) (c : Card) (ls : TrelloList) (i j k : nat)
  (p q dir : list (list N)) (t : gmap (list (list N)) Entry).

Lemma is_dir_Some t p : p ≠ [] → is_dir t p = true → is_Some (t !! p).
Proof.
  destruct p as [|s p]; [done|]. intros _. cbn.
  destruct (t !! (s :: p)); [by eexists|done].
Qed.

(** In a well-formed tree nothing lies below a name that has no entry. *)
Lemma closed_nothing_deeper t p s rest :
  closed t → t !! (p ++ [s]) = None → t !! (p ++ s :: rest) = None.
Proof.
  intros Hclosed Hnone. induction rest as [|x rest IH] using rev_ind; [done|].
  apply eq_None_not_Some.
  change (p ++ s :: rest ++ [x]) with (p ++ (s :: rest) ++ [x]).
  rewrite (assoc_L (++)). intros Hdir%Hclosed.
  apply is_dir_Some in Hdir; [|by destruct p].
  rewrite IH in Hdir. by apply is_Some_None in Hdir.
Qed.

(** Names made with distinct ordinals from one sequence of display names. *)
Lemma prefixed_names_differ (names : list (list N)) i j s s' :
  NoDup (imap prefixed_name names) →
  names !! i = Some s → names !! j = Some s' → i ≠ j →
  prefixed_name i s ≠ prefixed_name j s'.
Proof.
  intros Hnd Hi Hj Hij Heq. apply Hij.
  apply (NoDup_lookup _ i j (prefixed_name i s) Hnd).
  - by rewrite list_lookup_imap, Hi.
  - by rewrite list_lookup_imap, Hj, Heq.
Qed.

(** What ends up in the directory of a list, and when [backup_list] is sure
    to end normally. *)
Lemma backup_list_only lists attachment_size i ls w :
  let dir := cwd w ++ [prefixed_name i (l_name ls)] in
  let cards := cards_of lists ls in
  (∀ s rest, tree w !! (dir ++ s :: rest) = None) →
  post (backup_list lists attachment_size i ls) w (λ r w',
    (r = Done tt →
     ∀ s rest, is_Some (tree w' !! (dir ++ s :: rest)) →
               ∃ j c, cards !! j = Some c ∧ s = prefixed_name j (c_name c))
    ∧ (is_dir (tree w) (cwd w) = true → tree w !! dir = None →
       NUL ∉ l_name ls →
       NoDup (imap prefixed_name (c_name <$> cards)) →
       (∀ c, c ∈ cards →
             (NUL ∉ c_name c) ∧ utf8_encodable (c_desc c) = true
             ∧ ∃ m, attachment_size = Some m
                    ∧ filter (below_limit m) (c_attachments c) = []) →
       r = Done tt)).
Proof.
  intros dir cards Hbelow. unfold backup_list.
  fold (prefixed_name i (l_name ls)). fold cards.
  set (name := prefixed_name i (l_name ls)) in *. cbv zeta.
  apply post_bind, post_mkdir; [apply prefixed_component| |].
  { intros e Hno. split; [done|]. intros ? ? ? _ _. destruct Hno.
    split_and!; [done..|]. by intros ?%prefixed_nul. }
  intros Hcwd Hnone Hnul. fold dir in Hnone |- *.
  match goal with |- post _ ?w' _ => set (w1 := w') end.
  assert (Hw1 : extends dir w w1)
    by (apply extends_insert; [done|by apply not_dir_of_none]).
  assert (Hdir1 : is_dir (tree w1) dir = true) by apply is_dir_insert_new.
  apply post_bind, post_chdir; [apply prefixed_component| |].
  { intros e Hno. destruct Hno. split_and!; [|done..].
    by apply (extends_dirs _ _ _ Hw1). }
  intros _. fold dir.
  match goal with |- post _ ?w' _ => set (w2 := w') end.
  set (ok := NoDup (imap prefixed_name (c_name <$> cards))
             ∧ ∀ c, c ∈ cards →
                 (NUL ∉ c_name c) ∧ utf8_encodable (c_desc c) = true
                 ∧ ∃ m, attachment_size = Some m
                        ∧ filter (below_limit m) (c_attachments c) = []).
  apply post_bind. eapply post_mono.
  { apply (post_for_each
             (λ before w3,
                extends dir w w3 ∧ cwd w3 = dir ∧ is_dir (tree w3) dir = true
                ∧ ∀ s rest,
                    (∀ j c, (j, c) ∈ before → s ≠ prefixed_name j (c_name c)) →
                    tree w3 !! (dir ++ s :: rest) = None)
             (λ _, ¬ ok)).
    - split_and!; [|done|done|].
      + eapply extends_trans; [exact Hw1|by apply extends_same_tree].
      + intros s rest _. cbn. rewrite lookup_insert_ne; [apply Hbelow|].
        intros H%(f_equal length). rewrite !length_app in H. cbn in H. lia.
    - intros before [k c] after w3 Hsplit (Hext & Hcwd3 & Hdir3 & Hfree).
      destruct (enumerate_split _ _ _ cards _ _ eq_refl Hsplit)
        as (-> & Hc & Hbefore).
      eapply post_mono; [apply backup_card_post|].
      cbv zeta. rewrite Hcwd3. intros r w4 (Hext4 & Hdone & Hsucceeds).
      assert (Hfits : ok → card_fits (length before) c attachment_size w3).
      { intros [Hnd Hall]. unfold card_fits. rewrite Hcwd3.
        destruct (Hall c) as (Hnulc & Henc & Hnone');
          [by eapply list_elem_of_lookup_2|].
        assert (Hnew : ∀ j c', (j, c') ∈ before →
                  prefixed_name (length before) (c_name c)
                  ≠ prefixed_name j (c_name c')).
        { intros j c' [Hlt Hc']%Hbefore.
          apply (prefixed_names_differ (c_name <$> cards)); [done|..|lia].
          - by rewrite list_lookup_fmap, Hc.
          - by rewrite list_lookup_fmap, Hc'. }
        split_and!; [done| | |by intros ?%prefixed_nul|done|done].
        - by apply (Hfree _ []).
        - intros s. rewrite <- (assoc_L (++)). by apply Hfree. }
      destruct r as [[]|e|code]; [|by intros ?%Hfits%Hsucceeds..].
      destruct (Hdone eq_refl) as (Hcwd4 & _).
      split_and!; [|congruence|by apply (extends_dirs _ _ _ Hext4)|].
      + eapply extends_trans; [exact Hext|].
        eapply extends_weaken; [|exact Hext4]. by apply prefix_app_r.
      + intros s rest Hs.
        rewrite (extends_frame _ _ _ Hext4).
        * apply Hfree. intros j c' Hin. apply Hs, elem_of_app. by left.
        * apply prefix_snoc_ne, not_eq_sym, Hs, elem_of_app. right. left. }
  intros [[]|e|code] w3; cbv beta iota.
  2,3: intros Hno; split; [done|]; intros _ _ _ ? ?; by destruct Hno.
  intros (Hext & Hcwd3 & Hdir3 & Hfree). apply post_chdir_up.
  { intros e Hno. destruct Hno. rewrite Hcwd3. split; [done|].
    unfold dir. rewrite parent_snoc. by apply (extends_dirs _ _ _ Hext). }
  split; [|done]. intros _ s rest Hsome. cbn [tree set_cwd] in Hsome.
  destruct (decide (Exists (λ jc, s = prefixed_name jc.1 (c_name jc.2))
                           (enumerate cards))) as [Hex|Hno].
  - apply Exists_exists in Hex as ([j c] & Hin%elem_of_enumerate & ->).
    by exists j, c.
  - rewrite Hfree in Hsome; [by apply is_Some_None in Hsome|].
    intros j c Hin ->. apply Hno, Exists_exists. by exists (j, c).
Qed.

End lists_only.

Section boards_only.

Implicit Types (w : World) (c : Card) (ls : TrelloList) (i j k : nat)
  (p q dir : list (list N)) (t : gmap (list (list N)) Entry).

(** What ends up in the directories of the lists, and when lines 127-144
    are sure to end normally. *)
Lemma backup_lists_only board_details args w :
  let cards_in ls := cards_of (cards_by_list (bd_cards board_details)) ls in
  closed (tree w) →
  post (backup_lists board_details args) w (λ r w',
    (r = Done tt →
     ∀ i ls s rest,
       bd_lists board_details !! i = Some ls →
       is_Some (tree w' !! (cwd w ++ prefixed_name i (l_name ls) :: s :: rest)) →
       ∃ j c, cards_in ls !! j = Some c ∧ s = prefixed_name j (c_name c))
    ∧ (lists_exportable board_details args w → r = Done tt)).
Proof.
  intros cards_in Hclosed. unfold backup_lists.
  fold (cards_in). set (lists := cards_by_list _) in *.
  set (R := cwd w). set (ok := lists_exportable board_details args w).
  eapply post_mono.
  { apply (post_for_each
      (λ before w1,
         extends R w w1 ∧ cwd w1 = R
         ∧ (∀ s rest,
              (∀ i ls, (i, ls) ∈ before → s ≠ prefixed_name i (l_name ls)) →
              tree w1 !! (R ++ s :: rest) = tree w !! (R ++ s :: rest))
         ∧ ∀ i ls, (i, ls) ∈ before →
             is_dir (tree w1) (R ++ [prefixed_name i (l_name ls)]) = true
             ∧ ∀ s rest,
                 is_Some (tree w1 !! (R ++ prefixed_name i (l_name ls) :: s :: rest)) →
                 ∃ j c, cards_in ls !! j = Some c
                        ∧ s = prefixed_name j (c_name c))
      (λ _, ¬ ok)).
    - split_and!; [apply extends_refl|done|done|by intros ?? ?%elem_of_nil].
    - intros before [k ls] after w1 Hsplit (Hext & Hcwd1 & Hframe & Hbefore).
      destruct (enumerate_split _ _ _ (bd_lists board_details) _ _ eq_refl Hsplit)
        as (-> & Hls & Hearlier).
      set (name := prefixed_name (length before) (l_name ls)).
      destruct (tree w1 !! (R ++ [name])) as [entry|] eqn:Hname.
      + (* the name is taken: [mkdir] fails *)
        eapply post_mono; [apply backup_list_post|].
        cbv zeta. rewrite Hcwd1. fold name. intros r w2 (_ & Hdone).
        destruct r as [[]|e|code];
          [destruct (Hdone eq_refl) as (_ & Hnone & _); congruence|..].
        all: intros (_ & _ & Hnd & Hunused & _).
        all: rewrite Hframe in Hname; unfold R in Hname.
        all: try (rewrite Forall_forall in Hunused;
                  rewrite (Hunused name) in Hname; [done|];
                  apply list_elem_of_lookup; exists (length before);
                  by rewrite list_lookup_imap, list_lookup_fmap, Hls).
        all: intros i' ls' [Hlt Hls']%Hearlier;
             apply (prefixed_names_differ (l_name <$> bd_lists board_details));
             [done|by rewrite list_lookup_fmap, Hls
              |by rewrite list_lookup_fmap, Hls'|lia].
      + assert (Hdiffers : ∀ i' ls', (i', ls') ∈ before →
                  name ≠ prefixed_name i' (l_name ls')).
        { intros i' ls' [Hdir' _]%Hbefore.
          by eapply name_of_new_differs. }
        assert (Hnew : tree w !! (R ++ [name]) = None)
          by (by rewrite <- (Hframe name []) by done).
        eapply post_mono;
          [apply post_conj; [apply backup_list_post|apply backup_list_only]|].
        { rewrite Hcwd1. fold name. intros s rest.
          rewrite <- (assoc_L (++)). change ([name] ++ s :: rest) with (name :: s :: rest).
          rewrite (Hframe name (s :: rest)) by done.
          by apply closed_nothing_deeper. }
        cbv zeta beta. rewrite Hcwd1. fold name. fold (cards_in ls).
        intros r w2 [(Hext2 & Hdone) (Honly & Hsucceeds)].
        assert (Hr : ok → r = Done tt).
        { intros (_ & Hcwd & _ & _ & Hlists & m & Hm & Hcards).
          rewrite Forall_forall in Hlists. rewrite Forall_forall in Hcards.
          destruct (Hlists ls) as [Hnul Hnd]; [by eapply list_elem_of_lookup_2|].
          apply Hsucceeds; [|done..|].
          - by apply (extends_dirs _ _ _ Hext).
          - intros c [Hc _]%cards_of_elem.
            destruct (Hcards c Hc) as (? & ? & ?). split_and!; [done..|].
            by exists m. }
        destruct r as [[]|e|code]; [|by intros ?%Hr..].
        destruct (Hdone eq_refl) as (Hcwd2 & _ & Hd2 & _).
        split_and!; [|congruence| |].
        * eapply extends_trans; [exact Hext|].
          eapply extends_weaken; [|exact Hext2]. by apply prefix_app_r.
        * intros s rest Hs. rewrite <- Hframe.
          -- apply (extends_frame _ _ _ Hext2).
             apply prefix_snoc_ne, not_eq_sym, Hs, elem_of_app. right. left.
          -- intros i' ls' Hin. apply Hs, elem_of_app. by left.
        * intros i' ls' [Hin|[= -> ->]%list_elem_of_singleton]%elem_of_app.
          -- destruct (Hbefore _ _ Hin) as [Hdir' Honly'].
             split; [by apply (extends_dirs _ _ _ Hext2)|].
             intros s rest Hsome. apply (Honly' s rest).
             rewrite <- (extends_frame _ _ _ Hext2); [done|].
             apply prefix_snoc_ne. by apply Hdiffers.
          -- split; [done|]. intros s rest Hsome.
             apply (Honly eq_refl s rest).
             by rewrite <- (assoc_L (++)). }
  intros [[]|e|code] w1; cbv beta iota; [|by intros ?; split..].
  intros (Hext & Hcwd1 & Hframe & Hall). split; [|done].
  intros _ i ls s rest Hils%elem_of_enumerate Hsome.
  by apply (proj2 (Hall i ls Hils) s rest).
Qed.

End boards_only.

(** ** Claims on the attachments *)

(** C3 (amended): for a limit that is not negative and an attachment of
    known size, the attachment is selected for download exactly when its size
    is strictly below the limit (a size equal to the limit is left out, like
    a larger one).  The selected attachments are what [download_attachments]
    fetches: when they can be fetched ([downloadable]) it ends normally after
    one request for each of them, in order, and the body of every reply is a
    file of the [attachments] subdirectory named after the attachment's
    ordinal among the selected ones and its name; nothing else on disk
    changes, so nothing is saved for an attachment that is not selected. *)
Theorem attachment_selected_iff_below_limit
    (c : Card) (limit : Z) (a : Attachment) (n : Z) (w : World) :
  (0 ≤ limit)%Z → a ∈ c_attachments c → a_bytes a = Some n →
  ∃ sel,
    select_attachments c (Some limit) w = (Done sel, w)
    ∧ (a ∈ sel ↔ (n < limit)%Z)
    ∧ (downloadable sel w →
       ∃ w', download_attachments c (Some limit) w = (Done tt, w')
             ∧ fetched sel w w').
Proof.
  intros Hlimit Hin Hn. eexists. split; [apply select_attachments_some|].
  split; [|apply download_attachments_fetches].
  rewrite list_elem_of_filter, Is_true_true, (below_limit_spec _ _ _ Hn).
  split; [intros [[?|?] _]; [done|lia]|by auto].
Qed.

Lemma attachment_selected_iff_below_limit_witness :
  let nine := Examples.attachment "nine.bin" (Some 9%Z) in
  let ten := Examples.attachment "ten.bin" (Some 10%Z) in
  let c := Examples.card "card" "L1" 1 [ten; nine] in
  let w := Examples.home (Examples.serving Examples.sprint
                            (Response 200 [[Byte.x68]; [Byte.x69]] true)) in
  ∃ w', download_attachments c (Some 10%Z) w = (Done tt, w')
        ∧ requests_made w' = 1
        ∧ holds w' [lit "home"; lit "attachments"; lit "0_nine.bin"]
                (Binary [Byte.x68; Byte.x69])
        ∧ tree w' !! [lit "home"; lit "attachments"; lit "0_ten.bin"] = None.
Proof.
  intros nine ten c w.
  destruct (attachment_selected_iff_below_limit c 10 nine 9 w)
    as (sel & Hsel & _ & Hrun).
  - lia.
  - apply list_elem_of_further, list_elem_of_here.
  - reflexivity.
  - rewrite select_attachments_some in Hsel.
    assert (Hnine : sel = [nine]) by (by injection Hsel as <-).
    subst sel. clear Hsel.
    destruct Hrun as (w' & Hrun & Hfetched).
    { split; [apply closed_home|]. split; [reflexivity|].
      split; [vm_compute; reflexivity|].
      intros [|[|i]] x [= <-].
      split; [apply (bool_decide_unpack _); vm_compute; exact I|].
      intros status body. discriminate. }
    exists w'. split; [exact Hrun|]. split; [|split].
    + apply (fetched_requests _ _ _ Hfetched).
    + apply (fetched_files _ _ _ Hfetched 0 nine 200 [[Byte.x68]; [Byte.x69]]).
      * reflexivity.
      * reflexivity.
      * intros [|[|j]] y [= <-]. lia.
    + rewrite (fetched_frame _ _ _ Hfetched); [vm_compute; reflexivity|..].
      * apply (bool_decide_unpack _). vm_compute. exact I.
      * intros [|[|i]] x [= <-]. apply (bool_decide_unpack _).
        vm_compute. exact I.
Defined.

(** C8: with the limit -1, the attachments selected are exactly those whose
    size is known, whatever the size, and those of unknown size are left
    out; and they are what [download_attachments] attempts: when they can be
    fetched ([downloadable]) it ends normally after one request for each of
    them, in order, with a diagnostic for each request that raised and the
    body of every reply saved in [attachments] under the attachment's
    ordinal among them; nothing else on disk changes. *)
Theorem unlimited_selects_every_sized_attachment (c : Card) (w : World) :
  let sized := filter (λ a, is_Some (a_bytes a)) (c_attachments c) in
  select_attachments c (Some (-1)%Z) w = (Done sized, w)
  ∧ (downloadable sized w →
     ∃ w', download_attachments c (Some (-1)%Z) w = (Done tt, w')
           ∧ fetched sized w w').
Proof.
  intros sized.
  assert (Hsized : sized = filter (below_limit (-1)) (c_attachments c)).
  { apply list_filter_iff. intros a. unfold below_limit.
    destruct (a_bytes a) as [n|]; cbn.
    - rewrite orb_true_r. split; [done|by eauto].
    - split; [by intros [? ?]|done]. }
  split; [by rewrite select_attachments_some, Hsized|].
  rewrite Hsized. apply download_attachments_fetches.
Qed.

Lemma unlimited_selects_every_sized_attachment_witness :
  let huge := Examples.attachment "huge.iso" (Some 5000000000%Z) in
  let unknown := Examples.attachment "link" None in
  let small := Examples.attachment "small.txt" (Some 1%Z) in
  let c := Examples.card "card" "L1" 1 [huge; unknown; small] in
  let w := Examples.home (Examples.serving Examples.sprint
                            (Response 200 [[Byte.x68]] true)) in
  ∃ w', download_attachments c (Some (-1)%Z) w = (Done tt, w')
        ∧ requests_made w' = 2
        ∧ holds w' [lit "home"; lit "attachments"; lit "0_huge.iso"]
                (Binary [Byte.x68])
        ∧ holds w' [lit "home"; lit "attachments"; lit "1_small.txt"]
                (Binary [Byte.x68])
        ∧ tree w' !! [lit "home"; lit "attachments"; lit "1_link"] = None.
Proof.
  intros huge unknown small c w.
  destruct (unlimited_selects_every_sized_attachment c w) as [_ Hrun].
  change (filter (λ a, is_Some (a_bytes a)) (c_attachments c))
    with [huge; small] in Hrun.
  destruct Hrun as (w' & Hrun & Hfetched).
  { split; [apply closed_home|]. split; [reflexivity|].
    split; [vm_compute; reflexivity|].
    intros [|[|[|i]]] x [= <-].
    all: split; [apply (bool_decide_unpack _); vm_compute; exact I|].
    all: intros status body; discriminate. }
  exists w'. split; [exact Hrun|]. split_and!.
  - apply (fetched_requests _ _ _ Hfetched).
  - apply (fetched_files _ _ _ Hfetched 0 huge 200 [[Byte.x68]]).
    + reflexivity.
    + reflexivity.
    + intros [|[|[|j]]] y [= <-] Hj; [lia|].
      apply (bool_decide_unpack _). vm_compute. exact I.
  - apply (fetched_files _ _ _ Hfetched 1 small 200 [[Byte.x68]]).
    + reflexivity.
    + reflexivity.
    + intros [|[|[|j]]] y [= <-] Hj; lia.
  - rewrite (fetched_frame _ _ _ Hfetched); [vm_compute; reflexivity|..].
    + apply (bool_decide_unpack _). vm_compute. exact I.
    + intros [|[|[|i]]] x [= <-]; apply (bool_decide_unpack _);
        vm_compute; exact I.
Defined.

(** C4, as stated, fails twice.  A reply with the status 404 is a response
    like any other: its body is saved under the attachment's name and
    nothing is written to the error stream.  And a connection that breaks
    while the body is read raises outside the [try]: the export of the card
    and of the board ends there with the exception, no diagnostic is
    written and the next attachment is never requested. *)
Lemma download_failures_without_diagnostic :
  let gone := Examples.attachment "gone.pdf" (Some 5%Z) in
  let next := Examples.attachment "next.png" (Some 6%Z) in
  let not_found := Response 404 [[Byte.x34; Byte.x30; Byte.x34]] true in
  let w := Examples.home (Examples.serving Examples.sprint not_found) in
  let board :=
    {| bd_name := lit "Board";
       bd_lists := [ {| l_id := lit "L1"; l_name := lit "Todo" |} ];
       bd_cards := [ Examples.card "card" "L1" 1 [gone; next] ] |} in
  let broken := Response 200 [[Byte.x68]] false in
  let w0 := Examples.home (Examples.serving board broken) in
  let r := backup_board {| b_id := lit "b1"; b_closed := false |}
             Examples.default_args w0 in
  (download (remote w) (requests_made w) (a_url gone) = not_found
   ∧ (download_attachment 0 gone w).1 = Done tt
   ∧ stderr (download_attachment 0 gone w).2 = []
   ∧ tree (download_attachment 0 gone w).2 !! [lit "home"; lit "0_gone.pdf"]
     = Some (new_entry (File (Binary [Byte.x34; Byte.x30; Byte.x34]))))
  ∧ (select_attachments (Examples.card "card" "L1" 1 [gone; next])
       (Some ATTACHMENT_BYTE_LIMIT) w0
     = (Done [gone; next], w0)
     ∧ r.1 = Raised RequestException
     ∧ stderr r.2 = []
     ∧ requests_made r.2 = 2
     ∧ cwd r.2 = [lit "home"; lit "Board"; lit "0_Todo"; lit "0_card";
                  lit "attachments"]).
Proof.
  cbv zeta. split.
  - split; [done|]. split; [by vm_compute|]. split; by vm_compute.
  - split; [by rewrite select_attachments_some|].
    split; [by vm_compute|]. split; [by vm_compute|]. split; by vm_compute.
Qed.

(** C4 (amended): when the request for an attachment raises (no response:
    connection error, timeout of the request), [Could not download] and the
    attachment's name are written to the error stream, nothing is written to
    disk, the attachment's turn ends normally and the loop goes on with the
    next attachment.  A reply with any status code, a non-success one
    included, is not taken for a failure: its body is saved whole under the
    attachment's name, nothing is written to the error stream, and the loop
    goes on with the next attachment.  So the attachments of a card, each of
    them with a request that raises or a reply that arrives whole, never stop
    [download_attachments]: it ends normally after one request for each
    attachment, with one diagnostic for each request that raised. *)
Theorem failed_request_is_reported_and_skipped
    (id_attachment : nat) (a : Attachment) (rest : list (nat * Attachment))
    (w : World) :
  let attachment_name :=
    sanitize_file_name (of_nat id_attachment ++ lit "_" ++ a_name a) in
  let loop todo := for_each todo (λ '(i, x), download_attachment i x) in
  (download (remote w) (requests_made w) (a_url a) = CallFails →
   let w' :=
     set_stderr (stderr w ++ [lit "Could not download " ++ attachment_name])
       (tick (set_stdout
                (stdout w ++ [lit "Saving attachment " ++ attachment_name]) w)) in
   download_attachment id_attachment a w = (Done tt, w')
   ∧ tree w' = tree w ∧ cwd w' = cwd w
   ∧ loop ((id_attachment, a) :: rest) w = loop rest w')
  ∧ (∀ status body,
       download (remote w) (requests_made w) (a_url a)
       = Response status body true →
       is_dir (tree w) (cwd w) = true → NUL ∉ a_name a →
       is_dir (tree w) (cwd w ++ [attachment_name]) = false →
       ∃ w', download_attachment id_attachment a w = (Done tt, w')
             ∧ holds w' (cwd w ++ [attachment_name]) (Binary (mjoin body))
             ∧ (∀ p, p ≠ cwd w ++ [attachment_name] →
                     tree w' !! p = tree w !! p)
             ∧ stderr w' = stderr w ∧ cwd w' = cwd w
             ∧ loop ((id_attachment, a) :: rest) w = loop rest w')
  ∧ (∀ (c : Card) (max_size : Z),
       let sel := filter (below_limit max_size) (c_attachments c) in
       downloadable sel w →
       ∃ w', download_attachments c (Some max_size) w = (Done tt, w')
             ∧ requests_made w' = requests_made w + length sel
             ∧ stderr w' = stderr w ++ omap (diagnostic w) (enumerate sel)).
Proof.
  intros attachment_name loop. split; [|split].
  - intros Hfail w'.
    assert (Hone : download_attachment id_attachment a w = (Done tt, w')).
    { unfold download_attachment, bind, try_except, requests_get_stream,
        print, stderr_write, modify, ret. cbn. by rewrite Hfail. }
    split; [exact Hone|]. split; [done|]. split; [done|].
    unfold loop. cbn. unfold bind at 1. by rewrite Hone.
  - intros status body Hreply Hcwd Hnul Hfile.
    pose proof (download_attachment_post id_attachment a w) as Hpost.
    pose proof (download_attachment_frame id_attachment a w) as Hframe.
    cbv zeta in Hpost. unfold post in Hpost, Hframe.
    destruct (download_attachment id_attachment a w) as [r w'] eqn:Hrun.
    cbn [fst snd] in Hpost, Hframe.
    destruct Hpost as (_ & Hcwd' & _ & Hcase). destruct Hframe as [_ Hframe].
    rewrite Hreply in Hcase. destruct Hcase as (Herr & _ & Hsaved).
    destruct Hsaved as [-> Hheld]; [done| |done|].
    { intros H. by apply prefixed_nul in H. }
    exists w'. split_and!; [done..|].
    unfold loop. cbn. unfold bind at 1. by rewrite Hrun.
  - intros c max_size sel Hsel.
    destruct (download_attachments_fetches c max_size w Hsel)
      as (w' & Hrun & Hfetched).
    exists w'. split; [done|].
    split; [apply Hfetched|apply Hfetched].
Qed.

Lemma failed_request_is_reported_and_skipped_witness :
  let a := Examples.attachment "lost.png" (Some 5%Z) in
  let b := Examples.attachment "next.png" (Some 6%Z) in
  let c := Examples.card "card" "L1" 1 [a; b] in
  let offline := Examples.home (Examples.serving Examples.sprint CallFails) in
  let forbidden :=
    Examples.home (Examples.serving Examples.sprint
                     (Response 403 [[Byte.x6e]; [Byte.x6f]] true)) in
  ((download_attachment 0 a offline).1 = Done tt
   ∧ stderr (download_attachment 0 a offline).2
     = [lit "Could not download 0_lost.png"]
   ∧ for_each [(0, a); (1, b)] (λ '(i, x), download_attachment i x) offline
     = for_each [(1, b)] (λ '(i, x), download_attachment i x)
         (download_attachment 0 a offline).2)
  ∧ (∃ w', download_attachment 0 a forbidden = (Done tt, w')
           ∧ holds w' [lit "home"; lit "0_lost.png"]
                   (Binary [Byte.x6e; Byte.x6f])
           ∧ stderr w' = []
           ∧ for_each [(0, a); (1, b)] (λ '(i, x), download_attachment i x)
               forbidden
             = for_each [(1, b)] (λ '(i, x), download_attachment i x) w')
  ∧ ∃ w', download_attachments c (Some 10%Z) offline = (Done tt, w')
          ∧ requests_made w' = 2
          ∧ stderr w' = [lit "Could not download 0_lost.png";
                         lit "Could not download 1_next.png"].
Proof.
  intros a b c offline forbidden. split; [|split].
  - destruct (failed_request_is_reported_and_skipped 0 a [(1, b)] offline)
      as (Hfails & _ & _).
    destruct Hfails as (Hone & _ & _ & Hloop); [reflexivity|].
    rewrite Hloop, Hone. split; [reflexivity|]. split; reflexivity.
  - destruct (failed_request_is_reported_and_skipped 0 a [(1, b)] forbidden)
      as (_ & Hreply & _).
    destruct (Hreply 403 [[Byte.x6e]; [Byte.x6f]])
      as (w' & Hone & Hheld & _ & Herr & _ & Hloop).
    + reflexivity.
    + reflexivity.
    + apply (bool_decide_unpack _). vm_compute. exact I.
    + vm_compute. reflexivity.
    + exists w'. split; [exact Hone|]. split; [exact Hheld|].
      split; [exact Herr|exact Hloop].
  - destruct (failed_request_is_reported_and_skipped 0 a [(1, b)] offline)
      as (_ & _ & Hcard).
    destruct (Hcard c 10%Z) as (w' & Hrun & Hrequests & Herr).
    + split; [apply closed_home|]. split; [reflexivity|].
      split; [vm_compute; reflexivity|].
      intros [|[|[|i]]] x [= <-].
      all: split; [apply (bool_decide_unpack _); vm_compute; exact I|].
      all: intros status body; discriminate.
    + exists w'. split; [exact Hrun|]. split; [exact Hrequests|exact Herr].
Defined.

(** ** Claim on the order of the cards *)

(** C6: in the directory of every list of a board, the cards stand under
    the ordinals 0, 1, 2, ... in ascending order of their positions,
    whatever the order of the cards in the input.  When lines 127-144 have
    ended normally, the directory of the list holds, for every card of the
    sequence handed to [backup_card] (cards of the board with the list's
    id), the card's export under its ordinal in that sequence, and on a
    well-formed tree nothing else; a card with a smaller position has the
    smaller ordinal, and a later ordinal never has a smaller position.  The
    lines do end normally on a board that meets [lists_exportable]. *)
Theorem cards_exported_in_position_order
    (board_details : BoardDetails) (args : Args) (w : World) :
  let cards_in ls := cards_of (cards_by_list (bd_cards board_details)) ls in
  (lists_exportable board_details args w →
   ∃ w', backup_lists board_details args w = (Done tt, w'))
  ∧ ∀ w' k ls,
      backup_lists board_details args w = (Done tt, w') →
      bd_lists board_details !! k = Some ls →
      let list_dir := cwd w ++ [prefixed_name k (l_name ls)] in
      (∀ i c, cards_in ls !! i = Some c →
              c ∈ bd_cards board_details ∧ c_idList c = l_id ls
              ∧ exported w' (list_dir ++ [prefixed_name i (c_name c)]) c)
      ∧ (closed (tree w) →
         ∀ s, is_Some (tree w' !! (list_dir ++ [s])) →
              ∃ i c, cards_in ls !! i = Some c
                     ∧ s = prefixed_name i (c_name c))
      ∧ ∀ i j ci cj,
          cards_in ls !! i = Some ci → cards_in ls !! j = Some cj →
          (i < j → (c_pos ci <= c_pos cj)%Q)
          ∧ ((c_pos ci < c_pos cj)%Q → i < j).
Proof.
  intros cards_in. split.
  - intros Hok.
    assert (Hclosed : closed (tree w)) by apply Hok.
    pose proof (backup_lists_only board_details args w Hclosed) as Hpost.
    unfold post in Hpost.
    destruct (backup_lists board_details args w) as [r w'].
    cbn [fst snd] in Hpost. destruct Hpost as [_ Hr].
    rewrite (Hr Hok). by exists w'.
  - intros w' k ls Hrun Hls list_dir.
    pose proof (backup_lists_post board_details args w) as Hpost.
    unfold post in Hpost. rewrite Hrun in Hpost.
    destruct Hpost as (_ & Hdone).
    destruct (Hdone eq_refl) as (_ & _ & Hlists).
    destruct (Hlists k ls Hls) as (_ & _ & Hcards).
    split_and!.
    + intros i c Hc.
      destruct (cards_of_elem (bd_cards board_details) ls c) as [Hin Hid].
      { by eapply list_elem_of_lookup_2. }
      split_and!; [done..|]. by apply Hcards.
    + intros Hclosed s Hsome.
      pose proof (backup_lists_only board_details args w Hclosed) as Honly.
      unfold post in Honly. rewrite Hrun in Honly.
      destruct Honly as [Honly _].
      apply (Honly eq_refl k ls s []); [done|].
      unfold list_dir in Hsome. by rewrite <- (assoc_L (++)) in Hsome.
    + intros i j ci cj Hci Hcj.
      pose proof (cards_of_sorted (bd_cards board_details) ls) as Hsorted.
      split.
      * intros Hij. by apply (StronglySorted_lookup c_pos (cards_in ls) i j).
      * intros Hlt. destruct (decide (i < j)) as [|Hge]; [done|]. exfalso.
        destruct (decide (i = j)) as [->|Hne].
        -- rewrite Hci in Hcj. injection Hcj as ->. by apply Qlt_irrefl in Hlt.
        -- assert (key_le c_pos cj ci) as Hle
             by (apply (StronglySorted_lookup c_pos (cards_in ls) j i);
                 [done..|lia]).
           by apply Qlt_not_le in Hlt.
Qed.

Lemma cards_exported_in_position_order_witness :
  let add_test := Examples.card "Add test" "L1" 1 [] in
  let fix_bug :=
    {| c_name := lit "Fix bug"; c_idList := lit "L1"; c_pos := 2;
       c_desc := lit "..."; c_attachments := [] |} in
  let w := Examples.home (Examples.serving Examples.sprint CallFails) in
  ∃ w', backup_lists Examples.sprint Examples.default_args w = (Done tt, w')
        ∧ exported w' [lit "home"; lit "0_Todo"; lit "0_Add test"] add_test
        ∧ exported w' [lit "home"; lit "0_Todo"; lit "1_Fix bug"] fix_bug
        ∧ (c_pos add_test <= c_pos fix_bug)%Q.
Proof.
  intros add_test fix_bug w.
  destruct (cards_exported_in_position_order Examples.sprint
              Examples.default_args w) as [Hends Hlayout].
  destruct Hends as [w' Hrun].
  { split; [apply closed_home|]. split; [reflexivity|].
    split; [apply (bool_decide_unpack _); vm_compute; exact I|].
    split; [apply (bool_decide_unpack _); vm_compute; exact I|].
    split; [apply (bool_decide_unpack _); vm_compute; exact I|].
    exists ATTACHMENT_BYTE_LIMIT. split; [reflexivity|].
    apply (bool_decide_unpack _). vm_compute. exact I. }
  exists w'. split; [exact Hrun|].
  destruct (Hlayout w' 0 {| l_id := lit "L1"; l_name := lit "Todo" |}
              Hrun eq_refl) as (Hcards & _ & Horder).
  destruct (Hcards 0 add_test) as (_ & _ & Hfirst); [vm_compute; reflexivity|].
  destruct (Hcards 1 fix_bug) as (_ & _ & Hsecond); [vm_compute; reflexivity|].
  split; [exact Hfirst|]. split; [exact Hsecond|].
  apply (Horder 0 1 add_test fix_bug);
    [vm_compute; reflexivity|vm_compute; reflexivity|lia].
Defined.

(** ** The destination, and the runs of a list id *)

Section destination.

Implicit Types (w : World) (s : list N).

(** The first piece of [s.split(sep)] is [s] up to its first [sep]. *)
Lemma split_first sep s :
  ∃ first, head (split sep s) = Some first
           ∧ (sep ∉ first)
           ∧ (s = first ∨ ∃ tail, s = first ++ sep :: tail).
Proof.
  induction s as [|c s (first & Hhead & Hsep & Hs)].
  { exists []. split_and!; [done|by intros ?%elem_of_nil|by left]. }
  cbn [split]. case_bool_decide as Hc.
  - subst c. exists []. split_and!; [done|by intros ?%elem_of_nil|].
    right. by exists s.
  - destruct (split sep s) as [|first' rest]; [done|].
    injection Hhead as ->. exists (c :: first). split_and!; [done| |].
    + by intros [?|?]%elem_of_cons.
    + destruct Hs as [->|[tail ->]]; [by left|]. right. by exists tail.
Qed.

Lemma split_head_app sep first tail :
  sep ∉ first → head (split sep (first ++ sep :: tail)) = Some first.
Proof.
  induction first as [|c first IH]; intros Hsep; cbn [app split].
  { by rewrite bool_decide_eq_true_2. }
  apply not_elem_of_cons in Hsep as [Hc Hsep].
  rewrite bool_decide_eq_false_2 by done. specialize (IH Hsep).
  destruct (split sep (first ++ sep :: tail)) as [|? ?]; [done|].
  by injection IH as ->.
Qed.

(** X5: The default destination is the time of the run up to its first
    dot (the whole of it when it has none), with every colon turned into a
    hyphen, followed by [_backup]; it has no colon, and a time without a
    slash gives a name of one component. *)
Theorem default_dest_dir_shape w :
  ∃ stamp,
    (chr "." ∉ stamp)
    ∧ (now_isoformat w = stamp
       ∨ ∃ tail, now_isoformat w = stamp ++ chr "." :: tail)
    ∧ default_dest_dir w
      = replace_char (chr ":") (chr "-") stamp ++ lit "_backup"
    ∧ (chr ":" ∉ default_dest_dir w)
    ∧ (SLASH ∉ now_isoformat w → component (default_dest_dir w)).
Proof.
  destruct (split_first (chr ".") (now_isoformat w))
    as (stamp & _ & Hdot & Hnow).
  set (replaced := replace_char (chr ":") (chr "-") stamp).
  assert (Hdot' : chr "." ∉ replaced) by by apply replace_char_other.
  assert (Hdest : default_dest_dir w = replaced ++ lit "_backup").
  { unfold default_dest_dir. destruct Hnow as [->|[tail ->]].
    - fold replaced. by rewrite split_no_sep.
    - unfold replace_char. rewrite fmap_app, fmap_cons.
      rewrite bool_decide_eq_false_2 by done.
      by rewrite split_head_app. }
  assert (Hcolon : chr ":" ∉ replaced) by by apply replace_char_elem.
  exists stamp. split_and!; [done..| |].
  - rewrite Hdest, elem_of_app. intros [?|Hin]; [done|].
    by apply (bool_decide_pack _) in Hin.
  - intros Hslash. rewrite Hdest. split_and!.
    + rewrite elem_of_app. intros [Hin|Hin].
      * apply (replace_char_other (chr ":") (chr "-") SLASH stamp);
          [done| |done].
        intros Hstamp. apply Hslash.
        destruct Hnow as [->|[tail ->]]; [done|].
        apply elem_of_app. by left.
      * by apply (bool_decide_pack _) in Hin.
    + by destruct replaced.
    + intros H%(f_equal length). rewrite length_app in H. cbn in H. lia.
    + intros H%(f_equal length). rewrite length_app in H. cbn in H. lia.
Qed.

End destination.

Lemma default_dest_dir_shape_witness :
  let w := Examples.home (Examples.serving Examples.sprint CallFails) in
  default_dest_dir w = lit "2024-05-06_07-08-09_backup"
  ∧ component (default_dest_dir w).
Proof.
  intros w. split; [reflexivity|].
  destruct (default_dest_dir_shape w) as (stamp & _ & _ & _ & _ & Hcomp).
  apply Hcomp. apply (bool_decide_unpack _). vm_compute. exact I.
Defined.

Section runs_of_a_list.

Implicit Types (w : World) (c : Card) (ls : TrelloList) (i j k : nat).

(** The cards handed to [backup_card] for a list are the last run of its id,
    sorted. *)
Lemma cards_of_last_run (before run after : list Card) ls :
  run ≠ [] →
  Forall (λ c, c_idList c = l_id ls) run →
  Forall (λ c, c_idList c ≠ l_id ls) after →
  (∀ c, last before = Some c → c_idList c ≠ l_id ls) →
  cards_of (cards_by_list (before ++ run ++ after)) ls = sorted c_pos run.
Proof.
  intros Hne Hrun Hafter Hbefore.
  unfold cards_of. rewrite cards_by_list_foldl.
  assert (Hhead : ∀ c, head run = Some c → c_idList c = l_id ls).
  { intros c Hc. rewrite Forall_forall in Hrun. apply Hrun.
    by apply head_Some_elem_of. }
  assert (Hlast : ∀ c, last run = Some c → c_idList c = l_id ls).
  { intros c Hc. rewrite Forall_forall in Hrun. apply Hrun.
    by apply last_Some_elem_of. }
  rewrite groupby_app.
  2:{ intros x y Hx Hy. destruct run as [|c run]; [done|].
      cbn in Hy. injection Hy as <-.
      rewrite (Hhead c eq_refl). by apply Hbefore. }
  rewrite groupby_app.
  2:{ intros x y Hx Hy. rewrite (Hlast x Hx).
      rewrite Forall_forall in Hafter. apply not_eq_sym, Hafter.
      by apply head_Some_elem_of. }
  rewrite (groupby_one_run _ run (l_id ls)) by done.
  rewrite foldl_app. cbn [app foldl assign_group].
  rewrite foldl_assign_fresh, lookup_insert_eq; [done|].
  intros (c & Hc & Hk)%groupby_key_elem.
  rewrite Forall_forall in Hafter. by apply (Hafter c).
Qed.

(** X22: For a list, the last run of adjacent cards that carry its id is what
    is exported, and only it: when lines 127-144 have ended normally, the
    directory of the list holds the cards of that run, each under its
    ordinal in the run sorted by position (cards of one position in their
    input order), and on a well-formed tree nothing else, whatever cards of
    the same list stand earlier in the input. *)
Theorem last_run_is_exported (name : list N) (lists : list TrelloList)
    (before run after : list Card) (k : nat) (ls : TrelloList)
    (args : Args) (w w' : World) :
  run ≠ [] →
  Forall (λ c, c_idList c = l_id ls) run →
  Forall (λ c, c_idList c ≠ l_id ls) after →
  (∀ c, last before = Some c → c_idList c ≠ l_id ls) →
  lists !! k = Some ls →
  backup_lists {| bd_name := name; bd_lists := lists;
                  bd_cards := before ++ run ++ after |} args w
  = (Done tt, w') →
  let list_dir := cwd w ++ [prefixed_name k (l_name ls)] in
  (∀ j c, sorted c_pos run !! j = Some c →
          exported w' (list_dir ++ [prefixed_name j (c_name c)]) c)
  ∧ (closed (tree w) →
     ∀ s, is_Some (tree w' !! (list_dir ++ [s])) →
          ∃ j c, sorted c_pos run !! j = Some c
                 ∧ s = prefixed_name j (c_name c))
  ∧ sorted c_pos run ≡ₚ run
  ∧ StronglySorted (key_le c_pos) (sorted c_pos run)
  ∧ ∀ q, filter (λ c, (c_pos c == q)%Q) (sorted c_pos run)
         = filter (λ c, (c_pos c == q)%Q) run.
Proof.
  intros Hne Hrun Hafter Hbefore Hls Hends list_dir.
  pose proof (cards_of_last_run before run after ls Hne Hrun Hafter Hbefore)
    as Hcards.
  set (board := {| bd_name := name; bd_lists := lists;
                   bd_cards := before ++ run ++ after |}) in *.
  split_and!.
  - pose proof (backup_lists_post board args w) as Hpost.
    unfold post in Hpost. rewrite Hends in Hpost.
    destruct Hpost as (_ & Hdone).
    destruct (Hdone eq_refl) as (_ & _ & Hlists).
    destruct (Hlists k ls Hls) as (_ & _ & Hexported).
    cbn [bd_cards board] in Hexported. rewrite Hcards in Hexported.
    exact Hexported.
  - intros Hclosed s Hsome.
    pose proof (backup_lists_only board args w Hclosed) as Honly.
    unfold post in Honly. rewrite Hends in Honly.
    destruct Honly as [Honly _].
    rewrite <- Hcards. apply (Honly eq_refl k ls s []); [done|].
    unfold list_dir in Hsome. by rewrite <- (assoc_L (++)) in Hsome.
  - apply sorted_perm.
  - apply sorted_sorted.
  - intros q. apply sorted_stable.
Qed.

(** X21: When the cards of each list are next to each other in the input and
    lines 127-144 have ended normally, no card is lost: every card of the
    board whose [idList] is the id of a list is exported in the directory
    of that list, under an ordinal below the number of cards of the list. *)
Theorem adjacent_cards_are_all_exported
    (board_details : BoardDetails) (args : Args) (w w' : World) :
  NoDup (groupby c_idList (bd_cards board_details)).*1 →
  backup_lists board_details args w = (Done tt, w') →
  ∀ k ls c,
    bd_lists board_details !! k = Some ls →
    c ∈ bd_cards board_details → c_idList c = l_id ls →
    ∃ j, j < length (filter (λ c', c_idList c' = l_id ls)
                            (bd_cards board_details))
         ∧ exported w' (cwd w ++ [prefixed_name k (l_name ls);
                                  prefixed_name j (c_name c)]) c.
Proof.
  intros Hruns Hends k ls c Hls Hc Hid.
  pose proof (cards_of_one_run (bd_cards board_details) ls Hruns) as Hperm.
  assert (Hin : c ∈ cards_of (cards_by_list (bd_cards board_details)) ls).
  { rewrite Hperm. by apply list_elem_of_filter. }
  apply list_elem_of_lookup in Hin as [j Hj]. exists j. split.
  - rewrite <- Hperm. by eapply lookup_lt_Some.
  - pose proof (backup_lists_post board_details args w) as Hpost.
    unfold post in Hpost. rewrite Hends in Hpost.
    destruct Hpost as (_ & Hdone).
    destruct (Hdone eq_refl) as (_ & _ & Hlists).
    destruct (Hlists k ls Hls) as (_ & _ & Hexported).
    specialize (Hexported j c Hj).
    by rewrite <- (assoc_L (++)) in Hexported.
Qed.

End runs_of_a_list.

Lemma adjacent_cards_are_all_exported_witness :
  let a := Examples.card "a" "L1" 3 [] in
  let c := Examples.card "c" "L1" 1 [] in
  let b := Examples.card "b" "L2" 2 [] in
  let board := {| bd_name := lit "Board";
                  bd_lists := bd_lists Examples.interleaved;
                  bd_cards := [a; c; b] |} in
  let w := Examples.home (Examples.serving board CallFails) in
  ∃ j, j < 2
       ∧ exported (backup_lists board Examples.default_args w).2
           [lit "home"; lit "0_Todo"; prefixed_name j (lit "a")] a.
Proof.
  intros a c b board w.
  assert (Hruns : NoDup (groupby c_idList (bd_cards board)).*1)
    by (apply (bool_decide_unpack _); vm_compute; exact I).
  assert (Hends : backup_lists board Examples.default_args w
                  = (Done tt, (backup_lists board Examples.default_args w).2)).
  { apply (run_outcome (backup_lists board Examples.default_args) w (Done tt)).
    vm_compute. reflexivity. }
  destruct (adjacent_cards_are_all_exported board Examples.default_args w
              (backup_lists board Examples.default_args w).2 Hruns Hends
              0 {| l_id := lit "L1"; l_name := lit "Todo" |} a)
    as (j & Hj & Hexported).
  - reflexivity.
  - apply list_elem_of_here.
  - reflexivity.
  - exists j. split; [exact Hj|exact Hexported].
Defined.

Lemma last_run_is_exported_witness :
  let a := Examples.card "a" "L1" 1 [] in
  let b := Examples.card "b" "L2" 2 [] in
  let c := Examples.card "c" "L1" 3 [] in
  let todo := {| l_id := lit "L1"; l_name := lit "Todo" |} in
  let w := Examples.home (Examples.serving Examples.interleaved CallFails) in
  exported (backup_lists Examples.interleaved Examples.default_args w).2
    [lit "home"; lit "0_Todo"; lit "0_c"] c.
Proof.
  intros a b c todo w.
  destruct (last_run_is_exported (lit "Board") (bd_lists Examples.interleaved)
              [a; b] [c] [] 0 todo Examples.default_args w
              (backup_lists Examples.interleaved Examples.default_args w).2)
    as (Hexported & _).
  - discriminate.
  - apply (bool_decide_unpack _). vm_compute. exact I.
  - apply Forall_nil_2.
  - intros x [= <-]. vm_compute. discriminate.
  - reflexivity.
  - apply (run_outcome (backup_lists Examples.interleaved Examples.default_args)
             w (Done tt)).
    vm_compute. reflexivity.
  - apply (Hexported 0 c). reflexivity.
Defined.
